(** * GitJourney: the Git state simulation engine

    A shallow embedding of [src/utils/gitLogic.ts] (the repository model,
    the command engine [executeGitCommand], and the accounts and progress
    kept in [localStorage]) and of the command loop of [handleCommand] in
    [src/App.tsx], followed by the properties that are established or
    refuted on it.

    Conventions of the embedding.
    - A JS string is a [string]; white space is the ASCII part of the
      regular-expression class \s (codes 9 to 13 and 32).
    - [string | null] is [option string]; an array element that may be
      missing ([parts[2]]) is an [option string] as well, and the JS
      truthiness test on it is [truthy].
    - A JS number that holds a timestamp or a count is a [Z]: the numbers
      of the program are integers. The sums that make a timestamp are
      rounded the way sums of doubles are ([JS.plus]): exact up to 2^53,
      and to 53 significant bits beyond.
    - The two sources of non-determinism, [uuidv4()] and [Date.now()], are
      fields of a [World]; the n-th call made while one command runs reads
      the n-th value. *)

From Stdlib Require Import String Ascii List ZArith Lia Bool Arith Sorted Permutation.
From Stdlib Require Import DecimalString.
Import ListNotations.

Open Scope list_scope.
Open Scope string_scope.

(* ================================================================== *)
(** ** JavaScript string primitives used by the engine *)
(* ================================================================== *)

Module JS.

(** The double quote and the line feed, built from their codes. *)
Definition dquote : string := String (ascii_of_nat 34) EmptyString.
Definition nl : string := String (ascii_of_nat 10) EmptyString.

(** Truthiness of a string value: every string but the empty one. *)
Definition truthyS (s : string) : bool :=
  match s with EmptyString => false | _ => true end.

(** Truthiness of [string | null | undefined]. *)
Definition truthy (o : option string) : bool :=
  match o with Some s => truthyS s | None => false end.

(** Template-literal rendering of a value that may be [undefined]. *)
Definition show (o : option string) : string :=
  match o with Some s => s | None => "undefined" end.

Definition isSpace (c : ascii) : bool :=
  let n := nat_of_ascii c in
  (((9 <=? n) && (n <=? 13)) || (n =? 32))%nat.

Fixpoint trimStart (s : string) : string :=
  match s with
  | String c s' => if isSpace c then trimStart s' else s
  | EmptyString => EmptyString
  end.

Fixpoint trimEnd (s : string) : string :=
  match s with
  | EmptyString => EmptyString
  | String c s' =>
      match trimEnd s' with
      | EmptyString => if isSpace c then EmptyString else String c EmptyString
      | t => String c t
      end
  end.

Definition trim (s : string) : string := trimEnd (trimStart s).

(** Push a character onto the first piece of a split under construction. *)
Definition consHead (c : ascii) (l : list string) : list string :=
  match l with
  | tok :: rest => String c tok :: rest
  | [] => [String c EmptyString]
  end.

(** [s.split(/\s+/)]: [inWs] tells that the previous character belonged to
    a separator, whose remaining characters are skipped. *)
Fixpoint splitWsFrom (inWs : bool) (s : string) : list string :=
  match s with
  | EmptyString => [EmptyString]
  | String c s' =>
      if isSpace c
      then (if inWs then splitWsFrom true s' else EmptyString :: splitWsFrom true s')
      else consHead c (splitWsFrom false s')
  end.

Definition splitWs (s : string) : list string := splitWsFrom false s.

(** [s.split(sep)] for a non-empty separator: leftmost occurrences, not
    overlapping; [skip] counts the separator characters still to drop. *)
Fixpoint splitFrom (sep : string) (skip : nat) (s : string) : list string :=
  match s with
  | EmptyString => [EmptyString]
  | String c s' =>
      match skip with
      | S k => splitFrom sep k s'
      | O =>
          if prefix sep s
          then EmptyString :: splitFrom sep (String.length sep - 1) s'
          else consHead c (splitFrom sep 0 s')
      end
  end.

Definition split (sep s : string) : list string := splitFrom sep 0 s.

(** [s.indexOf(c)] and [s.lastIndexOf(c)] for a one-character [c];
    [None] is the JS result -1. *)
Fixpoint indexOf (c : ascii) (s : string) : option nat :=
  match s with
  | EmptyString => None
  | String d s' =>
      if Ascii.eqb c d then Some 0 else option_map S (indexOf c s')
  end.

Fixpoint lastIndexOf (c : ascii) (s : string) : option nat :=
  match s with
  | EmptyString => None
  | String d s' =>
      match lastIndexOf c s' with
      | Some i => Some (S i)
      | None => if Ascii.eqb c d then Some 0 else None
      end
  end.

(** [s.substring(a, b)]: both indices are clamped to the length and swapped
    when out of order. *)
Definition substring (a b : nat) (s : string) : string :=
  let a' := Nat.min a (String.length s) in
  let b' := Nat.min b (String.length s) in
  String.substring (Nat.min a' b') (Nat.max a' b' - Nat.min a' b') s.

(** [s.startsWith(p)]. *)
Definition startsWith (s p : string) : bool := prefix p s.

(** [parts.includes(x)] and [parts.join(' ')]. *)
Definition includes (parts : list string) (x : string) : bool :=
  existsb (String.eqb x) parts.

Definition join (sep : string) (parts : list string) : string :=
  String.concat sep parts.

(** [parseInt(s)]: optional sign, optional 0x prefix, the longest run of
    digits; [None] is NaN. *)
Definition digitVal (radix : Z) (c : ascii) : option Z :=
  let n := Z.of_nat (nat_of_ascii c) in
  let v :=
    (if (48 <=? n) && (n <=? 57) then Some (n - 48)
     else if (97 <=? n) && (n <=? 122) then Some (n - 87)
     else if (65 <=? n) && (n <=? 90) then Some (n - 55)
     else None)%Z in
  match v with
  | Some d => if (d <? radix)%Z then Some d else None
  | None => None
  end.

Fixpoint parseDigits (radix : Z) (acc : option Z) (s : string) : option Z :=
  match s with
  | EmptyString => acc
  | String c s' =>
      match digitVal radix c with
      | Some d =>
          parseDigits radix
            (Some (radix * (match acc with Some a => a | None => 0 end) + d)%Z) s'
      | None => acc
      end
  end.

Definition parseInt (s : string) : option Z :=
  let s := trimStart s in
  let '(sign, body) :=
    match s with
    | String "-" r => ((-1)%Z, r)
    | String "+" r => (1%Z, r)
    | _ => (1%Z, s)
    end in
  let '(radix, digits) :=
    match body with
    | String "0" (String "x" r) => (16%Z, r)
    | String "0" (String "X" r) => (16%Z, r)
    | _ => (10%Z, body)
    end in
  option_map (Z.mul sign) (parseDigits radix None digits).

(** *** Numbers

    A JS number is an IEEE 754 double. Every integer of magnitude up to
    2^53 is a double; a larger one is a double when it fits in 53
    significant bits. [roundDouble z] is the double nearest to the integer
    [z], the one with the even mantissa when [z] is half way between two:
    the value that an arithmetic operation with the exact result [z]
    returns. (A sum of a double and an integer below 2^970 is below the
    overflow threshold, so that no sum of the engine gives Infinity.) *)
Definition exactBound : Z := 9007199254740992.

Definition roundDouble (z : Z) : Z :=
  let a := Z.abs z in
  if (a <=? exactBound)%Z then z else
  let ulp := (2 ^ (Z.log2 a - 52))%Z in
  let q := (a / ulp)%Z in
  let r := (a mod ulp)%Z in
  let up :=
    if (2 * r <? ulp)%Z then false
    else if (ulp <? 2 * r)%Z then true
    else Z.odd q in
  (Z.sgn z * ((if up then q + 1 else q) * ulp))%Z.

(** [x + y] and [x - y] on numbers. *)
Definition plus (x y : Z) : Z := roundDouble (x + y).
Definition minus (x y : Z) : Z := roundDouble (x - y).

End JS.

(* ================================================================== *)
(** ** The repository model ([types.ts]) *)
(* ================================================================== *)

Record Commit := mkCommit {
  id : string;
  message : string;
  parentId : option string;
  secondParentId : option string;
  timestamp : Z;
  author : string
}.

Record Branch := mkBranch {
  name : string;
  commitId : string
}.

(** [Tag] has the fields of [Branch]; TypeScript types are structural. *)
Definition Tag : Type := Branch.

(** The string literal types 'branch' and 'commit'. *)
Inductive HeadType : Type := type_branch | type_commit.

Record Head := mkHead {
  type : HeadType;
  ref : string
}.

Record GitState := mkGitState {
  commits : list Commit;
  branches : list Branch;
  tags : list Tag;
  head : Head
}.

Definition isBranch (t : HeadType) : bool :=
  match t with type_branch => true | type_commit => false end.

(** The environment of one command: the values [uuidv4()] and [Date.now()]
    return at their successive calls, the rendering of a time of day, and
    the clock value read when the module was loaded. *)
Record World := mkWorld {
  uuidv4 : nat -> string;
  Date_now : nat -> Z;
  toLocaleTimeString : Z -> string;
  loadTime : Z
}.

(** The world as seen after [i] identifiers and [j] clock values were used. *)
Definition later (i j : nat) (w : World) : World :=
  {| uuidv4 := fun n => uuidv4 w (i + n);
     Date_now := fun n => Date_now w (j + n);
     toLocaleTimeString := toLocaleTimeString w;
     loadTime := loadTime w |}.

Definition INITIAL_STATE (w : World) : GitState :=
  {| commits :=
       [ {| id := "init"; message := "Initial commit"; parentId := None;
            secondParentId := None; timestamp := loadTime w; author := "User" |} ];
     branches := [ {| name := "main"; commitId := "init" |} ];
     tags := [];
     head := {| type := type_branch; ref := "main" |} |}.

Definition generateShortId (w : World) (n : nat) : string :=
  JS.substring 0 7 (uuidv4 w n).

Definition findCommit (state : GitState) (x : string) : option Commit :=
  find (fun c => id c =? x) (commits state).

Definition findBranch (state : GitState) (x : string) : option Branch :=
  find (fun b => name b =? x) (branches state).

Definition findTag (state : GitState) (x : string) : option Tag :=
  find (fun t => name t =? x) (tags state).

Definition getHeadCommitId (state : GitState) : string :=
  match type (head state) with
  | type_commit => ref (head state)
  | type_branch =>
      match findBranch state (ref (head state)) with
      | Some b => commitId b
      | None => "init"
      end
  end.

(** [resolveRef]: [None] is the JS [null]. *)
Definition resolveRef (state : GitState) (r : option string) : option string :=
  match r with
  | None => None
  | Some EmptyString => None
  | Some r =>
      match findBranch state r with
      | Some b => Some (commitId b)
      | None =>
          match findTag state r with
          | Some t => Some (commitId t)
          | None =>
              match find (fun c => (id c =? r) || JS.startsWith (id c) r)
                         (commits state) with
              | Some c => Some (id c)
              | None => if r =? "HEAD" then Some (getHeadCommitId state) else None
              end
          end
      end
  end.

Definition maxTimestamp (l : list Commit) : Z :=
  match l with
  | [] => 0%Z
  | c :: l' => fold_left Z.max (map timestamp l') (timestamp c)
  end.

(** [getNextTimestamp], reading the clock at call number [n]. *)
Definition getNextTimestamp (w : World) (n : nat) (state : GitState) : Z :=
  Z.max (Date_now w n) (JS.plus (maxTimestamp (commits state)) 2000).

(** *** Ancestry test

    One iteration of the [while] loop of [isAncestor], as a function of the
    queue and of the visited set: the loop either ends with its result or
    goes on with a new queue and a new visited set. *)

Definition has (visited : list string) (x : string) : bool :=
  existsb (String.eqb x) visited.

Definition pushIf (o : option string) : list string :=
  match o with
  | Some p => if JS.truthyS p then [p] else []
  | None => []
  end.

Inductive LoopStep : Type :=
| Break (result : bool)
| Continue (queue visited : list string).

Definition isAncestor_step (state : GitState) (ancestorId : string)
    (queue visited : list string) : LoopStep :=
  match queue with
  | [] => Break false
  | curr :: queue' =>
      if has visited curr then Continue queue' visited
      else
        let visited' := curr :: visited in
        if curr =? ancestorId then Break true
        else
          match findCommit state curr with
          | Some c =>
              Continue (queue' ++ pushIf (parentId c) ++ pushIf (secondParentId c))%list
                       visited'
          | None => Continue queue' visited'
          end
  end.

(** The loop, one unit of fuel per iteration; [None] when the fuel runs out
    before the loop ends. *)
Fixpoint isAncestor_loop (fuel : nat) (state : GitState) (ancestorId : string)
    (queue visited : list string) : option bool :=
  match fuel with
  | O => None
  | S fuel' =>
      match isAncestor_step state ancestorId queue visited with
      | Break b => Some b
      | Continue queue' visited' =>
          isAncestor_loop fuel' state ancestorId queue' visited'
      end
  end.

(** The loop state after [n] iterations (the result, if it ended before). *)
Fixpoint isAncestor_after (n : nat) (state : GitState) (ancestorId : string)
    (queue visited : list string) : LoopStep :=
  match n with
  | O => Continue queue visited
  | S n' =>
      match isAncestor_step state ancestorId queue visited with
      | Break b => Break b
      | Continue queue' visited' =>
          isAncestor_after n' state ancestorId queue' visited'
      end
  end.

(** Iterations that the loop can need: one per element that ever enters the
    queue (the start and two per commit), and one for the final test. *)
Definition isAncestor_fuel (state : GitState) : nat :=
  2 * List.length (commits state) + 2.

Definition isAncestor (state : GitState) (ancestorId descendantId : string) : bool :=
  if ancestorId =? descendantId then true
  else
    match isAncestor_loop (isAncestor_fuel state) state ancestorId [descendantId] [] with
    | Some b => b
    | None => false
    end.

(* ================================================================== *)
(** ** The command engine ([executeGitCommand]) *)
(* ================================================================== *)

Record Result := mkResult {
  newState : GitState;
  output : string;
  success : bool
}.

(** What a call of the engine can do. [Throws] is an uncaught exception.
    [Diverges] is a loop that never ends. [Untyped] is a return whose
    snapshot is not a [GitState]: a branch name and the HEAD reference
    hold the JS value undefined. *)
Inductive Outcome : Type :=
| Returns (r : Result)
| Throws (error : string)
| Diverges
| Untyped (output : string).

Definition fail (state : GitState) (msg : string) : Result :=
  {| newState := state; output := msg; success := false |}.

Definition ok (state : GitState) (msg : string) : Result :=
  {| newState := state; output := msg; success := true |}.

(** Object spreads [{ ...state, field: v }]. *)
Definition withCommits (state : GitState) (cs : list Commit) : GitState :=
  {| commits := cs; branches := branches state; tags := tags state; head := head state |}.

Definition withBranches (state : GitState) (bs : list Branch) : GitState :=
  {| commits := commits state; branches := bs; tags := tags state; head := head state |}.

Definition withTags (state : GitState) (ts : list Tag) : GitState :=
  {| commits := commits state; branches := branches state; tags := ts; head := head state |}.

Definition withHead (state : GitState) (h : Head) : GitState :=
  {| commits := commits state; branches := branches state; tags := tags state; head := h |}.

(** [branches.map(b => b.name === n ? { ...b, commitId: c } : b)]. *)
Definition pointTo (n c : string) (bs : list Branch) : list Branch :=
  map (fun b => if name b =? n then {| name := name b; commitId := c |} else b) bs.

(** [branches.map(b => b.name === n ? { ...b, name: n' } : b)]. *)
Definition rename (n n' : string) (bs : list Branch) : list Branch :=
  map (fun b => if name b =? n then {| name := n'; commitId := commitId b |} else b) bs.

(** [parts[i]]. *)
Definition part (parts : list string) (i : nat) : option string :=
  nth_error parts i.

Definition eqS (o : option string) (s : string) : bool :=
  match o with Some x => x =? s | None => false end.

(** *** log *)

(** [Array.prototype.sort] with the comparator [b.timestamp - a.timestamp]:
    a stable sort, newest first. *)
Fixpoint insertNewestFirst (c : Commit) (l : list Commit) : list Commit :=
  match l with
  | [] => [c]
  | d :: l' =>
      if (timestamp c <? timestamp d)%Z
      then d :: insertNewestFirst c l'
      else c :: l
  end.

Definition sortNewestFirst (l : list Commit) : list Commit :=
  fold_right insertNewestFirst [] l.

Definition logEntry (w : World) (c : Commit) : string :=
  "commit " ++ id c ++ JS.nl ++ "Author: " ++ author c ++ JS.nl
  ++ "Date: " ++ toLocaleTimeString w (timestamp c) ++ JS.nl ++ JS.nl
  ++ "    " ++ message c.

(** The sort works in place on [state.commits] and the returned snapshot is
    the argument itself, so the snapshot that comes back is the reordered
    one. *)
Definition cmdLog (w : World) (state : GitState) : Result :=
  let sorted := sortNewestFirst (commits state) in
  let logOutput := JS.join (JS.nl ++ JS.nl) (map (logEntry w) sorted) in
  ok (withCommits state sorted)
     (if JS.truthyS logOutput then logOutput else "(no commits)").

(** *** remote, clone *)

Definition cmdRemote (parts : list string) (state : GitState) : Result :=
  if eqS (part parts 2) "add" then
    let name := part parts 3 in
    let url := part parts 4 in
    if negb (JS.truthy name) || negb (JS.truthy url)
    then fail state "usage: git remote add <name> <url>"
    else ok state ("Added remote '" ++ JS.show name ++ "' as '" ++ JS.show url ++ "'")
  else if eqS (part parts 2) "-v" || eqS (part parts 2) "get-url" then
    ok state ("origin  https://github.com/user/repo.git (fetch)" ++ JS.nl
              ++ "origin  https://github.com/user/repo.git (push)")
  else ok state "".

Definition clonedState (w : World) : GitState :=
  {| commits :=
       [ {| id := "c82a"; message := "Initial public release"; parentId := None;
            secondParentId := None; timestamp := JS.minus (Date_now w 0) 10000;
            author := "Origin" |};
         {| id := "a12b"; message := "Update README"; parentId := Some "c82a";
            secondParentId := None; timestamp := JS.minus (Date_now w 1) 5000;
            author := "Origin" |} ];
     branches := [ {| name := "main"; commitId := "a12b" |};
                   {| name := "origin/main"; commitId := "a12b" |} ];
     tags := [];
     head := {| type := type_branch; ref := "main" |} |}.

Definition cmdClone (w : World) : Result :=
  ok (clonedState w)
     ("Cloning into 'project'..." ++ JS.nl
      ++ "Remote: Enumerating objects: 5, done." ++ JS.nl
      ++ "Remote: Total 5 (delta 0), reused 0 (delta 0)" ++ JS.nl
      ++ "Unpacking objects: 100% (5/5), done.").

(** *** fetch *)

Definition cmdFetch (w : World) (state : GitState) : Result :=
  match findBranch state "origin/main" with
  | None => fail state "No remote found"
  | Some originBranch =>
      let newCommitId := generateShortId w 0 in
      let newCommit :=
        {| id := newCommitId; message := "Remote update";
           parentId := Some (commitId originBranch); secondParentId := None;
           timestamp := getNextTimestamp w 0 state; author := "Teammate" |} in
      let newBranches := pointTo "origin/main" newCommitId (branches state) in
      ok {| commits := (commits state ++ [newCommit])%list; branches := newBranches;
            tags := tags state; head := head state |}
         ("From https://github.com/demo/repo" ++ JS.nl ++ "   "
          ++ JS.substring 0 4 (commitId originBranch) ++ ".."
          ++ JS.substring 0 4 newCommitId ++ "  main       -> origin/main")
  end.

(** *** merge *)

Definition cmdMerge (w : World) (parts : list string) (state : GitState) : Result :=
  let sourceName := part parts 2 in
  if negb (JS.truthy sourceName) then fail state "Merge source required" else
  let sourceCommitId := resolveRef state sourceName in
  if negb (JS.truthy sourceCommitId)
  then fail state ("Merge source '" ++ JS.show sourceName ++ "' not found") else
  if negb (isBranch (type (head state)))
  then fail state "You must be on a branch to merge" else
  let sourceCommitId := JS.show sourceCommitId in
  let currentHeadId := getHeadCommitId state in
  if sourceCommitId =? currentHeadId then ok state "Already up to date." else
  let isFastForward := isAncestor state currentHeadId sourceCommitId in
  if isFastForward then
    let newBranches := pointTo (ref (head state)) sourceCommitId (branches state) in
    ok (withBranches state newBranches)
       ("Fast-forward merge: " ++ ref (head state) ++ " is now at "
        ++ JS.substring 0 7 sourceCommitId)
  else
    let newCommit :=
      {| id := generateShortId w 0;
         message := "Merge " ++ JS.show sourceName ++ " into " ++ ref (head state);
         parentId := Some currentHeadId; secondParentId := Some sourceCommitId;
         timestamp := getNextTimestamp w 0 state; author := "User" |} in
    let newBranches := pointTo (ref (head state)) (id newCommit) (branches state) in
    ok {| commits := (commits state ++ [newCommit])%list; branches := newBranches;
          tags := tags state; head := head state |}
       ("Merged " ++ JS.show sourceName ++ " into " ++ ref (head state)).

(** *** pull: fetch, then merge origin/main on the fetched snapshot *)

Definition cmdPull (w : World) (state : GitState) : Result :=
  let fetchRes := cmdFetch w state in
  if negb (success fetchRes) then fetchRes else
  let mergeRes :=
    cmdMerge (later 1 1 w) ["git"; "merge"; "origin/main"] (newState fetchRes) in
  {| newState := newState mergeRes;
     output := output fetchRes ++ JS.nl ++ output mergeRes;
     success := true |}.

(** *** push *)

Definition cmdPush (state : GitState) : Result :=
  let currentBranch := ref (head state) in
  if negb (isBranch (type (head state)))
  then fail state "fatal: You are not currently on a branch." else
  match findBranch state currentBranch with
  | None => fail state "error"
  | Some branch =>
      let remoteName := "origin/" ++ currentBranch in
      let remoteBranch := findBranch state remoteName in
      let rejected :=
        match remoteBranch with
        | Some remoteBranch =>
            let isFF := isAncestor state (commitId remoteBranch) (commitId branch) in
            negb isFF && negb (commitId remoteBranch =? commitId branch)
        | None => false
        end in
      if rejected then
        fail state
          ("! [rejected]        " ++ currentBranch ++ " -> " ++ currentBranch
           ++ " (non-fast-forward)" ++ JS.nl
           ++ "hint: Updates were rejected because the tip of your current branch is behind"
           ++ JS.nl
           ++ "hint: its remote counterpart. Integrate the remote changes (e.g."
           ++ JS.nl ++ "hint: 'git pull ...') before pushing again.")
      else
        let newBranches :=
          (filter (fun b => negb (name b =? remoteName)) (branches state)
           ++ [ {| name := remoteName; commitId := commitId branch |} ])%list in
        ok (withBranches state newBranches)
           ("Enumerating objects: 3, done." ++ JS.nl
            ++ "To https://github.com/demo/repo.git" ++ JS.nl ++ "   "
            ++ JS.substring 0 7 (commitId branch) ++ ".."
            ++ JS.substring 0 7 (commitId branch) ++ "  "
            ++ currentBranch ++ " -> " ++ currentBranch)
  end.

(** *** commit *)

(** [commits.map(c => c.id === headId ? { ...c, message, timestamp: Date.now() } : c)];
    [n] counts the clock values already read. *)
Fixpoint amendCommits (w : World) (n : nat) (headId newMessage : string)
    (l : list Commit) : list Commit :=
  match l with
  | [] => []
  | c :: l' =>
      if id c =? headId
      then {| id := id c; message := newMessage; parentId := parentId c;
              secondParentId := secondParentId c; timestamp := Date_now w n;
              author := author c |} :: amendCommits w (S n) headId newMessage l'
      else c :: amendCommits w n headId newMessage l'
  end.

Definition quoteChar : ascii := ascii_of_nat 34.

Definition cmdCommit (w : World) (parts : list string) (state : GitState) : Result :=
  let fullCmd := JS.join " " parts in
  let quoteStart := JS.indexOf quoteChar fullCmd in
  let quoteEnd := JS.lastIndexOf quoteChar fullCmd in
  if JS.includes parts "--amend" then
    let headId := getHeadCommitId state in
    match findCommit state headId with
    | None => fail state "Nothing to amend"
    | Some oldCommit =>
        let newMessage :=
          match quoteStart, quoteEnd with
          | Some qs, Some qe =>
              if JS.includes parts "-m" then JS.substring (qs + 1) qe fullCmd
              else message oldCommit
          | _, _ => message oldCommit
          end in
        ok (withCommits state (amendCommits w 0 headId newMessage (commits state)))
           ("[detached HEAD] " ++ headId ++ " " ++ newMessage)
    end
  else
    (* the identifier of call 0 goes into a message that is overwritten *)
    let quoted :=
      match quoteStart, quoteEnd with
      | Some qs, Some qe => if (qs <? qe)%nat then Some (qs, qe) else None
      | _, _ => None
      end in
    let '(message, used) :=
      match quoted with
      | Some (qs, qe) => (JS.substring (qs + 1) qe fullCmd, 1)
      | None => ("Update " ++ generateShortId w 1, 2)
      end in
    let currentHeadId := getHeadCommitId state in
    let newCommit :=
      {| id := generateShortId w used; message := message;
         parentId := Some currentHeadId; secondParentId := None;
         timestamp := getNextTimestamp w 0 state; author := "User" |} in
    match type (head state) with
    | type_branch =>
        let newBranches := pointTo (ref (head state)) (id newCommit) (branches state) in
        ok {| commits := (commits state ++ [newCommit])%list; branches := newBranches;
              tags := tags state; head := head state |}
           ("[" ++ ref (head state) ++ "] " ++ id newCommit ++ " " ++ message)
    | type_commit =>
        ok {| commits := (commits state ++ [newCommit])%list; branches := branches state;
              tags := tags state; head := {| type := type_commit; ref := id newCommit |} |}
           ("[detached HEAD] " ++ id newCommit ++ " " ++ message)
    end.

(** *** branch *)

Definition cmdBranch (parts : list string) (state : GitState) : Outcome :=
  if eqS (part parts 2) "-M" then
    let newName := part parts 3 in
    let currentRef := ref (head state) in
    if negb (isBranch (type (head state)))
    then Returns (fail state "Must be on a branch to rename") else
    match newName with
    | None => Untyped "Renamed branch to 'undefined'"
    | Some newName =>
        let newBranches := rename currentRef newName (branches state) in
        Returns
          (ok {| commits := commits state; branches := newBranches; tags := tags state;
                 head := {| type := type_branch; ref := newName |} |}
              ("Renamed branch to '" ++ newName ++ "'"))
    end
  else
    let branchName := part parts 2 in
    if negb (JS.truthy branchName) then Returns (fail state "Branch name required") else
    let branchName := JS.show branchName in
    match findBranch state branchName with
    | Some _ =>
        Returns (fail state ("fatal: A branch named '" ++ branchName ++ "' already exists."))
    | None =>
        let startPointRef := part parts 3 in
        let created (startCommitId : string) :=
          Returns
            (ok (withBranches state
                   (branches state ++ [ {| name := branchName; commitId := startCommitId |} ])%list)
                ("Created branch '" ++ branchName ++ "'")) in
        if JS.truthy startPointRef then
          let resolved := resolveRef state startPointRef in
          if negb (JS.truthy resolved)
          then Returns (fail state ("fatal: Not a valid object name: '"
                                    ++ JS.show startPointRef ++ "'."))
          else created (JS.show resolved)
        else created (getHeadCommitId state)
    end.

(** *** checkout / switch *)

Definition cmdCheckout (parts : list string) (state : GitState) : Result :=
  if eqS (part parts 2) "-b" || eqS (part parts 2) "-c" then
    let branchName := part parts 3 in
    if negb (JS.truthy branchName) then fail state "Branch name required" else
    let branchName := JS.show branchName in
    match findBranch state branchName with
    | Some _ => fail state ("fatal: A branch named '" ++ branchName ++ "' already exists.")
    | None =>
        let currentHeadId := getHeadCommitId state in
        let newBranch := {| name := branchName; commitId := currentHeadId |} in
        ok {| commits := commits state; branches := (branches state ++ [newBranch])%list;
              tags := tags state; head := {| type := type_branch; ref := branchName |} |}
           ("Switched to a new branch '" ++ branchName ++ "'")
    end
  else
    let target := part parts 2 in
    if negb (JS.truthy target) then fail state "Target required" else
    match findBranch state (JS.show target) with
    | Some branch =>
        ok (withHead state {| type := type_branch; ref := name branch |})
           ("Switched to branch '" ++ JS.show target ++ "'")
    | None =>
        let commitId := resolveRef state target in
        if JS.truthy commitId then
          ok (withHead state {| type := type_commit; ref := JS.show commitId |})
             ("Note: switching to '" ++ JS.show target
              ++ "'. You are in 'detached HEAD' state.")
        else
          fail state ("error: pathspec '" ++ JS.show target
                      ++ "' did not match any file(s) known to git")
    end.

(** *** reset *)

(** The [while (count > 0 && curr)] loop that follows first parents; it
    returns the count and the commit it stops with. *)
Fixpoint resetWalk (state : GitState) (count : nat) (curr : string) : nat * string :=
  match count with
  | O => (O, curr)
  | S k =>
      if JS.truthyS curr then
        match findCommit state curr with
        | Some c =>
            match parentId c with
            | Some p => if JS.truthyS p then resetWalk state k p else (count, curr)
            | None => (count, curr)
            end
        | None => (count, curr)
        end
      else (count, curr)
  end.

Definition tilde : ascii := ascii_of_nat 126.

Definition cmdReset (parts : list string) (state : GitState) : Outcome :=
  let mode := part parts 2 in
  let targetRef := if JS.truthy (part parts 3) then part parts 3 else part parts 2 in
  let actualTarget := targetRef in
  let actualTarget :=
    if negb (eqS mode "--hard") && (List.length parts =? 3)%nat
    then part parts 2 else actualTarget in
  let actualTarget := if eqS mode "--hard" then part parts 3 else actualTarget in
  if negb (isBranch (type (head state)))
  then Returns (fail state "Resetting in detached HEAD is just checkout.") else
  let targetId := resolveRef state actualTarget in
  let finish (targetId : option string) : Outcome :=
    if negb (JS.truthy targetId)
    then Returns (fail state ("Could not resolve " ++ JS.show actualTarget))
    else
      let targetId := JS.show targetId in
      let newBranches := pointTo (ref (head state)) targetId (branches state) in
      Returns (ok (withBranches state newBranches)
                  ("HEAD is now at " ++ JS.substring 0 7 targetId)) in
  if JS.truthy targetId then finish targetId else
  match actualTarget with
  | None => Throws "TypeError: Cannot read properties of undefined (reading 'includes')"
  | Some target =>
      match JS.indexOf tilde target with
      | None => finish targetId
      | Some _ =>
          let pieces := JS.split (String tilde EmptyString) target in
          let base := part pieces 0 in
          let countStr := part pieces 1 in
          if eqS base "HEAD" then
            let curr := getHeadCommitId state in
            let count :=
              match JS.parseInt (JS.show countStr) with
              | Some 0%Z | None => 1%Z
              | Some n => n
              end in
            if (count <? 0)%Z then finish targetId else
            let '(count, curr) := resetWalk state (Z.to_nat count) curr in
            match count with
            | O => finish (Some curr)
            | S _ => finish targetId
            end
          else finish targetId
      end
  end.

(** *** revert, cherry-pick, tag *)

Definition advance (state : GitState) (c : string) : list Branch :=
  match type (head state) with
  | type_branch => pointTo (ref (head state)) c (branches state)
  | type_commit => branches state
  end.

Definition cmdRevert (w : World) (parts : list string) (state : GitState) : Result :=
  let targetRef := part parts 2 in
  let targetId := resolveRef state targetRef in
  if negb (JS.truthy targetId)
  then fail state ("Bad revision '" ++ JS.show targetRef ++ "'") else
  let currentHeadId := getHeadCommitId state in
  let targetCommit := findCommit state (JS.show targetId) in
  let text := "Revert " ++ JS.dquote ++ JS.show (option_map message targetCommit)
              ++ JS.dquote in
  let newCommit :=
    {| id := generateShortId w 0; message := text;
       parentId := Some currentHeadId; secondParentId := None;
       timestamp := getNextTimestamp w 0 state; author := "User" |} in
  ok {| commits := (commits state ++ [newCommit])%list;
        branches := advance state (id newCommit);
        tags := tags state; head := head state |}
     ("[" ++ ref (head state) ++ "] " ++ id newCommit ++ " " ++ text).

Definition cmdCherryPick (w : World) (parts : list string) (state : GitState) : Result :=
  let targetRef := part parts 2 in
  let targetId := resolveRef state targetRef in
  if negb (JS.truthy targetId) then fail state "Bad revision" else
  match findCommit state (JS.show targetId) with
  | None => fail state "Commit not found"
  | Some sourceCommit =>
      let currentHeadId := getHeadCommitId state in
      let newCommit :=
        {| id := generateShortId w 0; message := message sourceCommit;
           parentId := Some currentHeadId; secondParentId := None;
           timestamp := getNextTimestamp w 0 state; author := "User" |} in
      ok {| commits := (commits state ++ [newCommit])%list;
            branches := advance state (id newCommit);
            tags := tags state; head := head state |}
         ("[" ++ ref (head state) ++ "] " ++ id newCommit ++ " " ++ message newCommit)
  end.

Definition cmdTag (parts : list string) (state : GitState) : Result :=
  let tagName := part parts 2 in
  if negb (JS.truthy tagName) then fail state "Tag name required" else
  let tagName := JS.show tagName in
  let currentHeadId := getHeadCommitId state in
  ok (withTags state (tags state ++ [ {| name := tagName; commitId := currentHeadId |} ])%list)
     ("Created tag " ++ tagName).

(** *** rebase *)

(** [s.add(x)] on the set of a lineage. *)
Definition add (s : list string) (x : string) : list string :=
  if has s x then s else x :: s.

Definition parentOf (state : GitState) (x : string) : option string :=
  match findCommit state x with
  | Some c => parentId c
  | None => None
  end.

(** [getLineage]: the [while (curr)] loop along first parents, one unit of
    fuel per test of the condition; [None] when the fuel runs out. *)
Fixpoint getLineage_loop (fuel : nat) (state : GitState) (curr : option string)
    (s : list string) : option (list string) :=
  match fuel with
  | O => None
  | S fuel' =>
      match curr with
      | Some x =>
          if JS.truthyS x
          then getLineage_loop fuel' state (parentOf state x) (add s x)
          else Some s
      | None => Some s
      end
  end.

(** The loop that collects the commits to move, in the order of the pushes. *)
Fixpoint commitsToMove_loop (fuel : nat) (state : GitState) (baseLineage : list string)
    (pointer : option string) (commitsToMove : list Commit) : option (list Commit) :=
  match fuel with
  | O => None
  | S fuel' =>
      match pointer with
      | Some p =>
          if JS.truthyS p && negb (has baseLineage p)
          then
            match findCommit state p with
            | Some c =>
                commitsToMove_loop fuel' state baseLineage (parentId c)
                  (commitsToMove ++ [c])%list
            | None => commitsToMove_loop fuel' state baseLineage None commitsToMove
            end
          else Some commitsToMove
      | None => Some commitsToMove
      end
  end.

(** A walk along first parents that does not come back to a commit tests
    its condition at most once per commit, once for a start that is no
    commit and once more to stop. *)
Definition walk_fuel (state : GitState) : nat :=
  List.length (commits state) + 2.

Definition getLineage (state : GitState) (start : string) : option (list string) :=
  getLineage_loop (walk_fuel state) state (Some start) [].

Definition commitsToMove (state : GitState) (baseId currentTipId : string)
  : option (list Commit) :=
  match getLineage state baseId with
  | None => None
  | Some baseLineage =>
      option_map (@rev Commit)
        (commitsToMove_loop (walk_fuel state) state baseLineage (Some currentTipId) [])
  end.

(** The [for] loop that copies the commits; [n] is [newCommits.length]. It
    returns the copies and the last value of [newParentId]. *)
Fixpoint replay (w : World) (state : GitState) (n : nat) (newParentId : string)
    (todo : list Commit) : list Commit * string :=
  match todo with
  | [] => ([], newParentId)
  | c :: rest =>
      let copy :=
        {| id := generateShortId w n; message := message c;
           parentId := Some newParentId; secondParentId := None;
           timestamp := JS.plus (getNextTimestamp w n state) (Z.of_nat n);
           author := author c |} in
      let '(more, last) := replay w state (S n) (id copy) rest in
      (copy :: more, last)
  end.

Definition cmdRebase (w : World) (parts : list string) (state : GitState) : Outcome :=
  let baseRef := part parts 2 in
  let baseId := resolveRef state baseRef in
  if negb (JS.truthy baseId) then Returns (fail state "Invalid base") else
  let baseId := JS.show baseId in
  if negb (isBranch (type (head state))) then Returns (fail state "Must be on branch") else
  let currentBranchName := ref (head state) in
  let currentTipId := getHeadCommitId state in
  match commitsToMove state baseId currentTipId with
  | None => Diverges
  | Some [] => Returns (ok state "Already up to date.")
  | Some todo =>
      let '(newCommits, newParentId) := replay w state 0 baseId todo in
      let newBranches := pointTo currentBranchName newParentId (branches state) in
      Returns
        (ok {| commits := (commits state ++ newCommits)%list; branches := newBranches;
               tags := tags state; head := head state |}
            ("Rebased refs/heads/" ++ currentBranchName))
  end.

(** *** The dispatcher *)

Definition tokens (command : string) : list string :=
  JS.splitWs (JS.trim command).

Definition dispatch (w : World) (parts : list string) (state : GitState) : Outcome :=
  let cmd := part parts 0 in
  let subCmd := part parts 1 in
  if negb (eqS cmd "git") then Returns (fail state "Command must start with 'git'")
  else if eqS subCmd "init" then
    Returns (ok (INITIAL_STATE w) "Initialized empty Git repository in /project/.git/")
  else if eqS subCmd "remote" then Returns (cmdRemote parts state)
  else if eqS subCmd "log" then Returns (cmdLog w state)
  else if eqS subCmd "add" then Returns (ok state "")
  else if eqS subCmd "clone" then Returns (cmdClone w)
  else if eqS subCmd "fetch" then Returns (cmdFetch w state)
  else if eqS subCmd "pull" then Returns (cmdPull w state)
  else if eqS subCmd "push" then Returns (cmdPush state)
  else if eqS subCmd "commit" then Returns (cmdCommit w parts state)
  else if eqS subCmd "branch" then cmdBranch parts state
  else if eqS subCmd "checkout" || eqS subCmd "switch" then Returns (cmdCheckout parts state)
  else if eqS subCmd "merge" then Returns (cmdMerge w parts state)
  else if eqS subCmd "reset" then cmdReset parts state
  else if eqS subCmd "revert" then Returns (cmdRevert w parts state)
  else if eqS subCmd "cherry-pick" then Returns (cmdCherryPick w parts state)
  else if eqS subCmd "tag" then Returns (cmdTag parts state)
  else if eqS subCmd "rebase" then cmdRebase w parts state
  else Returns (fail state ("git: '" ++ JS.show subCmd ++ "' is not a git command.")).

Definition executeGitCommand (w : World) (command : string) (state : GitState) : Outcome :=
  dispatch w (tokens command) state.

(* ================================================================== *)
(** ** The command loop of the application ([handleCommand]) *)
(* ================================================================== *)

(** What the state updater passed to [setGitState] hands back to React:
    the snapshot that becomes the application state, the joined outputs,
    and whether every command succeeded. *)
Record Published := mkPublished {
  published : GitState;
  combinedOutput : string;
  allSuccess : bool
}.

Inductive Handled : Type :=
| Done (p : Published)
| Failed (error : string)
| Hangs
| Broken (output : string).

(** [cmd.split('&&').map(c => c.trim()).filter(c => c.length > 0)]. *)
Definition subCommands (cmd : string) : list string :=
  filter JS.truthyS (map JS.trim (JS.split "&&" cmd)).

(** The [for] loop of the updater: [state] is the working snapshot, [i] the
    number of commands already run; command [i] runs in the world [ws i]. *)
Fixpoint runCommands (ws : nat -> World) (i : nat) (commands : list string)
    (state : GitState) (allOutputs : list string) : Handled :=
  match commands with
  | [] =>
      Done {| published := state; combinedOutput := JS.join (JS.nl ++ JS.nl) allOutputs;
              allSuccess := true |}
  | singleCmd :: rest =>
      match executeGitCommand (ws i) singleCmd state with
      | Returns result =>
          if success result
          then runCommands ws (S i) rest (newState result)
                 (allOutputs ++ [output result])%list
          else
            (* break; the updater ends with [return state] *)
            Done {| published := state;
                    combinedOutput :=
                      JS.join (JS.nl ++ JS.nl) (allOutputs ++ [output result])%list;
                    allSuccess := false |}
      | Throws e => Failed e
      | Diverges => Hangs
      | Untyped o => Broken o
      end
  end.

Definition handleCommand (ws : nat -> World) (cmd : string) (currentState : GitState)
  : Handled :=
  if cmd =? "clear"
  then Done {| published := currentState; combinedOutput := ""; allSuccess := true |}
  else runCommands ws 0 (subCommands cmd) currentState [].

(* ================================================================== *)
(** ** The lessons ([LESSONS]) *)
(* ================================================================== *)

(** [s.includes(sub)] on strings. *)
Fixpoint strIncludes (s sub : string) : bool :=
  prefix sub s
  || match s with
     | EmptyString => false
     | String _ s' => strIncludes s' sub
     end.

(** [a === b] on values that may be undefined. *)
Definition sameValue (a b : option string) : bool :=
  match a, b with
  | Some x, Some y => x =? y
  | None, None => true
  | _, _ => false
  end.

(** [b?.commitId]. *)
Definition commitIdOf (b : option Branch) : option string := option_map commitId b.

(** A lesson, without its prose (section, title, description, task).
    [checkSuccess] returns [None] when the check throws. *)
Record Lesson := mkLesson {
  lessonId : string;
  hint : string;
  initialState : GitState;
  checkSuccess : GitState -> option bool
}.

Definition quoted (s : string) : string := JS.dquote ++ s ++ JS.dquote.

Definition emptyRepository : GitState :=
  {| commits := []; branches := []; tags := [];
     head := {| type := type_branch; ref := "main" |} |}.

Definition root (i m : string) (t : Z) (a : string) : Commit :=
  {| id := i; message := m; parentId := None; secondParentId := None;
     timestamp := t; author := a |}.

Definition child (i m p : string) (t : Z) (a : string) : Commit :=
  {| id := i; message := m; parentId := Some p; secondParentId := None;
     timestamp := t; author := a |}.

Definition onMain (cs : list Commit) (bs : list Branch) : GitState :=
  {| commits := cs; branches := bs; tags := [];
     head := {| type := type_branch; ref := "main" |} |}.

Definition PRACTICE_LESSON (w : World) : Lesson :=
  {| lessonId := "practice"; hint := "Try git commit, git branch, git log";
     initialState := INITIAL_STATE w;
     checkSuccess := fun _ => Some false |}.

(** The lessons, in the order of the array. [loadClock] gives the values of
    the calls of [Date.now()] made while the array is built. *)
Definition LESSONS (w : World) (loadClock : nat -> Z) : list Lesson :=
  [ {| lessonId := "1_init"; hint := "git init";
       initialState := emptyRepository;
       checkSuccess := fun _ => Some true |};
    {| lessonId := "2_add"; hint := "git add .";
       initialState := INITIAL_STATE w;
       checkSuccess := fun _ => Some true |};
    {| lessonId := "3_commit"; hint := "git commit -m " ++ quoted "First";
       initialState := INITIAL_STATE w;
       checkSuccess := fun state => Some (1 <? List.length (commits state))%nat |};
    {| lessonId := "4_amend"; hint := "git commit --amend -m " ++ quoted "Corrected";
       initialState :=
         onMain [ root "c1" "Typo!" (loadClock 0) "User" ]
                [ {| name := "main"; commitId := "c1" |} ];
       checkSuccess := fun state =>
         match commits state, branches state with
         | [], _ => Some false
         | _ :: _, [] => None
         | _ :: _, b :: _ =>
             Some (sameValue (option_map message (findCommit state (commitId b)))
                             (Some "Corrected"))
         end |};
    {| lessonId := "5_log"; hint := "git log";
       initialState :=
         onMain [ root "a" "Start" (loadClock 1) "User" ]
                [ {| name := "main"; commitId := "a" |} ];
       checkSuccess := fun _ => Some true |};
    {| lessonId := "6_branch"; hint := "git branch feature";
       initialState := INITIAL_STATE w;
       checkSuccess := fun state =>
         Some (existsb (fun b => name b =? "feature") (branches state)) |};
    {| lessonId := "7_checkout"; hint := "git checkout feature";
       initialState :=
         onMain [ root "init" "Init" (loadClock 2) "User" ]
                [ {| name := "main"; commitId := "init" |};
                  {| name := "feature"; commitId := "init" |} ];
       checkSuccess := fun state => Some (ref (head state) =? "feature") |};
    {| lessonId := "8_ff_merge"; hint := "git checkout main && git merge feature";
       initialState :=
         onMain [ root "1" "Start" 1000 "User"; child "2" "Feature Work" "1" 2000 "User" ]
                [ {| name := "main"; commitId := "1" |};
                  {| name := "feature"; commitId := "2" |} ];
       checkSuccess := fun state =>
         Some (sameValue (commitIdOf (findBranch state "main"))
                         (commitIdOf (findBranch state "feature"))) |};
    {| lessonId := "9_merge"; hint := "git merge feature";
       initialState :=
         onMain [ root "root" "Root" 1000 "User"; child "m1" "Main Fix" "root" 2000 "User";
                  child "f1" "New Feature" "root" 3000 "User" ]
                [ {| name := "main"; commitId := "m1" |};
                  {| name := "feature"; commitId := "f1" |} ];
       checkSuccess := fun state =>
         Some (existsb (fun c => match secondParentId c with Some _ => true | None => false end)
                       (commits state)) |};
    {| lessonId := "10_tag"; hint := "git tag v1.0";
       initialState := INITIAL_STATE w;
       checkSuccess := fun state => Some (0 <? List.length (tags state))%nat |};
    {| lessonId := "11_detached"; hint := "git checkout root";
       initialState :=
         onMain [ root "root" "Root" 1000 "User"; child "curr" "Current" "root" 2000 "User" ]
                [ {| name := "main"; commitId := "curr" |} ];
       checkSuccess := fun state =>
         Some (negb (isBranch (type (head state))) && (ref (head state) =? "root")) |};
    {| lessonId := "12_remote";
       hint := "git remote add origin https://github.com/user/repo.git";
       initialState := INITIAL_STATE w;
       checkSuccess := fun _ => Some true |};
    {| lessonId := "13_clone"; hint := "git clone https://github.com/demo/repo";
       initialState := emptyRepository;
       checkSuccess := fun state => Some (0 <? List.length (commits state))%nat |};
    {| lessonId := "14_push"; hint := "git push";
       initialState :=
         onMain [ root "1" "Shared" 1000 "Origin"; child "2" "My Work" "1" 2000 "User" ]
                [ {| name := "main"; commitId := "2" |};
                  {| name := "origin/main"; commitId := "1" |} ];
       checkSuccess := fun state =>
         Some (sameValue (commitIdOf (findBranch state "main"))
                         (commitIdOf (findBranch state "origin/main"))) |};
    {| lessonId := "15_fetch"; hint := "git fetch";
       initialState :=
         onMain [ root "1" "Init" 1000 "Origin" ]
                [ {| name := "main"; commitId := "1" |};
                  {| name := "origin/main"; commitId := "1" |} ];
       checkSuccess := fun state =>
         Some (negb (sameValue (commitIdOf (findBranch state "main"))
                               (commitIdOf (findBranch state "origin/main")))) |};
    {| lessonId := "16_pull"; hint := "git pull";
       initialState :=
         onMain [ root "1" "Init" 1000 "Origin" ]
                [ {| name := "main"; commitId := "1" |};
                  {| name := "origin/main"; commitId := "1" |} ];
       checkSuccess := fun state =>
         Some ((1 <? List.length (commits state))%nat
               && existsb (fun c => message c =? "Remote update") (commits state)) |};
    {| lessonId := "20_publish";
       hint := "git remote add origin https://... && git push -u origin main";
       initialState :=
         onMain [ root "init" "Project Start" (loadClock 3) "User" ]
                [ {| name := "main"; commitId := "init" |} ];
       checkSuccess := fun state =>
         Some (existsb (fun b => name b =? "origin/main") (branches state)) |};
    {| lessonId := "21_feature_cycle";
       hint := "git checkout -b new-login && git commit -m " ++ quoted "Add login"
               ++ " && git push -u origin new-login";
       initialState :=
         onMain [ root "start" "App v1.0" 1000 "Origin" ]
                [ {| name := "main"; commitId := "start" |};
                  {| name := "origin/main"; commitId := "start" |} ];
       checkSuccess := fun state =>
         Some match findBranch state "new-login", findBranch state "origin/new-login" with
              | Some local, Some remote =>
                  (1 <? List.length (commits state))%nat
                  && (commitId local =? commitId remote)
              | _, _ => false
              end |};
    {| lessonId := "22_hotfix";
       hint := "git checkout main && git checkout -b hotfix-v1 && git commit -m "
               ++ quoted "Fix bug" ++ " && git checkout main && git merge hotfix-v1";
       initialState :=
         {| commits := [ root "v1" "Release v1.0" 1000 "User";
                         child "wip" "Half-done feature" "v1" 2000 "User" ];
            branches := [ {| name := "main"; commitId := "v1" |};
                          {| name := "feature"; commitId := "wip" |} ];
            tags := [];
            head := {| type := type_branch; ref := "feature" |} |};
       checkSuccess := fun state =>
         let main := findBranch state "main" in
         let tip :=
           match main with
           | Some b => findCommit state (commitId b)
           | None => None
           end in
         Some ((match tip with
                | Some c => strIncludes (message c) "Merge"
                | None => false
                end)
               || (negb (sameValue (commitIdOf main) (Some "v1"))
                   && negb (sameValue (commitIdOf main) (Some "wip")))) |};
    {| lessonId := "23_terminal_push";
       hint := "git remote add origin https://gh.com/me/repo.git && git branch -M main"
               ++ " && git push -u origin main";
       initialState :=
         {| commits := [ root "init" "Final v1 code" 1000 "User" ];
            branches := [ {| name := "master"; commitId := "init" |} ];
            tags := [];
            head := {| type := type_branch; ref := "master" |} |};
       checkSuccess := fun state =>
         Some (existsb (fun b => name b =? "origin/main") (branches state)
               && existsb (fun b => name b =? "main") (branches state)
               && negb (existsb (fun b => name b =? "master") (branches state))) |};
    {| lessonId := "17_reset"; hint := "git reset --hard HEAD~1";
       initialState :=
         onMain [ root "good" "Good" 1000 "User"; child "bad" "Bad" "good" 2000 "User" ]
                [ {| name := "main"; commitId := "bad" |} ];
       checkSuccess := fun state =>
         Some (sameValue (commitIdOf (findBranch state "main")) (Some "good")) |};
    {| lessonId := "18_revert"; hint := "git revert bug";
       initialState :=
         onMain [ root "init" "Init" 1000 "User"; child "bug" "Bug" "init" 2000 "User" ]
                [ {| name := "main"; commitId := "bug" |} ];
       checkSuccess := fun state =>
         Some match commits state with
              | [_; _; c] => strIncludes (message c) "Revert"
              | _ => false
              end |};
    {| lessonId := "19_cherry"; hint := "git checkout main && git cherry-pick feat";
       initialState :=
         {| commits := [ root "root" "Root" 1000 "User"; child "m1" "Main" "root" 2000 "User";
                         child "feat" "Good Feature" "root" 3000 "User" ];
            branches := [ {| name := "main"; commitId := "m1" |};
                          {| name := "feature"; commitId := "feat" |} ];
            tags := [];
            head := {| type := type_branch; ref := "feature" |} |};
       checkSuccess := fun state =>
         let tip :=
           match findBranch state "main" with
           | Some b => findCommit state (commitId b)
           | None => None
           end in
         Some (sameValue (option_map message tip) (Some "Good Feature")) |} ].

(* ================================================================== *)
(** ** Accounts and progress (the authentication part of [gitLogic.ts]) *)
(* ================================================================== *)

(** A user record. [avatarName] is [None] for a record written before the
    property existed. The numbers are the finite values that survive
    [JSON.stringify] and [JSON.parse] unchanged. *)
Record User := mkUser {
  email : string;
  avatarName : option string;
  currentLessonIdx : Z;
  unlockedLessonIdx : Z;
  totalTimeSpent : Z;
  lastLogin : Z;
  createdAt : Z
}.

(** [Map<string, User>]: the entries in insertion order. *)
Definition UserMap : Type := list (string * User).

(** [users.get(k)]. *)
Definition mapGet (k : string) (users : UserMap) : option User :=
  match find (fun e => fst e =? k) users with
  | Some e => Some (snd e)
  | None => None
  end.

(** [users.has(k)]. *)
Definition mapHas (k : string) (users : UserMap) : bool :=
  match mapGet k users with Some _ => true | None => false end.

(** [users.set(k, v)]: a key that is present keeps its place. *)
Fixpoint mapSet (k : string) (v : User) (users : UserMap) : UserMap :=
  match users with
  | [] => [(k, v)]
  | e :: rest => if fst e =? k then (k, v) :: rest else e :: mapSet k v rest
  end.

(** [new Map(entries)]. *)
Definition newMap (entries : list (string * User)) : UserMap :=
  fold_left (fun users e => mapSet (fst e) (snd e) users) entries [].

(** What the item 'gitjourney-users' holds, as [JSON.parse] and the [Map]
    constructor see it: [Garbled] is a string that one of them rejects (or
    the empty string), [Entries] an array of pairs of an email and a user
    record. *)
Inductive UsersItem : Type :=
| Garbled
| Entries (entries : list (string * User)).

(** The two items of [localStorage] that the module reads and writes;
    [None] is a missing item. *)
Record LocalStorage := mkLocalStorage {
  usersItem : option UsersItem;
  currentUserItem : option string
}.

Definition getUsers (ls : LocalStorage) : UserMap :=
  match usersItem ls with
  | Some (Entries entries) => newMap entries
  | Some Garbled => []
  | None => []
  end.

Definition saveUsers (users : UserMap) (ls : LocalStorage) : LocalStorage :=
  {| usersItem := Some (Entries users); currentUserItem := currentUserItem ls |}.

Definition setCurrentUser (e : option string) (ls : LocalStorage) : LocalStorage :=
  if JS.truthy e
  then {| usersItem := usersItem ls; currentUserItem := e |}
  else {| usersItem := usersItem ls; currentUserItem := None |}.

(** [email.split('@')[0]]. *)
Definition localPart (e : string) : string :=
  nth 0 (JS.split "@" e) EmptyString.

Definition withAvatarName (user : User) (a : string) : User :=
  {| email := email user; avatarName := Some a;
     currentLessonIdx := currentLessonIdx user;
     unlockedLessonIdx := unlockedLessonIdx user;
     totalTimeSpent := totalTimeSpent user;
     lastLogin := lastLogin user; createdAt := createdAt user |}.

Definition withLastLogin (user : User) (t : Z) : User :=
  {| email := email user; avatarName := avatarName user;
     currentLessonIdx := currentLessonIdx user;
     unlockedLessonIdx := unlockedLessonIdx user;
     totalTimeSpent := totalTimeSpent user;
     lastLogin := t; createdAt := createdAt user |}.

(** [getCurrentUser]: the user, and the storage after the call (the
    migration of a record without avatar name writes). *)
Definition getCurrentUser (ls : LocalStorage) : option User * LocalStorage :=
  match currentUserItem ls with
  | None => (None, ls)
  | Some e =>
      if negb (JS.truthyS e) then (None, ls) else
      let users := getUsers ls in
      match mapGet e users with
      | Some user =>
          if negb (JS.truthy (avatarName user)) then
            let user := withAvatarName user (localPart e) in
            (Some user, saveUsers (mapSet e user users) ls)
          else (Some user, ls)
      | None => (None, ls)
      end
  end.

(** What [signUp] does: it returns the new user, or throws. *)
Inductive SignedUp : Type :=
| Registered (user : User) (ls : LocalStorage)
| Rejected (error : string).

Definition signUp (w : World) (e : string) (a : option string) (ls : LocalStorage)
  : SignedUp :=
  let users := getUsers ls in
  if mapHas e users then Rejected "User already exists" else
  let newUser :=
    {| email := e;
       avatarName := Some (if JS.truthy a then JS.show a else localPart e);
       currentLessonIdx := 0; unlockedLessonIdx := 0; totalTimeSpent := 0;
       lastLogin := Date_now w 0; createdAt := Date_now w 1 |} in
  Registered newUser (setCurrentUser (Some e) (saveUsers (mapSet e newUser users) ls)).

Definition signIn (w : World) (e : string) (ls : LocalStorage)
  : option User * LocalStorage :=
  let users := getUsers ls in
  match mapGet e users with
  | None => (None, ls)
  | Some user =>
      let user := withLastLogin user (Date_now w 0) in
      (Some user, setCurrentUser (Some e) (saveUsers (mapSet e user users) ls))
  end.

Definition signOut (ls : LocalStorage) : LocalStorage := setCurrentUser None ls.

(** The [updates] argument: a property that is missing is [None]. *)
Record Updates := mkUpdates {
  newCurrentLessonIdx : option Z;
  newUnlockedLessonIdx : option Z;
  newTotalTimeSpent : option Z
}.

Definition orKeep (o : option Z) (old : Z) : Z :=
  match o with Some v => v | None => old end.

(** [Object.assign(user, updates)]. *)
Definition assign (user : User) (updates : Updates) : User :=
  {| email := email user; avatarName := avatarName user;
     currentLessonIdx := orKeep (newCurrentLessonIdx updates) (currentLessonIdx user);
     unlockedLessonIdx := orKeep (newUnlockedLessonIdx updates) (unlockedLessonIdx user);
     totalTimeSpent := orKeep (newTotalTimeSpent updates) (totalTimeSpent user);
     lastLogin := lastLogin user; createdAt := createdAt user |}.

Definition updateUserProgress (e : string) (updates : Updates) (ls : LocalStorage)
  : option User * LocalStorage :=
  let users := getUsers ls in
  match mapGet e users with
  | None => (None, ls)
  | Some user =>
      let user := assign user updates in
      (Some user, saveUsers (mapSet e user users) ls)
  end.

Definition saveProgress (current unlocked spent : Z) (ls : LocalStorage)
  : LocalStorage :=
  let '(currentUser, ls) := getCurrentUser ls in
  match currentUser with
  | None => ls
  | Some currentUser =>
      snd (updateUserProgress (email currentUser)
             {| newCurrentLessonIdx := Some current;
                newUnlockedLessonIdx := Some unlocked;
                newTotalTimeSpent := Some spent |} ls)
  end.

Definition loadProgress (ls : LocalStorage) : option (Z * Z * Z) * LocalStorage :=
  let '(currentUser, ls) := getCurrentUser ls in
  match currentUser with
  | None => (None, ls)
  | Some currentUser =>
      (Some (currentLessonIdx currentUser, unlockedLessonIdx currentUser,
             totalTimeSpent currentUser), ls)
  end.

(* ================================================================== *)
(** ** The layout of the commit graph ([GitCanvas.tsx]) *)
(* ================================================================== *)

Module GitCanvas.

Definition ROW_HEIGHT : Z := 60.
Definition LANE_WIDTH : Z := 40.
Definition PADDING_TOP : Z := 60.
Definition PADDING_LEFT : Z := 40.

Definition DARK_LANE_COLORS : list string :=
  ["#a855f7"; "#f472b6"; "#2dd4bf"; "#fbbf24"; "#38bdf8"; "#818cf8"].

Definition LIGHT_LANE_COLORS : list string :=
  ["#9333ea"; "#db2777"; "#0d9488"; "#d97706"; "#0284c7"; "#4f46e5"].

(** [Map<string, number>]. *)
Definition NumMap : Type := list (string * nat).

Definition numGet (k : string) (m : NumMap) : option nat :=
  match find (fun e => fst e =? k) m with
  | Some e => Some (snd e)
  | None => None
  end.

Definition numHas (k : string) (m : NumMap) : bool :=
  match numGet k m with Some _ => true | None => false end.

Fixpoint numSet (k : string) (v : nat) (m : NumMap) : NumMap :=
  match m with
  | [] => [(k, v)]
  | e :: rest => if fst e =? k then (k, v) :: rest else e :: numSet k v rest
  end.

(** A node of the drawing: the commit with its place, its colour and its
    labels (the fields x, y, lane, color, refs and tags of the source). *)
Record GraphNode := mkGraphNode {
  node_commit : Commit;
  node_x : Z;
  node_y : Z;
  node_lane : nat;
  node_color : string;
  node_refs : list string;
  node_tags : list string
}.

(** A link from a commit to one of its parents (the fields id, d, color,
    isMerge, source and target of the source). *)
Record GraphLink := mkGraphLink {
  link_id : string;
  link_d : string;
  link_color : string;
  link_isMerge : bool;
  link_source : string;
  link_target : string
}.

Record Layout := mkLayout {
  nodes : list GraphNode;
  links : list GraphLink;
  height : Z;
  width : Z;
  maxLane : nat
}.

(** The lanes of the branches: main, if there is one, gets lane 0, and every
    other branch name the next free lane; the counter is [laneCounter]. *)
Definition laneOfBranch (acc : NumMap * nat) (b : Branch) : NumMap * nat :=
  let '(branchLanes, laneCounter) := acc in
  if negb (name b =? "main") && negb (numHas (name b) branchLanes)
  then (numSet (name b) laneCounter branchLanes, S laneCounter)
  else acc.

Definition assignLanes (gitState : GitState) : NumMap * nat :=
  fold_left laneOfBranch (branches gitState)
    match findBranch gitState "main" with
    | Some _ => ([("main", 0)], 1)
    | None => ([], 0)
    end.

(** What the calls of [trace] share: the set [visited] and the map
    [history] from commit identifiers to lanes. *)
Record Traced := mkTraced {
  visited : list string;
  history : NumMap
}.

Inductive TraceStep : Type :=
| Return (t : Traced)
| Next (queue : list string) (t : Traced).

Definition isZero (o : option nat) : bool :=
  match o with Some O => true | _ => false end.

(** One iteration of the [while] loop of [trace]. On an identifier that was
    visited before, the function returns if its lane is 0, and otherwise
    goes on, after moving it to lane 0 if that is the lane being traced. *)
Definition trace_step (gitState : GitState) (lane : nat) (queue : list string)
    (t : Traced) : TraceStep :=
  match queue with
  | [] => Return t
  | currId :: queue' =>
      if has (visited t) currId then
        if isZero (numGet currId (history t)) then Return t
        else
          Next queue'
               {| visited := visited t;
                  history := if (lane =? 0)%nat then numSet currId 0 (history t)
                             else history t |}
      else
        let t' := {| visited := currId :: visited t;
                     history := numSet currId lane (history t) |} in
        match findCommit gitState currId with
        | Some c =>
            Next (queue' ++ pushIf (parentId c) ++ pushIf (secondParentId c))%list t'
        | None => Next queue' t'
        end
  end.

(** The loop, one unit of fuel per iteration. *)
Fixpoint trace_loop (fuel : nat) (gitState : GitState) (lane : nat)
    (queue : list string) (t : Traced) : option Traced :=
  match fuel with
  | O => None
  | S fuel' =>
      match trace_step gitState lane queue t with
      | Return t' => Some t'
      | Next queue' t' => trace_loop fuel' gitState lane queue' t'
      end
  end.

Definition trace_fuel (gitState : GitState) : nat :=
  2 * List.length (commits gitState) + 2.

Definition trace (gitState : GitState) (commitId : string) (lane : nat) (t : Traced)
  : option Traced :=
  trace_loop (trace_fuel gitState) gitState lane [commitId] t.

(** [branchLanes.get(b.name)!]: the loop of [assignLanes] has given a lane
    to the name of every branch but main. *)
Definition laneGiven (branchLanes : NumMap) (b : Branch) : nat :=
  match numGet (name b) branchLanes with Some l => l | None => O end.

(** The calls of [trace]: for main first, then for the other branches in
    the order of the list. *)
Definition traceAll (gitState : GitState) (branchLanes : NumMap) : option Traced :=
  fold_left
    (fun acc b =>
       match acc with
       | Some t =>
           if negb (name b =? "main")
           then trace gitState (commitId b) (laneGiven branchLanes b) t
           else Some t
       | None => None
       end)
    (branches gitState)
    match findBranch gitState "main" with
    | Some mainBranch => trace gitState (commitId mainBranch) 0 {| visited := []; history := [] |}
    | None => Some {| visited := []; history := [] |}
    end.

(** Commits that no branch leads to go to the lane after the last one. *)
Definition placeRest (sortedCommits : list Commit) (laneCounter : nat) (t : Traced)
  : NumMap :=
  fold_left
    (fun h c => if negb (has (visited t) (id c)) then numSet (id c) laneCounter h else h)
    sortedCommits (history t).

(** [history.get(id) || 0]. *)
Definition laneOf (h : NumMap) (i : string) : nat :=
  match numGet i h with Some l => l | None => O end.

(** A number in a template literal. *)
Definition showNumber (z : Z) : string := NilZero.string_of_int (Z.to_int z).

Definition laneColors (isDarkMode : bool) : list string :=
  if isDarkMode then DARK_LANE_COLORS else LIGHT_LANE_COLORS.

Definition colorOf (isDarkMode : bool) (lane : nat) : string :=
  nth (lane mod List.length (laneColors isDarkMode)) (laneColors isDarkMode) EmptyString.

Definition xOf (lane : nat) : Z := (PADDING_LEFT + Z.of_nat lane * LANE_WIDTH)%Z.
Definition yOf (index : nat) : Z := (PADDING_TOP + Z.of_nat index * ROW_HEIGHT)%Z.

Definition node (isDarkMode : bool) (gitState : GitState) (h : NumMap) (index : nat)
    (commit : Commit) : GraphNode :=
  let lane := laneOf h (id commit) in
  {| node_commit := commit;
     node_x := xOf lane;
     node_y := yOf index;
     node_lane := lane;
     node_color := colorOf isDarkMode lane;
     node_refs :=
       (map name (filter (fun b => commitId b =? id commit) (branches gitState))
        ++ (if negb (isBranch (type (head gitState))) && (ref (head gitState) =? id commit)
            then ["HEAD"] else []))%list;
     node_tags := map name (filter (fun t => commitId t =? id commit) (tags gitState)) |}.

(** [sortedCommits.findIndex(c => c.id === pid)]; -1 when there is none. *)
Fixpoint findIndex (pid : string) (l : list Commit) : Z :=
  match l with
  | [] => (-1)%Z
  | c :: l' =>
      if id c =? pid then 0%Z
      else match findIndex pid l' with
           | Zneg _ => (-1)%Z
           | i => (i + 1)%Z
           end
  end.

(** The link to the parent number [i] (0 for the first, 1 for the second)
    of a commit, if the commit has that parent and the parent is drawn. *)
Definition link (isDarkMode : bool) (sortedCommits : list Commit) (h : NumMap)
    (index : nat) (commit : Commit) (pid : option string) (i : nat) : list GraphLink :=
  match pid with
  | None => []
  | Some pid =>
      if negb (JS.truthyS pid) then [] else
      match find (fun c => id c =? pid) sortedCommits with
      | None => []
      | Some _ =>
          let lane := laneOf h (id commit) in
          let x := xOf lane in
          let y := yOf index in
          let parentIndex := findIndex pid sortedCommits in
          let parentLane := laneOf h pid in
          let px := xOf parentLane in
          let py := (PADDING_TOP + parentIndex * ROW_HEIGHT)%Z in
          let cp1y := (y + 36)%Z in
          let cp2y := (py - 36)%Z in
          [ {| link_id := id commit ++ "-" ++ pid;
               link_d := "M " ++ showNumber x ++ " " ++ showNumber y
                         ++ " C " ++ showNumber x ++ " " ++ showNumber cp1y
                         ++ ", " ++ showNumber px ++ " " ++ showNumber cp2y
                         ++ ", " ++ showNumber px ++ " " ++ showNumber py;
               link_color :=
                 if (i =? 1)%nat then (if isDarkMode then "#475569" else "#94a3b8")
                 else colorOf isDarkMode lane;
               link_isMerge := (i =? 1)%nat;
               link_source := id commit;
               link_target := pid |} ]
      end
  end.

(** The [forEach] over the sorted commits, from row [index] on. *)
Fixpoint draw (isDarkMode : bool) (gitState : GitState) (sortedCommits : list Commit)
    (h : NumMap) (index : nat) (rest : list Commit)
  : list GraphNode * list GraphLink :=
  match rest with
  | [] => ([], [])
  | commit :: rest' =>
      let '(ns, ls) := draw isDarkMode gitState sortedCommits h (S index) rest' in
      (node isDarkMode gitState h index commit :: ns,
       (link isDarkMode sortedCommits h index commit (parentId commit) 0
        ++ link isDarkMode sortedCommits h index commit (secondParentId commit) 1
        ++ ls)%list)
  end.

(** The layout computed by the component; [None] when a call of [trace]
    runs out of fuel. *)
Definition layout (isDarkMode : bool) (gitState : GitState) : option Layout :=
  match commits gitState with
  | [] => Some {| nodes := []; links := []; height := 300; width := 300; maxLane := 0 |}
  | _ :: _ =>
      let sortedCommits := sortNewestFirst (commits gitState) in
      let '(branchLanes, laneCounter) := assignLanes gitState in
      match traceAll gitState branchLanes with
      | None => None
      | Some t =>
          let h := placeRest sortedCommits laneCounter t in
          let '(ns, ls) := draw isDarkMode gitState sortedCommits h 0 sortedCommits in
          let maxL := fold_left Nat.max (map snd h) laneCounter in
          Some {| nodes := ns; links := ls;
                  height := (PADDING_TOP + Z.of_nat (List.length ns) * ROW_HEIGHT + 100)%Z;
                  width := (PADDING_LEFT + Z.of_nat maxL * LANE_WIDTH + 100)%Z;
                  maxLane := maxL |}
      end
  end.

End GitCanvas.

(* ================================================================== *)
(** ** Vocabulary of the statements *)
(* ================================================================== *)

(** *** The commit graph *)

(** [p] is a parent, first or second, of the commit that [x] names. *)
Definition parentEdge (state : GitState) (x p : string) : Prop :=
  exists c,
    findCommit state x = Some c
    /\ (parentId c = Some p \/ secondParentId c = Some p)
    /\ JS.truthyS p = true.

(** [y] is reached from [x] along parent edges: [y] is an ancestor of [x],
    and [x] a descendant of [y]. *)
Inductive reaches (state : GitState) (x : string) : string -> Prop :=
| reaches_here : reaches state x x
| reaches_parent (y z : string) :
    reaches state x y -> parentEdge state y z -> reaches state x z.

(** The first-parent edges form no cycle: they go down along a rank. *)
Definition firstParentAcyclic (state : GitState) : Prop :=
  exists rank : string -> nat,
    forall x p, parentOf state x = Some p -> JS.truthyS p = true -> rank p < rank x.

(** [p] is the first parent of the commit that [x] names. *)
Definition firstParentEdge (state : GitState) (x p : string) : Prop :=
  exists c,
    findCommit state x = Some c /\ parentId c = Some p /\ JS.truthyS p = true.

(** The first-parent chain of [start]: [start] itself, when it is not the
    empty string, then its first parent, the first parent of that one, and
    so on. *)
Inductive firstParentChain (state : GitState) (start : string) : string -> Prop :=
| chain_start : JS.truthyS start = true -> firstParentChain state start start
| chain_next (y z : string) :
    firstParentChain state start y -> firstParentEdge state y z ->
    firstParentChain state start z.

(** The commits that a rebase of [tip] onto [baseId] has to replay: those
    on the first-parent chain of the tip that are not on the first-parent
    chain of the base. *)
Definition toReplay (state : GitState) (baseId tip : string) (c : Commit) : Prop :=
  exists x,
    firstParentChain state tip x
    /\ ~ firstParentChain state baseId x
    /\ findCommit state x = Some c.

(** A list of commits from the oldest to the newest: each one is the first
    parent of the one after it. *)
Definition oldestFirst (l : list Commit) : Prop :=
  forall l1 c d l2, l = (l1 ++ c :: d :: l2)%list -> parentId d = Some (id c).

(** The sums that date [K] new commits are exact, on doubles as on
    integers: the timestamps of the snapshot and the first [K] readings of
    the clock are integers of magnitude at most 2^53, and stay so when
    2000 and [K] are added. *)
Definition sumsExact (w : World) (state : GitState) (K : nat) : Prop :=
  (forall c, In c (commits state) ->
     (- JS.exactBound <= timestamp c
      /\ timestamp c + 2000 + Z.of_nat K <= JS.exactBound)%Z)
  /\ (forall k, k < K ->
       (- JS.exactBound <= Date_now w k
        /\ Date_now w k + Z.of_nat K <= JS.exactBound)%Z).

(** HEAD names a branch of the snapshot. *)
Definition attachedToBranch (state : GitState) : Prop :=
  type (head state) = type_branch
  /\ In (ref (head state)) (map name (branches state)).

(** The name [remoteName] of the push handler. *)
Definition remoteName (state : GitState) : string :=
  "origin/" ++ ref (head state).

(** *** The loop of the ancestry test *)

(** Commit identifiers that the visited set does not hold yet. *)
Definition unvisited (state : GitState) (visited : list string) : list string :=
  filter (fun x => negb (has visited x)) (map id (commits state)).

(** The quantity that every iteration decreases: the queue shrinks by one
    and grows by at most two, and it grows only when an identifier of the
    commit list is visited for the first time. *)
Definition potential (state : GitState) (queue visited : list string) : nat :=
  List.length queue + 2 * List.length (unvisited state visited).

Definition seen (queue visited : list string) (y : string) : Prop :=
  In y queue \/ In y visited.

(** What holds of the queue and of the visited set at every iteration:
    they hold only identifiers reached from the descendant; the parents of
    a visited identifier are in one of them; so is the descendant; and the
    candidate is not visited. *)
Definition loopInvariant (state : GitState) (ancestorId descendantId : string)
    (queue visited : list string) : Prop :=
  (forall y, seen queue visited y -> reaches state descendantId y)
  /\ (forall x p, In x visited -> parentEdge state x p -> seen queue visited p)
  /\ seen queue visited descendantId
  /\ ~ In ancestorId visited.

(** *** Reference resolution *)

(** [x] is the first element of [l] that satisfies [p]. *)
Definition firstWhere {A} (p : A -> bool) (l : list A) (x : A) : Prop :=
  exists pre post,
    l = (pre ++ x :: post)%list /\ p x = true /\ forall y, In y pre -> p y = false.

Definition noneWhere {A} (p : A -> bool) (l : list A) : Prop :=
  forall y, In y l -> p y = false.

Definition named (tok : string) (b : Branch) : bool := name b =? tok.

Definition hasPrefix (tok : string) (c : Commit) : bool := JS.startsWith (id c) tok.

(** The prefix match of the specification: the token is a prefix of one
    commit identifier only. *)
Definition uniquePrefix (state : GitState) (tok : string) : option string :=
  match nodup string_dec (map id (filter (hasPrefix tok) (commits state))) with
  | [x] => Some x
  | _ => None
  end.

(** Resolution as the specification words it, to be compared with
    [resolveRef]: branch name, tag name, exact commit identifier and
    otherwise a unique prefix, the literal HEAD. *)
Definition resolveRef_spec (state : GitState) (tok : string) : option string :=
  match findBranch state tok with
  | Some b => Some (commitId b)
  | None =>
      match findTag state tok with
      | Some t => Some (commitId t)
      | None =>
          match findCommit state tok with
          | Some c => Some (id c)
          | None =>
              match uniquePrefix state tok with
              | Some x => Some x
              | None => if tok =? "HEAD" then Some (getHeadCommitId state) else None
              end
          end
      end
  end.

(** *** Walks along first parents *)

(** The identifier a walk tests next, when the walk goes on. *)
Definition live (curr : option string) : option string :=
  match curr with
  | Some x => if JS.truthyS x then Some x else None
  | None => None
  end.

(** The identifiers that a walk from [curr] passes in its first [n]
    iterations. *)
Fixpoint trace (state : GitState) (n : nat) (curr : option string) : list string :=
  match n with
  | O => []
  | S k =>
      match live curr with
      | Some x => x :: trace state k (parentOf state x)
      | None => []
      end
  end.

(** The identifier that passes the loop test: it is truthy and the walk
    does not stop on it. *)
Definition liveS (stop : string -> bool) (curr : option string) : option string :=
  match curr with
  | Some x => if JS.truthyS x && negb (stop x) then Some x else None
  | None => None
  end.

(** The identifier that passes the test number [k] (counted from 0) of a
    walk from [curr]; [None] when the walk has ended by then. *)
Fixpoint walkTo (state : GitState) (stop : string -> bool) (k : nat)
    (curr : option string) : option string :=
  match k with
  | O => liveS stop curr
  | S k' =>
      match liveS stop curr with
      | Some x => walkTo state stop k' (parentOf state x)
      | None => None
      end
  end.

(** The identifier that passes test [k], or the empty string. *)
Definition passed (state : GitState) (stop : string -> bool) (curr : option string)
    (k : nat) : string :=
  match walkTo state stop k curr with
  | Some x => x
  | None => EmptyString
  end.

(** The timestamp that a rebase gives to copy number [k]. *)
Definition replayTime (w : World) (state : GitState) (k : nat) : Z :=
  JS.plus (getNextTimestamp w k state) (Z.of_nat k).

(** *** Runs of the engine *)

(** The snapshots that commands lead to from the initial one. *)
Inductive reachable : GitState -> Prop :=
| reachable_initial (w : World) : reachable (INITIAL_STATE w)
| reachable_step (w : World) (command : string) (state : GitState) (result : Result) :
    reachable state ->
    executeGitCommand w command state = Returns result ->
    reachable (newState result).

(** The tags of [state] are still there, in place, in [state'], unless
    [state'] has no tag at all. *)
Definition tagsKept (state state' : GitState) : Prop :=
  (exists extra, tags state' = (tags state ++ extra)%list) \/ tags state' = [].

(** The working snapshot and the outputs after commands that all succeed;
    [None] when one of them does not. *)
Fixpoint succeedAll (ws : nat -> World) (i : nat) (commands : list string)
    (state : GitState) (allOutputs : list string) : option (GitState * list string) :=
  match commands with
  | [] => Some (state, allOutputs)
  | singleCmd :: rest =>
      match executeGitCommand (ws i) singleCmd state with
      | Returns result =>
          if success result
          then succeedAll ws (S i) rest (newState result) (allOutputs ++ [output result])%list
          else None
      | _ => None
      end
  end.

(* ================================================================== *)
(** ** A world and snapshots for the examples *)
(* ================================================================== *)

(** Identifiers id0..., id1... and so on, and a clock that starts at one
    million and ticks once per reading. *)
Definition w0 : World :=
  {| uuidv4 := fun n => "id" ++ String (ascii_of_nat (48 + n)) "-0000-0000";
     Date_now := fun n => (1000000 + Z.of_nat n)%Z;
     toLocaleTimeString := fun _ => "12:00:00";
     loadTime := 5%Z |}.

Definition plainCommit (i : string) (p : option string) (t : Z) : Commit :=
  {| id := i; message := i; parentId := p; secondParentId := None;
     timestamp := t; author := "User" |}.

(** A diamond: [b] and [c] are children of [a], and the merge commit [m]
    has [b] as first and [c] as second parent. *)
Definition diamond : GitState :=
  {| commits :=
       [ {| id := "a"; message := "root"; parentId := None; secondParentId := None;
            timestamp := 1; author := "User" |};
         {| id := "b"; message := "left"; parentId := Some "a"; secondParentId := None;
            timestamp := 2; author := "User" |};
         {| id := "c"; message := "right"; parentId := Some "a"; secondParentId := None;
            timestamp := 3; author := "User" |};
         {| id := "m"; message := "merge"; parentId := Some "b"; secondParentId := Some "c";
            timestamp := 4; author := "User" |} ];
     branches := [ {| name := "main"; commitId := "m" |};
                   {| name := "side"; commitId := "c" |} ];
     tags := [];
     head := {| type := type_branch; ref := "main" |} |}.

(** Two commits that share the prefix abc. *)
Definition ambiguous : GitState :=
  {| commits := [ plainCommit "abc1" None 1; plainCommit "abc2" (Some "abc1") 2 ];
     branches := [ {| name := "main"; commitId := "abc2" |} ];
     tags := [];
     head := {| type := type_branch; ref := "main" |} |}.

(** A commit whose whole identifier is a prefix of an earlier one. *)
Definition shadowed : GitState :=
  {| commits := [ plainCommit "abc1" None 1; plainCommit "abc" (Some "abc1") 2 ];
     branches := [ {| name := "main"; commitId := "abc" |} ];
     tags := [];
     head := {| type := type_branch; ref := "main" |} |}.

(** A branch, a tag and a commit that the token abc can all mean. *)
Definition contested : GitState :=
  {| commits := [ plainCommit "abc1" None 1; plainCommit "abd2" (Some "abc1") 2 ];
     branches := [ {| name := "main"; commitId := "abd2" |};
                   {| name := "abc"; commitId := "abd2" |} ];
     tags := [ {| name := "abc"; commitId := "abc1" |} ];
     head := {| type := type_branch; ref := "main" |} |}.

(** [main] at the root [a], [feature] one commit ahead, HEAD on [main]. *)
Definition behind : GitState :=
  {| commits := [ plainCommit "a" None 1; plainCommit "b" (Some "a") 2 ];
     branches := [ {| name := "main"; commitId := "a" |};
                   {| name := "feature"; commitId := "b" |} ];
     tags := [];
     head := {| type := type_branch; ref := "main" |} |}.

(** [main] at [b] and [side] at [c], both children of the root [a]. *)
Definition forked : GitState :=
  {| commits := [ plainCommit "a" None 1; plainCommit "b" (Some "a") 2;
                  plainCommit "c" (Some "a") 3 ];
     branches := [ {| name := "main"; commitId := "b" |};
                   {| name := "side"; commitId := "c" |} ];
     tags := [];
     head := {| type := type_branch; ref := "main" |} |}.

(** [main] at [b] while origin/main sits on the sibling [c]. *)
Definition diverged : GitState :=
  {| commits := commits forked;
     branches := [ {| name := "main"; commitId := "b" |};
                   {| name := "origin/main"; commitId := "c" |} ];
     tags := [];
     head := {| type := type_branch; ref := "main" |} |}.

(** [main] at [b], one commit ahead of origin/main. *)
Definition aheadOfRemote : GitState :=
  {| commits := commits behind;
     branches := [ {| name := "origin/main"; commitId := "a" |};
                   {| name := "main"; commitId := "b" |} ];
     tags := [];
     head := {| type := type_branch; ref := "main" |} |}.

(** [main] two commits, [b] and [b2], past the root [a]; [side] at [c],
    another child of [a]. *)
Definition twoAhead : GitState :=
  {| commits := [ plainCommit "a" None 1; plainCommit "b" (Some "a") 2;
                  plainCommit "b2" (Some "b") 3; plainCommit "c" (Some "a") 4 ];
     branches := [ {| name := "main"; commitId := "b2" |};
                   {| name := "side"; commitId := "c" |} ];
     tags := [];
     head := {| type := type_branch; ref := "main" |} |}.

(** Two commits, [a] and [b], each the first parent of the other, with
    [main] at [a]; [side] at the root [c]. *)
Definition looped : GitState :=
  {| commits := [ plainCommit "a" (Some "b") 1; plainCommit "b" (Some "a") 2;
                  plainCommit "c" None 3 ];
     branches := [ {| name := "main"; commitId := "a" |};
                   {| name := "side"; commitId := "c" |} ];
     tags := [];
     head := {| type := type_branch; ref := "main" |} |}.

(** A clock that is set back after its first reading. *)
Definition setBack : World :=
  {| uuidv4 := uuidv4 w0;
     Date_now := fun n => match n with O => 1000000%Z | _ => 500000%Z end;
     toLocaleTimeString := toLocaleTimeString w0;
     loadTime := loadTime w0 |}.

(** The snapshot with every commit dated [t]. *)
Definition dated (t : Z) (state : GitState) : GitState :=
  {| commits :=
       map (fun c => {| id := id c; message := message c; parentId := parentId c;
                        secondParentId := secondParentId c;
                        timestamp := t; author := author c |})
           (commits state);
     branches := branches state; tags := tags state; head := head state |}.

(** A rank for the first-parent edges of [twoAhead]. *)
Definition twoAhead_rank (x : string) : nat :=
  if x =? "b2" then 2 else if x =? "a" then 0 else 1.

(* ================================================================== *)
(** ** Vocabulary of the further properties *)
(* ================================================================== *)

(** A string without white space. *)
Fixpoint noSpace (s : string) : bool :=
  match s with
  | EmptyString => true
  | String c s' => negb (JS.isSpace c) && noSpace s'
  end.

(** A word: a non-empty string without white space. *)
Definition isWord (s : string) : Prop := s <> EmptyString /\ noSpace s = true.

(** The last character of a string exists and is no white space. *)
Fixpoint endsInWord (s : string) : bool :=
  match s with
  | EmptyString => false
  | String c EmptyString => negb (JS.isSpace c)
  | String _ s' => endsInWord s'
  end.

(** *** Well-formed snapshots *)

(** The identifiers of the commits of a snapshot. *)
Definition ids (state : GitState) : list string := map id (commits state).

(** The parents that a commit names are among [known]. *)
Definition parentsKnown (known : list string) (c : Commit) : Prop :=
  (forall p, parentId c = Some p -> In p known)
  /\ (forall p, secondParentId c = Some p -> In p known).

(** Branches, or tags, point to identifiers among [known]. *)
Definition refsKnown (known : list string) (bs : list Branch) : Prop :=
  Forall (fun b => In (commitId b) known) bs.

(** An attached HEAD names one of the branches, a detached HEAD holds an
    identifier among [known]. *)
Definition headKnown (known : list string) (bs : list Branch) (h : Head) : Prop :=
  match type h with
  | type_branch => In (ref h) (map name bs)
  | type_commit => In (ref h) known
  end.

(** Nothing in the snapshot dangles: every branch, tag, parent link and
    HEAD leads to a commit of the snapshot. *)
Definition wellFormed (state : GitState) : Prop :=
  refsKnown (ids state) (branches state)
  /\ refsKnown (ids state) (tags state)
  /\ Forall (parentsKnown (ids state)) (commits state)
  /\ headKnown (ids state) (branches state) (head state).

(** *** What commands keep *)

(** The commit list of [state'] is the one of [state] with commits appended. *)
Definition appends (state state' : GitState) : Prop :=
  exists extra, commits state' = (commits state ++ extra)%list.

(** [c'] is [c] up to its message and its timestamp. *)
Definition sameNode (c c' : Commit) : Prop :=
  id c' = id c /\ parentId c' = parentId c
  /\ secondParentId c' = secondParentId c /\ author c' = author c.

(** What a command does to the commits it finds. *)
Definition keeps (command : string) (state state' : GitState) : Prop :=
  List.length (commits state) <= List.length (commits state')
  /\ forall c, In c (commits state) ->
       exists c', In c' (commits state') /\ sameNode c c'
                  /\ (c' = c \/ (eqS (part (tokens command) 1) "commit" = true
                                 /\ JS.includes (tokens command) "--amend" = true)).

(** *** First parents *)


(** *** Order of the log *)

(** [a] is listed before [b] in a log: it is not older. *)
Definition notOlder (a b : Commit) : Prop := (timestamp b <= timestamp a)%Z.

(** The tags of [state'] are those of [state] with tags appended, and every
    branch name of [state] is a branch name of [state']. *)
Definition refsStay (state state' : GitState) : Prop :=
  (exists extra, tags state' = (tags state ++ extra)%list)
  /\ incl (map name (branches state)) (map name (branches state')).

(** *** Accounts *)

(** The keys of a user map. *)
Definition keys (users : UserMap) : list string := map fst users.

(** Every user is filed under its own email. *)
Definition keysMatch (users : UserMap) : Prop :=
  Forall (fun e => email (snd e) = fst e) users.

Definition consistent (ls : LocalStorage) : Prop := keysMatch (getUsers ls).

(** The record that [getCurrentUser] hands out for the record [user] stored
    under [e]. *)
Definition migrated (e : string) (user : User) : User :=
  if negb (JS.truthy (avatarName user)) then withAvatarName user (localPart e)
  else user.

Definition progress (user : User) : Z * Z * Z :=
  (currentLessonIdx user, unlockedLessonIdx user, totalTimeSpent user).

(** The calls of the module, and the storage that a call leaves. *)
Inductive Call : Type :=
| callGetCurrentUser
| callSignUp (e : string) (a : option string)
| callSignIn (e : string)
| callSignOut
| callUpdateUserProgress (e : string) (updates : Updates)
| callSaveProgress (current unlocked spent : Z)
| callLoadProgress.

Definition storageAfter (w : World) (c : Call) (ls : LocalStorage) : LocalStorage :=
  match c with
  | callGetCurrentUser => snd (getCurrentUser ls)
  | callSignUp e a =>
      match signUp w e a ls with
      | Registered _ ls' => ls'
      | Rejected _ => ls
      end
  | callSignIn e => snd (signIn w e ls)
  | callSignOut => signOut ls
  | callUpdateUserProgress e updates => snd (updateUserProgress e updates ls)
  | callSaveProgress current unlocked spent => saveProgress current unlocked spent ls
  | callLoadProgress => snd (loadProgress ls)
  end.

(** A browser that never ran the application. *)
Definition emptyStorage : LocalStorage :=
  {| usersItem := None; currentUserItem := None |}.

Fixpoint storageAfterAll (ws : nat -> World) (i : nat) (calls : list Call)
    (ls : LocalStorage) : LocalStorage :=
  match calls with
  | [] => ls
  | c :: rest => storageAfterAll ws (S i) rest (storageAfter (ws i) c ls)
  end.

(** The storage after a call, as far as the users go: untouched, or one
    entry written with a record filed under its own email. *)
Definition wrote (ls ls' : LocalStorage) : Prop :=
  getUsers ls' = getUsers ls
  \/ exists k v, email v = k /\ getUsers ls' = mapSet k v (getUsers ls).

(** The character of the separator of commands. *)
Definition ampersand : ascii := ascii_of_nat 38.

(** *** Lessons *)

(** The hint of the lesson, typed as one input line on the initial snapshot
    of the lesson, runs through and leaves a snapshot that the check of the
    lesson accepts. *)
Definition solvedBy (ws : nat -> World) (L : Lesson) : Prop :=
  exists p,
    handleCommand ws (hint L) (initialState L) = Done p
    /\ allSuccess p = true
    /\ checkSuccess L (published p) = Some true.

(** The lesson is not solved before anything is typed, unless its check
    accepts every snapshot. *)
Definition needsWork (L : Lesson) : Prop :=
  checkSuccess L (initialState L) = Some false
  \/ forall state, checkSuccess L state = Some true.

(** *** The drawing *)

(** The identifier [tip] was traced and is on lane 0. *)
Definition onLaneZero (tip : string) (t : GitCanvas.Traced) : Prop :=
  In tip (GitCanvas.visited t)
  /\ GitCanvas.numGet tip (GitCanvas.history t) = Some 0.

(* ================================================================== *)
(** ** Properties of the repository model *)
(* ================================================================== *)

Section Lookup.

Variable state : GitState.

Lemma has_In (v : list string) (x : string) : has v x = true <-> In x v.
Proof.
  unfold has. rewrite existsb_exists. split.
  - intros [y [Hy E]]. apply String.eqb_eq in E. now subst.
  - intros H. exists x. split; [assumption | apply String.eqb_refl].
Qed.

Lemma has_false (v : list string) (x : string) : has v x = false <-> ~ In x v.
Proof.
  rewrite <- has_In. destruct (has v x); split; intros; congruence.
Qed.

Lemma findCommit_Some (x : string) (c : Commit) :
  findCommit state x = Some c -> id c = x /\ In c (commits state).
Proof.
  unfold findCommit. intros H. apply find_some in H. destruct H as [Hin E].
  apply String.eqb_eq in E. now split.
Qed.

Lemma findBranch_Some (x : string) (b : Branch) :
  findBranch state x = Some b -> name b = x /\ In b (branches state).
Proof.
  unfold findBranch. intros H. apply find_some in H. destruct H as [Hin E].
  apply String.eqb_eq in E. now split.
Qed.

Lemma findBranch_None (x : string) :
  findBranch state x = None <-> ~ In x (map name (branches state)).
Proof.
  unfold findBranch. split.
  - intros H Hin. apply in_map_iff in Hin. destruct Hin as [b [E Hb]].
    apply (find_none _ _ H) in Hb. rewrite E, String.eqb_refl in Hb. discriminate.
  - intros H. destruct (find _ _) eqn:F; [|reflexivity].
    apply find_some in F. destruct F as [Hin E]. apply String.eqb_eq in E.
    exfalso. apply H. apply in_map_iff. now exists b.
Qed.

End Lookup.

(** *** Termination of the ancestry loop *)

Section AncestryLoop.

Variable state : GitState.
Variable ancestorId : string.

Lemma filter_length_le {A} (f g : A -> bool) (l : list A) :
  (forall y, f y = true -> g y = true) ->
  List.length (filter f l) <= List.length (filter g l).
Proof.
  intros Hfg. induction l as [|a l IH]; simpl; [lia|].
  destruct (f a) eqn:Fa.
  - rewrite (Hfg _ Fa). simpl. lia.
  - destruct (g a); simpl; lia.
Qed.

Lemma filter_length_lt {A} (f g : A -> bool) (l : list A) (x : A) :
  (forall y, f y = true -> g y = true) ->
  In x l -> g x = true -> f x = false ->
  List.length (filter f l) < List.length (filter g l).
Proof.
  intros Hfg Hin Gx Fx. induction l as [|a l IH]; simpl; [contradiction|].
  destruct Hin as [-> | Hin].
  - rewrite Gx, Fx. simpl. pose proof (filter_length_le f g l Hfg). lia.
  - specialize (IH Hin). destruct (f a) eqn:Fa.
    + rewrite (Hfg _ Fa). simpl. lia.
    + destruct (g a); simpl; lia.
Qed.

Lemma unvisited_cons_le (visited : list string) (x : string) :
  List.length (unvisited state (x :: visited)) <= List.length (unvisited state visited).
Proof.
  apply filter_length_le. intros y. simpl.
  destruct (y =? x); simpl; [discriminate | trivial].
Qed.

Lemma unvisited_cons_lt (visited : list string) (x : string) :
  In x (map id (commits state)) -> has visited x = false ->
  List.length (unvisited state (x :: visited)) < List.length (unvisited state visited).
Proof.
  intros Hin Hx. apply filter_length_lt with (x := x).
  - intros y. simpl. destruct (y =? x); simpl; [discriminate | trivial].
  - assumption.
  - now rewrite Hx.
  - simpl. now rewrite String.eqb_refl.
Qed.

Lemma pushIf_length (o : option string) : List.length (pushIf o) <= 1.
Proof.
  destruct o as [p|]; simpl; [destruct (JS.truthyS p); simpl; lia | lia].
Qed.

Lemma isAncestor_step_potential (queue visited queue' visited' : list string) :
  isAncestor_step state ancestorId queue visited = Continue queue' visited' ->
  potential state queue' visited' < potential state queue visited.
Proof.
  unfold isAncestor_step, potential.
  destruct queue as [|curr q]; [discriminate|].
  destruct (has visited curr) eqn:Hv.
  - intros E. injection E as <- <-. simpl. lia.
  - destruct (curr =? ancestorId); [discriminate|].
    destruct (findCommit state curr) as [c|] eqn:F; intros E; injection E as <- <-.
    + apply findCommit_Some in F. destruct F as [Eid Hin].
      assert (In curr (map id (commits state))) as Hc
        by (rewrite <- Eid; now apply in_map).
      pose proof (unvisited_cons_lt visited curr Hc Hv).
      pose proof (pushIf_length (parentId c)).
      pose proof (pushIf_length (secondParentId c)).
      rewrite !length_app. simpl. lia.
    + pose proof (unvisited_cons_le visited curr). simpl. lia.
Qed.

Lemma isAncestor_loop_enough (fuel : nat) :
  forall queue visited,
    potential state queue visited < fuel ->
    exists b, isAncestor_loop fuel state ancestorId queue visited = Some b.
Proof.
  induction fuel as [|fuel IH]; intros queue visited Hlt; [lia|].
  simpl. destruct (isAncestor_step state ancestorId queue visited) as [b|q' v'] eqn:St.
  - now exists b.
  - apply IH. apply isAncestor_step_potential in St. lia.
Qed.

Lemma isAncestor_loop_more_fuel (fuel fuel' : nat) :
  forall queue visited b,
    isAncestor_loop fuel state ancestorId queue visited = Some b ->
    fuel <= fuel' ->
    isAncestor_loop fuel' state ancestorId queue visited = Some b.
Proof.
  revert fuel'. induction fuel as [|fuel IH]; intros fuel' queue visited b H Hle;
    [discriminate|].
  destruct fuel' as [|fuel']; [lia|].
  simpl in *. destruct (isAncestor_step state ancestorId queue visited); [assumption|].
  apply IH; [assumption | lia].
Qed.

Lemma unvisited_nil_length :
  List.length (unvisited state []) = List.length (commits state).
Proof.
  unfold unvisited. simpl. rewrite forallb_filter_id.
  - apply length_map.
  - apply forallb_forall. reflexivity.
Qed.

Lemma isAncestor_step_NoDup (queue visited queue' visited' : list string) :
  NoDup visited ->
  isAncestor_step state ancestorId queue visited = Continue queue' visited' ->
  NoDup visited'.
Proof.
  unfold isAncestor_step. intros ND.
  destruct queue as [|curr q]; [discriminate|].
  destruct (has visited curr) eqn:Hv.
  - intros E. injection E as <- <-. assumption.
  - apply has_false in Hv.
    destruct (curr =? ancestorId); [discriminate|].
    destruct (findCommit state curr); intros E; injection E as <- <-;
      now constructor.
Qed.

Lemma isAncestor_after_NoDup (n : nat) :
  forall queue visited queue' visited',
    NoDup visited ->
    isAncestor_after n state ancestorId queue visited = Continue queue' visited' ->
    NoDup visited'.
Proof.
  induction n as [|n IH]; intros queue visited queue' visited' ND; simpl.
  - intros E. injection E as <- <-. assumption.
  - destruct (isAncestor_step state ancestorId queue visited) as [b|q1 v1] eqn:St;
      [discriminate|].
    apply IH. eapply isAncestor_step_NoDup; eassumption.
Qed.

End AncestryLoop.

Example isAncestor_diamond :
  isAncestor diamond "a" "m" = true /\ isAncestor diamond "c" "m" = true
  /\ isAncestor diamond "m" "a" = false /\ isAncestor diamond "b" "c" = false.
Proof. repeat split; reflexivity. Qed.

(** C9. [isAncestor] is reflexive: it answers true on every pair of equal
    identifiers, so on every commit of the snapshot. Its loop ends on every
    snapshot and every pair of arguments, merge commits and diamonds
    included: the fuel [isAncestor_fuel], twice the number of commits plus
    two, is enough for a result, more fuel gives the same result, and that
    result is the value of [isAncestor]. The visited set never holds an
    identifier twice, so no node is expanded a second time. *)
Theorem isAncestor_reflexive_and_terminates (state : GitState) :
  (forall X, isAncestor state X X = true)
  /\ (forall ancestorId descendantId,
        exists b,
          isAncestor_loop (isAncestor_fuel state) state ancestorId [descendantId] []
            = Some b
          /\ (forall fuel, isAncestor_fuel state <= fuel ->
                isAncestor_loop fuel state ancestorId [descendantId] [] = Some b)
          /\ (ancestorId <> descendantId ->
                isAncestor state ancestorId descendantId = b))
  /\ (forall ancestorId descendantId n queue visited,
        isAncestor_after n state ancestorId [descendantId] [] = Continue queue visited ->
        NoDup visited).
Proof.
  split; [|split].
  - intros X. unfold isAncestor. now rewrite String.eqb_refl.
  - intros a d.
    destruct (isAncestor_loop_enough state a (isAncestor_fuel state) [d] []) as [b Hb].
    + unfold potential, isAncestor_fuel. rewrite unvisited_nil_length. simpl. lia.
    + exists b. split; [assumption|]. split.
      * intros fuel Hle. eapply isAncestor_loop_more_fuel; eassumption.
      * intros Hne. unfold isAncestor.
        apply String.eqb_neq in Hne. now rewrite Hne, Hb.
  - intros a d n queue visited H.
    eapply isAncestor_after_NoDup; [|exact H]. constructor.
Qed.

Lemma isAncestor_reflexive_and_terminates_witness :
  isAncestor diamond "m" "m" = true
  /\ (exists b, isAncestor_loop (isAncestor_fuel diamond) diamond "a" ["m"] [] = Some b
                /\ isAncestor diamond "a" "m" = b)
  /\ NoDup ["b"; "m"].
Proof.
  pose proof (isAncestor_reflexive_and_terminates diamond) as [R [T N]].
  split; [apply R | split].
  - destruct (T "a" "m") as [b [H1 [_ H3]]]. exists b. split; [exact H1|].
    apply H3. discriminate.
  - apply (N "a" "m" 2 ["c"; "a"] ["b"; "m"]). reflexivity.
Defined.

(** *** What the ancestry test decides *)

Section AncestryMeaning.

Variable state : GitState.
Variable ancestorId descendantId : string.

Lemma pushIf_In (o : option string) (p : string) :
  In p (pushIf o) <-> o = Some p /\ JS.truthyS p = true.
Proof.
  unfold pushIf. destruct o as [q|]; [|split; [intros [] | intros [E _]; discriminate]].
  destruct (JS.truthyS q) eqn:T; simpl.
  - split.
    + intros [-> | []]. now split.
    + intros [E _]. injection E as ->. now left.
  - split; [intros [] | intros [E Tp]; injection E as ->; congruence].
Qed.

Lemma isAncestor_step_invariant (queue visited queue' visited' : list string) :
  loopInvariant state ancestorId descendantId queue visited ->
  isAncestor_step state ancestorId queue visited = Continue queue' visited' ->
  loopInvariant state ancestorId descendantId queue' visited'.
Proof.
  unfold isAncestor_step, loopInvariant, seen.
  intros [Hreach [Hclosed [Hstart Hanc]]].
  destruct queue as [|curr q]; [discriminate|].
  destruct (has visited curr) eqn:Hv.
  - apply has_In in Hv. intros E. injection E as <- <-.
    split; [|split; [|split]].
    + intros y [Hy | Hy]; apply Hreach; [left; now right | now right].
    + intros x p Hx Hedge.
      destruct (Hclosed x p Hx Hedge) as [[<- | Hq] | Hq];
        [right; assumption | now left | now right].
    + destruct Hstart as [[<- | Hq] | Hq];
        [right; assumption | now left | now right].
    + assumption.
  - destruct (curr =? ancestorId) eqn:Ea; [discriminate|].
    apply String.eqb_neq in Ea.
    assert (reaches state descendantId curr) as Hcurr by (apply Hreach; left; now left).
    destruct (findCommit state curr) as [c|] eqn:F; intros E; injection E as <- <-.
    + repeat split.
      * intros y [Hy | [<- | Hy]]; [| assumption | apply Hreach; now right].
        apply in_app_or in Hy. destruct Hy as [Hy | Hy];
          [apply Hreach; left; now right|].
        apply (reaches_parent _ _ curr); [assumption|]. exists c.
        apply in_app_or in Hy. destruct Hy as [Hy | Hy]; apply pushIf_In in Hy;
          destruct Hy as [Ep Tp]; repeat split; auto.
      * intros x p [<- | Hx] Hedge.
        -- destruct Hedge as [c' [F' [Hp Tp]]]. rewrite F in F'. injection F' as <-.
           left. apply in_or_app. right. apply in_or_app.
           destruct Hp as [Hp | Hp]; [left | right]; now apply pushIf_In.
        -- destruct (Hclosed x p Hx Hedge) as [[<- | Hq] | Hq].
           ++ right. now left.
           ++ left. apply in_or_app. now left.
           ++ right. now right.
      * destruct Hstart as [[<- | Hq] | Hq].
        -- right. now left.
        -- left. apply in_or_app. now left.
        -- right. now right.
      * intros [E | Hin]; [now apply Ea | now apply Hanc].
    + repeat split.
      * intros y [Hy | [<- | Hy]]; [| assumption | apply Hreach; now right].
        apply Hreach. left. now right.
      * intros x p [<- | Hx] Hedge.
        -- destruct Hedge as [c' [F' _]]. rewrite F in F'. discriminate.
        -- destruct (Hclosed x p Hx Hedge) as [[<- | Hq] | Hq].
           ++ right. now left.
           ++ now left.
           ++ right. now right.
      * destruct Hstart as [[<- | Hq] | Hq].
        -- right. now left.
        -- now left.
        -- right. now right.
      * intros [E | Hin]; [now apply Ea | now apply Hanc].
Qed.

Lemma closed_holds_reachable (visited : list string) :
  (forall x p, In x visited -> parentEdge state x p -> In p visited) ->
  In descendantId visited ->
  forall y, reaches state descendantId y -> In y visited.
Proof.
  intros Hclosed Hd y R. induction R as [|y z R IHR Hedge]; [assumption|].
  now apply (Hclosed y z).
Qed.

Lemma isAncestor_loop_decides (fuel : nat) :
  forall queue visited b,
    loopInvariant state ancestorId descendantId queue visited ->
    isAncestor_loop fuel state ancestorId queue visited = Some b ->
    (b = true <-> reaches state descendantId ancestorId).
Proof.
  induction fuel as [|fuel IH]; intros queue visited b Inv; simpl; [discriminate|].
  destruct (isAncestor_step state ancestorId queue visited) as [r|q' v'] eqn:St.
  - intros E. injection E as <-. unfold isAncestor_step in St.
    destruct Inv as [Hreach [Hclosed [Hstart Hanc]]].
    destruct queue as [|curr q].
    + injection St as <-. split; [discriminate|]. intros R. exfalso.
      apply Hanc. apply (closed_holds_reachable visited); [| |assumption].
      * intros x p Hx Hedge. destruct (Hclosed x p Hx Hedge) as [[] | H]. exact H.
      * destruct Hstart as [[] | H]. exact H.
    + destruct (has visited curr); [discriminate|].
      destruct (curr =? ancestorId) eqn:Ea.
      * injection St as <-. apply String.eqb_eq in Ea. subst curr.
        split; [|reflexivity]. intros _. apply Hreach. left. now left.
      * destruct (findCommit state curr); discriminate.
  - intros E. apply (IH q' v' b); [|assumption].
    eapply isAncestor_step_invariant; eassumption.
Qed.

(** [isAncestor] answers true exactly when the candidate is reached from
    the descendant along first-parent and second-parent edges. *)
Lemma isAncestor_reaches :
  isAncestor state ancestorId descendantId = true
  <-> reaches state descendantId ancestorId.
Proof.
  unfold isAncestor. destruct (ancestorId =? descendantId) eqn:E.
  - apply String.eqb_eq in E. subst. split; [constructor | reflexivity].
  - destruct (isAncestor_loop_enough state ancestorId (isAncestor_fuel state)
                [descendantId] []) as [b Hb].
    { unfold potential, isAncestor_fuel. rewrite unvisited_nil_length. simpl. lia. }
    rewrite Hb.
    apply (isAncestor_loop_decides (isAncestor_fuel state) [descendantId] [] b);
      [|assumption].
    unfold loopInvariant, seen. repeat split.
    + intros y [[<- | []] | []]. constructor.
    + intros x p [].
    + left. now left.
    + intros [].
Qed.

End AncestryMeaning.

Lemma isAncestor_false (state : GitState) (ancestorId descendantId : string) :
  isAncestor state ancestorId descendantId = false
  <-> ~ reaches state descendantId ancestorId.
Proof.
  rewrite <- isAncestor_reaches.
  destruct (isAncestor state ancestorId descendantId); split; congruence.
Qed.

(** *** Reference resolution *)

Lemma find_firstWhere {A} (p : A -> bool) (l : list A) (x : A) :
  find p l = Some x <-> firstWhere p l x.
Proof.
  unfold firstWhere. induction l as [|a l IH]; simpl.
  - split; [discriminate|]. intros [pre [post [E _]]]. now destruct pre.
  - destruct (p a) eqn:Pa.
    + split.
      * intros E. injection E as E. subst x. exists [], l.
        repeat split; [assumption|]. intros y [].
      * intros [pre [post [E [Px Hpre]]]]. destruct pre as [|b pre]; simpl in E.
        -- injection E as Ea El. now subst.
        -- injection E as Ea El. subst b.
           rewrite (Hpre a (or_introl eq_refl)) in Pa. discriminate.
    + rewrite IH. split.
      * intros [pre [post [E [Px Hpre]]]]. exists (a :: pre), post.
        repeat split; [now rewrite E | assumption |].
        intros y [Hy | Hy]; [now subst y | now apply Hpre].
      * intros [pre [post [E [Px Hpre]]]]. destruct pre as [|b pre]; simpl in E.
        -- injection E as Ea El. subst x. rewrite Px in Pa. discriminate.
        -- injection E as Ea El. subst b. exists pre, post.
           repeat split; [assumption | assumption |].
           intros y Hy. apply Hpre. now right.
Qed.

Lemma find_noneWhere {A} (p : A -> bool) (l : list A) :
  find p l = None <-> noneWhere p l.
Proof.
  unfold noneWhere. split; [apply find_none|].
  intros H. destruct (find p l) eqn:F; [|reflexivity].
  apply find_some in F. destruct F as [Hin Pa]. rewrite (H _ Hin) in Pa. discriminate.
Qed.

Lemma prefix_refl (s : string) : prefix s s = true.
Proof.
  induction s as [|c s IH]; simpl; [reflexivity|].
  destruct (ascii_dec c c); [assumption | congruence].
Qed.

(** The exact match of the third step adds nothing to the prefix test. *)
Lemma exact_or_prefix (tok : string) (c : Commit) :
  (id c =? tok) || JS.startsWith (id c) tok = hasPrefix tok c.
Proof.
  unfold hasPrefix, JS.startsWith. destruct (id c =? tok) eqn:E; [|reflexivity].
  apply String.eqb_eq in E. rewrite E. simpl. symmetry. apply prefix_refl.
Qed.

Lemma find_ext {A} (p q : A -> bool) (l : list A) :
  (forall x, p x = q x) -> find p l = find q l.
Proof.
  intros H. induction l as [|a l IH]; simpl; [reflexivity|].
  rewrite H, IH. reflexivity.
Qed.

(** C3 as the specification states it fails on two counts. A prefix that
    two commits share resolves, to the first of them in the commit list,
    where a unique prefix is asked for; and a commit whose identifier is the
    token loses to an earlier commit that has the token as a proper prefix,
    where the exact match should come first. *)
Lemma resolveRef_prefix_not_unique :
  resolveRef ambiguous (Some "abc") = Some "abc1"
  /\ resolveRef_spec ambiguous "abc" = None
  /\ resolveRef shadowed (Some "abc") = Some "abc1"
  /\ resolveRef_spec shadowed "abc" = Some "abc".
Proof. repeat split; reflexivity. Qed.

(** C3, amended. For a non-empty token the matchers are tried in the order
    branch name, tag name, commit identifier, the literal HEAD, and the
    first hit wins: the first branch of that name; failing that the first
    tag of that name; failing that the first commit of the commit list
    whose identifier starts with the token (an identifier equal to the
    token is one such, and no uniqueness is asked for); failing that the
    effective HEAD commit when the token is HEAD; and not-found otherwise.
    A token that is empty or absent resolves to nothing. *)
Theorem resolveRef_first_match (state : GitState) (tok : string) :
  tok <> "" ->
  (forall b, firstWhere (named tok) (branches state) b ->
     resolveRef state (Some tok) = Some (commitId b))
  /\ (noneWhere (named tok) (branches state) ->
      forall t, firstWhere (named tok) (tags state) t ->
        resolveRef state (Some tok) = Some (commitId t))
  /\ (noneWhere (named tok) (branches state) ->
      noneWhere (named tok) (tags state) ->
      forall c, firstWhere (hasPrefix tok) (commits state) c ->
        resolveRef state (Some tok) = Some (id c))
  /\ (noneWhere (named tok) (branches state) ->
      noneWhere (named tok) (tags state) ->
      noneWhere (hasPrefix tok) (commits state) ->
      resolveRef state (Some tok)
      = if tok =? "HEAD" then Some (getHeadCommitId state) else None)
  /\ resolveRef state (Some "") = None
  /\ resolveRef state None = None.
Proof.
  intros Hne.
  assert (forall st, resolveRef st (Some tok) =
            match findBranch st tok with
            | Some b => Some (commitId b)
            | None =>
                match findTag st tok with
                | Some t => Some (commitId t)
                | None =>
                    match find (hasPrefix tok) (commits st) with
                    | Some c => Some (id c)
                    | None => if tok =? "HEAD" then Some (getHeadCommitId st) else None
                    end
                end
            end) as Unfold.
  { intros st. unfold resolveRef. destruct tok as [|a tok]; [congruence|].
    rewrite (find_ext _ (hasPrefix (String a tok)) _ (exact_or_prefix (String a tok))).
    reflexivity. }
  rewrite Unfold. unfold findBranch, findTag.
  repeat split.
  - intros b Hb. apply find_firstWhere in Hb. unfold named in Hb. now rewrite Hb.
  - intros Nb t Ht. apply find_noneWhere in Nb. apply find_firstWhere in Ht.
    unfold named in *. now rewrite Nb, Ht.
  - intros Nb Nt c Hc. apply find_noneWhere in Nb, Nt. apply find_firstWhere in Hc.
    unfold named in *. now rewrite Nb, Nt, Hc.
  - intros Nb Nt Nc. apply find_noneWhere in Nb, Nt, Nc.
    unfold named in *. now rewrite Nb, Nt, Nc.
Qed.

Lemma resolveRef_first_match_witness :
  resolveRef contested (Some "abc") = Some "abd2"
  /\ resolveRef ambiguous (Some "abc") = Some "abc1"
  /\ resolveRef ambiguous (Some "HEAD") = Some "abc2".
Proof.
  assert ("abc" <> "") as Nabc by discriminate.
  assert ("HEAD" <> "") as Nhead by discriminate.
  destruct (resolveRef_first_match contested "abc" Nabc) as [B1 _].
  destruct (resolveRef_first_match ambiguous "abc" Nabc) as [_ [_ [C2 _]]].
  destruct (resolveRef_first_match ambiguous "HEAD" Nhead) as [_ [_ [_ [H3 _]]]].
  split; [|split].
  - apply (B1 {| name := "abc"; commitId := "abd2" |}).
    exists [ {| name := "main"; commitId := "abd2" |} ], [].
    repeat split. intros y [<- | []]. reflexivity.
  - apply (C2 ltac:(intros y [<- | []]; reflexivity) ltac:(intros y [])
              (plainCommit "abc1" None 1)).
    exists [], [ plainCommit "abc2" (Some "abc1") 2 ].
    repeat split. intros y [].
  - apply H3.
    + intros y [<- | []]. reflexivity.
    + intros y [].
    + intros y [<- | [<- | []]]; reflexivity.
Defined.

(* ================================================================== *)
(** ** Properties of the command engine *)
(* ================================================================== *)

(** *** The two commands that pull runs *)

(** [cmdPull] calls the fetch and the merge handlers where the source calls
    [executeGitCommand] on two fixed command lines: these reach the same
    handlers. *)
Lemma pull_runs_fetch_and_merge (w : World) (state : GitState) :
  executeGitCommand w "git fetch" state = Returns (cmdFetch w state)
  /\ executeGitCommand w "git merge origin/main" state
     = Returns (cmdMerge w ["git"; "merge"; "origin/main"] state)
  /\ executeGitCommand w "git pull" state = Returns (cmdPull w state).
Proof. repeat split; reflexivity. Qed.

(** *** Moving a branch pointer *)

Lemma pointTo_names (n c : string) (bs : list Branch) :
  map name (pointTo n c bs) = map name bs.
Proof.
  unfold pointTo. rewrite map_map. apply map_ext. intros b.
  now destruct (name b =? n).
Qed.

Lemma pointTo_In (n c : string) (bs : list Branch) (b : Branch) :
  In b (pointTo n c bs) ->
  (name b = n /\ commitId b = c) \/ (name b <> n /\ In b bs).
Proof.
  unfold pointTo. intros H. apply in_map_iff in H. destruct H as [b0 [E Hin]].
  destruct (name b0 =? n) eqn:N.
  - apply String.eqb_eq in N. left. subst b. simpl. now split.
  - apply String.eqb_neq in N. right. subst b. now split.
Qed.

Lemma find_pointTo_same (n c : string) (bs : list Branch) :
  In n (map name bs) ->
  find (fun b => name b =? n) (pointTo n c bs) = Some {| name := n; commitId := c |}.
Proof.
  induction bs as [|b bs IH]; simpl; [contradiction|].
  destruct (name b =? n) eqn:N.
  - intros _. simpl. rewrite N. apply String.eqb_eq in N. now rewrite N.
  - intros [E | Hin].
    + apply String.eqb_neq in N. contradiction.
    + rewrite N. now apply IH.
Qed.

Lemma find_pointTo_other (n c x : string) (bs : list Branch) :
  x <> n ->
  find (fun b => name b =? x) (pointTo n c bs) = find (fun b => name b =? x) bs.
Proof.
  intros Hne. induction bs as [|b bs IH]; simpl; [reflexivity|].
  destruct (name b =? n) eqn:N; simpl.
  - apply String.eqb_eq in N. rewrite N.
    apply not_eq_sym in Hne. apply String.eqb_neq in Hne. rewrite Hne. exact IH.
  - destruct (name b =? x); [reflexivity | exact IH].
Qed.

(** An attached HEAD follows its branch. *)
Lemma getHeadCommitId_pointTo (state : GitState) (cs : list Commit) (c : string) :
  type (head state) = type_branch ->
  In (ref (head state)) (map name (branches state)) ->
  getHeadCommitId
    {| commits := cs; branches := pointTo (ref (head state)) c (branches state);
       tags := tags state; head := head state |} = c.
Proof.
  intros Ht Hin. unfold getHeadCommitId, findBranch. simpl. rewrite Ht.
  now rewrite find_pointTo_same.
Qed.

(** *** merge *)

(** C2. [git merge <ref>] with HEAD attached to an existing branch and the
    reference resolved to the commit [T]. If [T] is the HEAD commit, the
    command succeeds and returns the snapshot it was given. Else, if the
    HEAD commit is an ancestor of [T] (it is reached from [T] along parent
    edges, which is what [isAncestor] tests), the current branch is moved
    to [T] and the commit list, the tags and HEAD stay as they are. Otherwise one commit is appended, with the HEAD commit as
    first parent and [T] as second parent, and the current branch is moved
    to it. The command fails, with the snapshot untouched, when the
    reference does not resolve or HEAD is detached. *)
Theorem merge_three_cases (w : World) (command : string) (state : GitState)
    (r : string) (rest : list string) :
  tokens command = "git" :: "merge" :: r :: rest ->
  (JS.truthy (resolveRef state (Some r)) = false \/ type (head state) = type_commit ->
   exists msg, executeGitCommand w command state = Returns (fail state msg))
  /\ (forall T,
        attachedToBranch state ->
        resolveRef state (Some r) = Some T -> T <> "" ->
        (T = getHeadCommitId state ->
         executeGitCommand w command state = Returns (ok state "Already up to date."))
        /\ (T <> getHeadCommitId state ->
            reaches state T (getHeadCommitId state) ->
            exists result,
              executeGitCommand w command state = Returns result
              /\ success result = true
              /\ newState result
                 = withBranches state (pointTo (ref (head state)) T (branches state))
              /\ commits (newState result) = commits state
              /\ getHeadCommitId (newState result) = T)
        /\ (T <> getHeadCommitId state ->
            ~ reaches state T (getHeadCommitId state) ->
            exists result m,
              executeGitCommand w command state = Returns result
              /\ success result = true
              /\ commits (newState result) = (commits state ++ [m])%list
              /\ id m = generateShortId w 0
              /\ parentId m = Some (getHeadCommitId state)
              /\ secondParentId m = Some T
              /\ branches (newState result)
                 = pointTo (ref (head state)) (id m) (branches state)
              /\ getHeadCommitId (newState result) = id m
              /\ tags (newState result) = tags state
              /\ head (newState result) = head state)).
Proof.
  intros Htok. unfold executeGitCommand. rewrite Htok.
  change (dispatch w ("git" :: "merge" :: r :: rest) state)
    with (Returns (cmdMerge w ("git" :: "merge" :: r :: rest) state)).
  unfold cmdMerge. change (part ("git" :: "merge" :: r :: rest) 2) with (Some r).
  split.
  - intros Hfail.
    destruct (JS.truthy (Some r)); [|eexists; reflexivity].
    destruct (JS.truthy (resolveRef state (Some r))); [|eexists; reflexivity].
    destruct Hfail as [Hres | Hdet]; [discriminate|].
    rewrite Hdet. eexists. reflexivity.
  - intros T [Hty Hin] Hres HT.
    assert (JS.truthy (Some r) = true) as Hr.
    { destruct r; [simpl in Hres; discriminate | reflexivity]. }
    rewrite Hr, Hres.
    assert (JS.truthy (Some T) = true) as HTt by (destruct T; [congruence | reflexivity]).
    rewrite HTt, Hty. cbv beta iota delta [negb isBranch JS.show].
    split; [|split].
    + intros E. apply String.eqb_eq in E. now rewrite E.
    + intros Hne Hanc. apply String.eqb_neq in Hne. apply isAncestor_reaches in Hanc.
      rewrite Hne, Hanc.
      eexists. split; [reflexivity|]. repeat split.
      unfold withBranches. now apply getHeadCommitId_pointTo.
    + intros Hne Hanc. apply String.eqb_neq in Hne. apply isAncestor_false in Hanc.
      rewrite Hne, Hanc.
      eexists. eexists. split; [reflexivity|]. repeat split.
      now apply getHeadCommitId_pointTo.
Qed.

Lemma merge_three_cases_witness :
  executeGitCommand w0 "git merge main" behind = Returns (ok behind "Already up to date.")
  /\ (exists result,
        executeGitCommand w0 "git merge feature" behind = Returns result
        /\ commits (newState result) = commits behind
        /\ getHeadCommitId (newState result) = "b")
  /\ (exists result m,
        executeGitCommand w0 "git merge side" forked = Returns result
        /\ commits (newState result) = (commits forked ++ [m])%list
        /\ parentId m = Some "b" /\ secondParentId m = Some "c"
        /\ getHeadCommitId (newState result) = id m)
  /\ (exists msg, executeGitCommand w0 "git merge nope" behind = Returns (fail behind msg)).
Proof.
  assert (attachedToBranch behind) as Ab by (split; [reflexivity | simpl; tauto]).
  assert (attachedToBranch forked) as Af by (split; [reflexivity | simpl; tauto]).
  destruct (merge_three_cases w0 "git merge main" behind "main" [] eq_refl) as [_ M1].
  destruct (M1 "a" Ab eq_refl ltac:(discriminate)) as [Same _].
  destruct (merge_three_cases w0 "git merge feature" behind "feature" [] eq_refl)
    as [_ M2].
  destruct (M2 "b" Ab eq_refl ltac:(discriminate)) as [_ [Fast _]].
  destruct (merge_three_cases w0 "git merge side" forked "side" [] eq_refl) as [_ M3].
  destruct (M3 "c" Af eq_refl ltac:(discriminate)) as [_ [_ Three]].
  destruct (merge_three_cases w0 "git merge nope" behind "nope" [] eq_refl) as [Bad _].
  split; [|split; [|split]].
  - apply Same. reflexivity.
  - destruct (Fast ltac:(discriminate)) as [result [E [_ [_ [Hc Hh]]]]].
    + apply isAncestor_reaches. reflexivity.
    + exists result. repeat split; assumption.
  - destruct (Three ltac:(discriminate))
      as [result [m [E [_ [Hc [_ [Hp [Hs [_ [Hh _]]]]]]]]]].
    + apply isAncestor_false. reflexivity.
    + exists result, m. repeat split; assumption.
  - apply Bad. left. reflexivity.
Defined.

(** *** push *)

Lemma find_push (rn c x : string) (bs : list Branch) :
  find (fun b => name b =? x)
       (filter (fun b => negb (name b =? rn)) bs ++ [ {| name := rn; commitId := c |} ])%list
  = if x =? rn then Some {| name := rn; commitId := c |}
    else find (fun b => name b =? x) bs.
Proof.
  induction bs as [|b bs IH]; simpl.
  - rewrite (String.eqb_sym rn x). now destruct (x =? rn).
  - destruct (name b =? rn) eqn:N; simpl.
    + rewrite IH. destruct (x =? rn) eqn:X; [reflexivity|].
      apply String.eqb_eq in N. rewrite N, (String.eqb_sym rn x), X. reflexivity.
    + destruct (name b =? x) eqn:Bx; [|exact IH].
      destruct (x =? rn) eqn:X; [|reflexivity].
      apply String.eqb_eq in Bx, X. subst. rewrite String.eqb_refl in N. discriminate.
Qed.

Lemma count_push (rn c : string) (bs : list Branch) :
  count_occ string_dec
    (map name (filter (fun b => negb (name b =? rn)) bs
               ++ [ {| name := rn; commitId := c |} ])%list) rn = 1.
Proof.
  rewrite map_app, count_occ_app. simpl.
  destruct (string_dec rn rn); [|congruence].
  assert (count_occ string_dec (map name (filter (fun b => negb (name b =? rn)) bs)) rn = 0)
    as ->; [|reflexivity].
  apply count_occ_not_In. intros H. apply in_map_iff in H.
  destruct H as [b [E Hb]]. apply filter_In in Hb. destruct Hb as [_ Hb].
  rewrite E, String.eqb_refl in Hb. discriminate.
Qed.

(** C5. [git push] with HEAD attached to the existing branch [b]. When the
    remote-tracking branch origin/<b> exists and the tip of [b] is not a
    descendant of its tip (the tip of origin/<b> is not reached from it
    along parent edges; the two tips then differ), the command fails and
    returns the snapshot it was given, so origin/<b> stays where it was.
    In every other case, origin/<b> absent included, the command succeeds
    and the new snapshot holds one branch origin/<b>, at the tip of [b];
    the other branches, the commits, the tags and HEAD are unchanged. *)
Theorem push_fast_forward_only (w : World) (command : string) (state : GitState)
    (rest : list string) (b : Branch) :
  tokens command = "git" :: "push" :: rest ->
  type (head state) = type_branch ->
  findBranch state (ref (head state)) = Some b ->
  (forall rb,
     findBranch state (remoteName state) = Some rb ->
     ~ reaches state (commitId b) (commitId rb) ->
     commitId rb <> commitId b
     /\ exists msg, executeGitCommand w command state = Returns (fail state msg))
  /\ (findBranch state (remoteName state) = None
      \/ (exists rb, findBranch state (remoteName state) = Some rb
                     /\ reaches state (commitId b) (commitId rb)) ->
      exists result,
        executeGitCommand w command state = Returns result
        /\ success result = true
        /\ findBranch (newState result) (remoteName state)
           = Some {| name := remoteName state; commitId := commitId b |}
        /\ count_occ string_dec (map name (branches (newState result)))
                     (remoteName state) = 1
        /\ (forall x, x <> remoteName state ->
              findBranch (newState result) x = findBranch state x)
        /\ commits (newState result) = commits state
        /\ tags (newState result) = tags state
        /\ head (newState result) = head state).
Proof.
  intros Htok Hty Hb. unfold executeGitCommand. rewrite Htok.
  change (dispatch w ("git" :: "push" :: rest) state) with (Returns (cmdPush state)).
  unfold cmdPush. rewrite Hty, Hb. fold (remoteName state).
  split.
  - intros rb Hrb Hanc. apply isAncestor_false in Hanc. rewrite Hrb, Hanc.
    assert (commitId rb <> commitId b) as Hne.
    { intros E. unfold isAncestor in Hanc. rewrite E, String.eqb_refl in Hanc.
      discriminate. }
    split; [assumption|].
    apply String.eqb_neq in Hne. rewrite Hne. simpl. eexists. reflexivity.
  - intros Hok.
    destruct Hok as [Hn | [rb [Hs Ha]]].
    + rewrite Hn. simpl. eexists. split; [reflexivity|]. simpl. unfold findBranch. simpl.
      repeat split.
      * rewrite find_push. now rewrite String.eqb_refl.
      * apply count_push.
      * intros x Hx. rewrite find_push. apply String.eqb_neq in Hx. now rewrite Hx.
    + apply isAncestor_reaches in Ha.
      rewrite Hs, Ha. simpl. eexists. split; [reflexivity|]. simpl. unfold findBranch.
      simpl. repeat split.
      * rewrite find_push. now rewrite String.eqb_refl.
      * apply count_push.
      * intros x Hx. rewrite find_push. apply String.eqb_neq in Hx. now rewrite Hx.
Qed.

Lemma push_fast_forward_only_witness :
  (exists msg, executeGitCommand w0 "git push" diverged = Returns (fail diverged msg))
  /\ (exists result,
        executeGitCommand w0 "git push -u origin main" aheadOfRemote = Returns result
        /\ findBranch (newState result) "origin/main"
           = Some {| name := "origin/main"; commitId := "b" |})
  /\ (exists result,
        executeGitCommand w0 "git push" forked = Returns result
        /\ findBranch (newState result) "origin/main"
           = Some {| name := "origin/main"; commitId := "b" |}).
Proof.
  destruct (push_fast_forward_only w0 "git push" diverged []
              {| name := "main"; commitId := "b" |} eq_refl eq_refl eq_refl) as [Rej _].
  destruct (push_fast_forward_only w0 "git push -u origin main" aheadOfRemote
              ["-u"; "origin"; "main"]
              {| name := "main"; commitId := "b" |} eq_refl eq_refl eq_refl) as [_ Adv].
  destruct (push_fast_forward_only w0 "git push" forked []
              {| name := "main"; commitId := "b" |} eq_refl eq_refl eq_refl) as [_ New].
  split; [|split].
  - apply (Rej {| name := "origin/main"; commitId := "c" |}); [reflexivity|].
    apply isAncestor_false. reflexivity.
  - destruct Adv as [result [E [_ [F _]]]].
    + right. exists {| name := "origin/main"; commitId := "a" |}.
      split; [reflexivity|]. apply isAncestor_reaches. reflexivity.
    + exists result. split; assumption.
  - destruct New as [result [E [_ [F _]]]].
    + left. reflexivity.
    + exists result. split; assumption.
Defined.

(** *** branch -M *)

Lemma count_rename (a n : string) (bs : list Branch) :
  a <> n ->
  count_occ string_dec (map name (rename a n bs)) n
  = count_occ string_dec (map name bs) a + count_occ string_dec (map name bs) n.
Proof.
  intros Hne. induction bs as [|b bs IH]; simpl; [reflexivity|].
  destruct (name b =? a) eqn:Ba; simpl.
  - apply String.eqb_eq in Ba. rewrite Ba.
    destruct (string_dec n n); [|congruence].
    destruct (string_dec a a); [|congruence].
    destruct (string_dec a n); [contradiction|]. rewrite IH. lia.
  - apply String.eqb_neq in Ba.
    destruct (string_dec (name b) a); [contradiction|].
    destruct (string_dec (name b) n); rewrite IH; lia.
Qed.

Lemma count_occ_In_pos (l : list string) (x : string) :
  In x l -> 1 <= count_occ string_dec l x.
Proof. intros H. apply (count_occ_In string_dec) in H. lia. Qed.

(** C10. [git branch -M n] with HEAD attached to the branch [a] while
    another branch is already named [n]: no check of the new name is made,
    the command succeeds, every branch named [a] is renamed and HEAD is
    attached to [n]. The new snapshot then holds the name [n] at least
    twice: the names of its branches are no longer distinct. *)
Theorem branch_rename_duplicates (w : World) (command : string) (state : GitState)
    (n : string) (rest : list string) :
  tokens command = "git" :: "branch" :: "-M" :: n :: rest ->
  attachedToBranch state ->
  In n (map name (branches state)) ->
  ref (head state) <> n ->
  exists result,
    executeGitCommand w command state = Returns result
    /\ success result = true
    /\ head (newState result) = {| type := type_branch; ref := n |}
    /\ branches (newState result) = rename (ref (head state)) n (branches state)
    /\ commits (newState result) = commits state
    /\ 2 <= count_occ string_dec (map name (branches (newState result))) n
    /\ ~ NoDup (map name (branches (newState result))).
Proof.
  intros Htok [Hty Ha] Hn Hne. unfold executeGitCommand. rewrite Htok.
  change (dispatch w ("git" :: "branch" :: "-M" :: n :: rest) state)
    with (cmdBranch ("git" :: "branch" :: "-M" :: n :: rest) state).
  unfold cmdBranch.
  change (eqS (part ("git" :: "branch" :: "-M" :: n :: rest) 2) "-M") with true.
  change (part ("git" :: "branch" :: "-M" :: n :: rest) 3) with (Some n).
  rewrite Hty. cbv beta iota delta [negb isBranch].
  eexists. split; [reflexivity|]. simpl.
  assert (2 <= count_occ string_dec
                 (map name (rename (ref (head state)) n (branches state))) n) as Two.
  { rewrite (count_rename _ _ _ Hne).
    pose proof (count_occ_In_pos _ _ Ha). pose proof (count_occ_In_pos _ _ Hn). lia. }
  repeat split; [exact Two|].
  intros ND. rewrite (NoDup_count_occ string_dec) in ND. specialize (ND n). lia.
Qed.

Lemma branch_rename_duplicates_witness :
  exists result,
    executeGitCommand w0 "git branch -M side" forked = Returns result
    /\ success result = true
    /\ map name (branches (newState result)) = ["side"; "side"].
Proof.
  destruct (branch_rename_duplicates w0 "git branch -M side" forked "side" [] eq_refl)
    as [result [E [S [_ [B _]]]]].
  - split; [reflexivity | simpl; tauto].
  - simpl; tauto.
  - discriminate.
  - exists result. repeat split; [exact E | exact S |]. rewrite B. reflexivity.
Defined.

(** *** tag *)

(** Whatever follows the name, the tag is put on the HEAD commit. *)
Lemma tag_at_head (w : World) (command : string) (state : GitState)
    (n : string) (rest : list string) :
  tokens command = "git" :: "tag" :: n :: rest ->
  n <> "" ->
  executeGitCommand w command state
  = Returns (ok (withTags state
                   (tags state ++ [ {| name := n; commitId := getHeadCommitId state |} ])%list)
                ("Created tag " ++ n)).
Proof.
  intros Htok Hn. unfold executeGitCommand. rewrite Htok.
  change (dispatch w ("git" :: "tag" :: n :: rest) state)
    with (Returns (cmdTag ("git" :: "tag" :: n :: rest) state)).
  unfold cmdTag. change (part ("git" :: "tag" :: n :: rest) 2) with (Some n).
  destruct n; [congruence | reflexivity].
Qed.

Lemma tag_without_name (w : World) (state : GitState) :
  executeGitCommand w "git tag" state = Returns (fail state "Tag name required").
Proof. reflexivity. Qed.

(** C7, on the code. The guide of the tagging lesson presents
    [git tag v1.0 <commit>] as the way to tag a given commit, and the
    branch handler resolves its optional start point. The tag handler
    does not: whatever follows the name, the tag is put on the HEAD commit.
    On the snapshot [forked], where HEAD is on [b] and the reference [a]
    resolves to the root commit, [git tag v1.0 a] puts the tag on [b]. The
    rest holds: the command fails when the name is missing, and only
    then. *)
Theorem tag_ignores_ref (w : World) :
  (executeGitCommand w "git tag v1.0 a" forked
   = Returns (ok (withTags forked [ {| name := "v1.0"; commitId := "b" |} ])
                 "Created tag v1.0")
   /\ resolveRef forked (Some "a") = Some "a"
   /\ getHeadCommitId forked = "b")
  /\ (forall command state n rest,
        tokens command = "git" :: "tag" :: n :: rest -> n <> "" ->
        exists result,
          executeGitCommand w command state = Returns result
          /\ success result = true
          /\ tags (newState result)
             = (tags state ++ [ {| name := n; commitId := getHeadCommitId state |} ])%list)
  /\ (forall state,
        executeGitCommand w "git tag" state = Returns (fail state "Tag name required")).
Proof.
  split; [repeat split; reflexivity|]. split.
  - intros command state n rest Htok Hn.
    rewrite (tag_at_head w command state n rest Htok Hn).
    eexists. split; [reflexivity|]. split; reflexivity.
  - intros state. reflexivity.
Qed.

(** *** checkout and the remote-tracking branches *)




(** *** What every handler leaves alone *)

Ltac split_cases :=
  repeat match goal with
  | |- context [if ?c then _ else _] => destruct c
  | |- context [match ?x with Some _ => _ | None => _ end] => destruct x
  | |- context [match ?x with type_branch => _ | type_commit => _ end] => destruct x
  | |- context [let '(_, _) := ?x in _] => destruct x
  | |- context [match ?x with [] => _ | _ :: _ => _ end] => destruct x
  | |- context [match ?x with O => _ | S _ => _ end] => destruct x
  | |- context [match ?x with Z0 => _ | Zpos _ => _ | Zneg _ => _ end] => destruct x
  end.

Ltac failure_leaf :=
  simpl; intros;
  try discriminate; try reflexivity;
  match goal with
  | E : Returns _ = Returns _ |- _ => injection E as E; subst; simpl in *
  end;
  try discriminate; try reflexivity.

Section Failures.

Variable w : World.
Variable parts : list string.
Variable state : GitState.

Lemma cmdFetch_failure :
  success (cmdFetch w state) = false -> newState (cmdFetch w state) = state.
Proof. unfold cmdFetch. split_cases; failure_leaf. Qed.

Lemma cmdRemote_failure :
  success (cmdRemote parts state) = false -> newState (cmdRemote parts state) = state.
Proof. unfold cmdRemote. split_cases; failure_leaf. Qed.

Lemma cmdMerge_failure :
  success (cmdMerge w parts state) = false -> newState (cmdMerge w parts state) = state.
Proof. unfold cmdMerge. split_cases; failure_leaf. Qed.

Lemma cmdPull_failure :
  success (cmdPull w state) = false -> newState (cmdPull w state) = state.
Proof.
  unfold cmdPull. destruct (success (cmdFetch w state)) eqn:F; simpl.
  - discriminate.
  - intros _. now apply cmdFetch_failure.
Qed.

Lemma cmdPush_failure :
  success (cmdPush state) = false -> newState (cmdPush state) = state.
Proof. unfold cmdPush. split_cases; failure_leaf. Qed.

Lemma cmdCommit_failure :
  success (cmdCommit w parts state) = false -> newState (cmdCommit w parts state) = state.
Proof. unfold cmdCommit. split_cases; failure_leaf. Qed.

Lemma cmdCheckout_failure :
  success (cmdCheckout parts state) = false -> newState (cmdCheckout parts state) = state.
Proof. unfold cmdCheckout. split_cases; failure_leaf. Qed.

Lemma cmdRevert_failure :
  success (cmdRevert w parts state) = false -> newState (cmdRevert w parts state) = state.
Proof. unfold cmdRevert. split_cases; failure_leaf. Qed.

Lemma cmdCherryPick_failure :
  success (cmdCherryPick w parts state) = false ->
  newState (cmdCherryPick w parts state) = state.
Proof. unfold cmdCherryPick. split_cases; failure_leaf. Qed.

Lemma cmdTag_failure :
  success (cmdTag parts state) = false -> newState (cmdTag parts state) = state.
Proof. unfold cmdTag. split_cases; failure_leaf. Qed.

Lemma cmdBranch_failure (r : Result) :
  cmdBranch parts state = Returns r -> success r = false -> newState r = state.
Proof. unfold cmdBranch. split_cases; failure_leaf. Qed.

Lemma cmdReset_failure (r : Result) :
  cmdReset parts state = Returns r -> success r = false -> newState r = state.
Proof. unfold cmdReset. split_cases; failure_leaf. Qed.

Lemma cmdRebase_failure (r : Result) :
  cmdRebase w parts state = Returns r -> success r = false -> newState r = state.
Proof. unfold cmdRebase. split_cases; failure_leaf. Qed.

End Failures.

(** The part of C6 that holds: a result that reports failure carries the
    snapshot the engine was given. *)
Lemma failure_returns_input (w : World) (command : string) (state : GitState)
    (r : Result) :
  executeGitCommand w command state = Returns r ->
  success r = false ->
  newState r = state.
Proof.
  unfold executeGitCommand, dispatch.
  generalize (tokens command) as parts. intros parts.
  repeat match goal with
  | |- context [if ?c then _ else _] => destruct c
  end;
  first
    [ apply cmdBranch_failure
    | apply cmdReset_failure
    | apply cmdRebase_failure
    | intros E; injection E as E; subst r;
      first [ apply cmdFetch_failure | apply cmdRemote_failure | apply cmdMerge_failure
            | apply cmdPull_failure | apply cmdPush_failure | apply cmdCommit_failure
            | apply cmdCheckout_failure | apply cmdRevert_failure
            | apply cmdCherryPick_failure | apply cmdTag_failure
            | simpl; intros; try discriminate; reflexivity ] ].
Qed.

Ltac tags_leaf :=
  simpl; intros;
  try match goal with
      | E : Returns _ = Returns _ |- _ => injection E as E; subst; simpl in *
      end;
  try discriminate;
  first [ left; exists []; simpl; now rewrite app_nil_r
        | left; eexists; reflexivity
        | right; reflexivity ].

Section Tags.

Variable w : World.
Variable parts : list string.
Variable state : GitState.

Lemma cmdFetch_tags : tags (newState (cmdFetch w state)) = tags state.
Proof. unfold cmdFetch. split_cases; reflexivity. Qed.

Lemma cmdMerge_tags : tags (newState (cmdMerge w parts state)) = tags state.
Proof. unfold cmdMerge. split_cases; reflexivity. Qed.

Lemma cmdBranch_tags (r : Result) :
  cmdBranch parts state = Returns r -> tagsKept state (newState r).
Proof. unfold cmdBranch, tagsKept. split_cases; tags_leaf. Qed.

Lemma cmdReset_tags (r : Result) :
  cmdReset parts state = Returns r -> tagsKept state (newState r).
Proof. unfold cmdReset, tagsKept. split_cases; tags_leaf. Qed.

Lemma cmdRebase_tags (r : Result) :
  cmdRebase w parts state = Returns r -> tagsKept state (newState r).
Proof. unfold cmdRebase, tagsKept. split_cases; tags_leaf. Qed.

End Tags.

Lemma cmdPull_tags (w : World) (state : GitState) :
  tags (newState (cmdPull w state)) = tags state.
Proof.
  unfold cmdPull. destruct (negb (success (cmdFetch w state))); simpl.
  - apply cmdFetch_tags.
  - rewrite cmdMerge_tags. apply cmdFetch_tags.
Qed.

(** The part of C7 that holds: no command moves a tag. *)
Lemma tags_never_move (w : World) (command : string) (state : GitState) (r : Result) :
  executeGitCommand w command state = Returns r ->
  tagsKept state (newState r).
Proof.
  unfold executeGitCommand, dispatch.
  generalize (tokens command) as parts. intros parts.
  repeat match goal with
  | |- context [if ?c then _ else _] => destruct c
  end;
  first
    [ apply cmdBranch_tags
    | apply cmdReset_tags
    | apply cmdRebase_tags
    | intros E; injection E as E; subst r; unfold tagsKept;
      first [ right; reflexivity
            | left; exists []; rewrite app_nil_r;
              first [ apply cmdPull_tags | apply cmdFetch_tags | apply cmdMerge_tags ]
            | unfold cmdRemote, cmdLog, cmdPush, cmdCommit, cmdCheckout, cmdRevert,
                cmdCherryPick, cmdTag; split_cases; tags_leaf ] ].
Qed.

(** *** reset without a target *)

(** [git reset] and [git reset --hard] leave [actualTarget] undefined, and
    with an attached HEAD the engine then calls a method on it. *)
Lemma reset_without_target (w : World) (command : string) (state : GitState) :
  tokens command = ["git"; "reset"] \/ tokens command = ["git"; "reset"; "--hard"] ->
  type (head state) = type_branch ->
  executeGitCommand w command state
  = Throws "TypeError: Cannot read properties of undefined (reading 'includes')".
Proof.
  intros Htok Hty. unfold executeGitCommand.
  destruct Htok as [-> | ->].
  - change (dispatch w ["git"; "reset"] state) with (cmdReset ["git"; "reset"] state).
    unfold cmdReset. rewrite Hty. reflexivity.
  - change (dispatch w ["git"; "reset"; "--hard"] state)
      with (cmdReset ["git"; "reset"; "--hard"] state).
    unfold cmdReset. rewrite Hty. reflexivity.
Qed.

(** C6, on the code. Whenever the engine returns a result that reports
    failure, the snapshot of the result is the one it was given. But the
    engine does not always return: on [git reset] and on
    [git reset --hard], with the initial snapshot, it throws. *)
Theorem reset_throws (w : World) :
  (forall command state r,
     executeGitCommand w command state = Returns r ->
     success r = false ->
     newState r = state)
  /\ executeGitCommand w "git reset" (INITIAL_STATE w)
     = Throws "TypeError: Cannot read properties of undefined (reading 'includes')"
  /\ executeGitCommand w "git reset --hard" (INITIAL_STATE w)
     = Throws "TypeError: Cannot read properties of undefined (reading 'includes')".
Proof.
  split; [|split].
  - intros command state r. apply failure_returns_input.
  - apply reset_without_target; [left|]; reflexivity.
  - apply reset_without_target; [right|]; reflexivity.
Qed.

(** *** Sequences of commands *)

Lemma runCommands_all_succeed (ws : nat -> World) (commands : list string) :
  forall i state outs state' outs',
    succeedAll ws i commands state outs = Some (state', outs') ->
    runCommands ws i commands state outs
    = Done {| published := state'; combinedOutput := JS.join (JS.nl ++ JS.nl) outs';
              allSuccess := true |}.
Proof.
  induction commands as [|c rest IH]; intros i state outs state' outs'; simpl.
  - intros E. injection E as <- <-. reflexivity.
  - destruct (executeGitCommand (ws i) c state) as [r | | |]; try discriminate.
    destruct (success r); [apply IH | discriminate].
Qed.

(** The part of C1 that holds: the commands run from left to right, each on
    the snapshot its predecessor produced; the first one that fails ends the
    loop, and what follows it has no effect on the outcome. The snapshot
    that is published is the working snapshot reached before the failure. *)
Lemma runCommands_first_failure (ws : nat -> World) (pre : list string) :
  forall i state outs state' outs' c r post,
    succeedAll ws i pre state outs = Some (state', outs') ->
    executeGitCommand (ws (i + List.length pre)) c state' = Returns r ->
    success r = false ->
    runCommands ws i (pre ++ c :: post)%list state outs
    = Done {| published := state';
              combinedOutput := JS.join (JS.nl ++ JS.nl) (outs' ++ [output r])%list;
              allSuccess := false |}.
Proof.
  induction pre as [|p pre IH]; intros i state outs state' outs' c r post; simpl.
  - intros E Hc Hs. injection E as <- <-. rewrite Nat.add_0_r in Hc.
    now rewrite Hc, Hs.
  - destruct (executeGitCommand (ws i) p state) as [rp | | |]; try discriminate.
    destruct (success rp); [|discriminate].
    intros E Hc Hs. apply IH; [assumption | | assumption].
    now rewrite Nat.add_succ_comm.
Qed.

(** C1, on the code. The commands of a sequence run from left to right on
    the working snapshot, and the first failure ends the loop, whatever
    follows it. But the snapshot that is published then is the working
    snapshot, not the one the sequence started from. For
    [git commit && git checkout nowhere] on the initial snapshot the commit
    succeeds, the checkout fails, and the published snapshot holds the new
    commit, with [main] moved to it. *)
Theorem failed_sequence_publishes_partial_state :
  (forall ws cmd pre c post state' outs' r,
     cmd <> "clear" ->
     subCommands cmd = (pre ++ c :: post)%list ->
     forall currentState,
       succeedAll ws 0 pre currentState [] = Some (state', outs') ->
       executeGitCommand (ws (List.length pre)) c state' = Returns r ->
       success r = false ->
       handleCommand ws cmd currentState
       = Done {| published := state';
                 combinedOutput := JS.join (JS.nl ++ JS.nl) (outs' ++ [output r])%list;
                 allSuccess := false |})
  /\ (exists p c,
        handleCommand (fun _ => w0) "git commit && git checkout nowhere" (INITIAL_STATE w0)
        = Done p
        /\ allSuccess p = false
        /\ commits (published p) = (commits (INITIAL_STATE w0) ++ [c])%list
        /\ parentId c = Some "init"
        /\ branches (published p) = [ {| name := "main"; commitId := id c |} ]
        /\ branches (INITIAL_STATE w0) = [ {| name := "main"; commitId := "init" |} ]
        /\ id c = "id2-000").
Proof.
  split.
  - intros ws cmd pre c post state' outs' r Hclear Hsub currentState Hpre Hc Hs.
    unfold handleCommand. apply String.eqb_neq in Hclear. rewrite Hclear, Hsub.
    now apply runCommands_first_failure.
  - eexists. eexists. split; [reflexivity|]. repeat split.
Qed.

(** *** Walks along first parents *)

Section Walks.

Variable state : GitState.

Lemma getLineage_loop_ends (fuel : nat) :
  forall curr s,
    List.length (trace state fuel curr) < fuel ->
    exists lineage, getLineage_loop fuel state curr s = Some lineage.
Proof.
  induction fuel as [|fuel IH]; intros curr s Hlt; [simpl in Hlt; lia|].
  simpl in *. destruct curr as [x|]; simpl in *; [|now exists s].
  destruct (JS.truthyS x); [|now exists s].
  apply IH. simpl in Hlt. lia.
Qed.

Lemma parentOf_found (x : string) (c : Commit) :
  findCommit state x = Some c -> parentOf state x = parentId c.
Proof. unfold parentOf. now intros ->. Qed.

Lemma parentOf_missing (x : string) :
  findCommit state x = None -> parentOf state x = None.
Proof. unfold parentOf. now intros ->. Qed.

Lemma trace_None (n : nat) : trace state n None = [].
Proof. now destruct n. Qed.

Lemma commitsToMove_loop_ends (fuel : nat) (baseLineage : list string) :
  forall pointer acc,
    List.length (trace state fuel pointer) < fuel ->
    exists l, commitsToMove_loop fuel state baseLineage pointer acc = Some l.
Proof.
  induction fuel as [|fuel IH]; intros pointer acc Hlt; [simpl in Hlt; lia|].
  simpl in *. destruct pointer as [p|]; simpl in *; [|now exists acc].
  destruct (JS.truthyS p); simpl in *; [|now exists acc].
  destruct (has baseLineage p); simpl; [now exists acc|].
  destruct (findCommit state p) as [c|] eqn:F.
  - apply IH. rewrite (parentOf_found _ _ F) in Hlt. lia.
  - apply IH. rewrite (parentOf_missing _ F) in Hlt. rewrite trace_None in *.
    simpl in Hlt. simpl. lia.
Qed.

(** Every identifier of a trace but the last one is the identifier of a
    commit: it has a parent. *)
Lemma trace_body_commits (n : nat) :
  forall curr, incl (removelast (trace state n curr)) (map id (commits state)).
Proof.
  induction n as [|n IH]; intros curr; simpl; [intros y []|].
  destruct (live curr) as [x|]; [|intros y []].
  destruct (trace state n (parentOf state x)) as [|y t] eqn:T; [intros z []|].
  intros z [<- | Hz].
  - destruct n as [|n]; [discriminate|]. simpl in T.
    unfold parentOf in T. destruct (findCommit state x) as [c|] eqn:F;
      [|discriminate].
    apply findCommit_Some in F. destruct F as [<- Hin]. now apply in_map.
  - apply (IH (parentOf state x)). now rewrite T.
Qed.

Section Ranked.

Variable rank : string -> nat.
Hypothesis rank_decreases :
  forall x p, parentOf state x = Some p -> JS.truthyS p = true -> rank p < rank x.

Lemma live_Some (curr : option string) (x : string) :
  live curr = Some x -> curr = Some x /\ JS.truthyS x = true.
Proof.
  unfold live. destruct curr as [y|]; [|discriminate].
  destruct (JS.truthyS y) eqn:Y; [|discriminate].
  intros E. injection E as <-. now split.
Qed.

Lemma trace_rank (n : nat) :
  forall curr x y, live curr = Some x -> In y (trace state n curr) -> rank y <= rank x.
Proof.
  induction n as [|n IH]; intros curr x y Hl; simpl; [intros []|].
  rewrite Hl. intros [<- | Hy]; [lia|].
  destruct (live (parentOf state x)) as [p|] eqn:Lp.
  - specialize (IH _ _ _ Lp Hy). apply live_Some in Lp. destruct Lp as [Ep Tp].
    pose proof (rank_decreases _ _ Ep Tp). lia.
  - destruct n; simpl in Hy; [contradiction|]. rewrite Lp in Hy. contradiction.
Qed.

Lemma trace_NoDup (n : nat) : forall curr, NoDup (trace state n curr).
Proof.
  induction n as [|n IH]; intros curr; simpl; [constructor|].
  destruct (live curr) as [x|] eqn:Lx; [|constructor].
  constructor; [|apply IH].
  intros Hin. destruct (live (parentOf state x)) as [p|] eqn:Lp.
  - pose proof (trace_rank _ _ _ _ Lp Hin). apply live_Some in Lp.
    destruct Lp as [Ep Tp]. pose proof (rank_decreases _ _ Ep Tp). lia.
  - destruct n; simpl in Hin; [contradiction|]. rewrite Lp in Hin. contradiction.
Qed.

Lemma NoDup_removelast {A} (l : list A) : NoDup l -> NoDup (removelast l).
Proof.
  intros ND. destruct l as [|a l]; [constructor|].
  assert (a :: l <> []) as Hne by discriminate.
  rewrite (app_removelast_last a Hne) in ND.
  now apply NoDup_app_remove_r in ND.
Qed.

Lemma length_removelast {A} (l : list A) :
  List.length l <= S (List.length (removelast l)).
Proof.
  destruct l as [|a l]; [simpl; lia|].
  assert (a :: l <> []) as Hne by discriminate.
  rewrite (app_removelast_last a Hne) at 1. rewrite length_app. simpl. lia.
Qed.

Lemma trace_short (n : nat) (curr : option string) :
  List.length (trace state n curr) < walk_fuel state.
Proof.
  unfold walk_fuel.
  pose proof (length_removelast (trace state n curr)).
  pose proof (NoDup_incl_length (NoDup_removelast _ (trace_NoDup n curr))
                                (trace_body_commits n curr)) as Hle.
  rewrite length_map in Hle. lia.
Qed.

End Ranked.

(** Without a cycle of first parents both walks of [git rebase] end. *)
Lemma commitsToMove_ends (baseId currentTipId : string) :
  firstParentAcyclic state ->
  exists lineage todo,
    getLineage state baseId = Some lineage
    /\ commitsToMove_loop (walk_fuel state) state lineage (Some currentTipId) []
       = Some (rev todo)
    /\ commitsToMove state baseId currentTipId = Some todo.
Proof.
  intros [rank Hrank]. unfold commitsToMove, getLineage.
  destruct (getLineage_loop_ends (walk_fuel state) (Some baseId) []) as [lineage Hl].
  { apply (trace_short rank Hrank). }
  destruct (commitsToMove_loop_ends (walk_fuel state) lineage (Some currentTipId) [])
    as [l Hc].
  { apply (trace_short rank Hrank). }
  exists lineage, (rev l). rewrite Hl, Hc, rev_involutive. repeat split.
Qed.

End Walks.

(** *** First-parent chains

    What the two walks of [git rebase] compute, in terms of the chains of
    first parents: the first one the chain of the base, the second one the
    commits of the chain of the tip down to the first one that the chain of
    the base holds. *)

Section Chains.

Variable state : GitState.

Lemma parentOf_edge (x p : string) :
  parentOf state x = Some p /\ JS.truthyS p = true <-> firstParentEdge state x p.
Proof.
  unfold parentOf, firstParentEdge. split.
  - intros [E T]. destruct (findCommit state x) as [c|]; [|discriminate].
    now exists c.
  - intros [c [F [E T]]]. rewrite F. now split.
Qed.

Lemma live_parent (x p : string) :
  live (parentOf state x) = Some p <-> firstParentEdge state x p.
Proof.
  rewrite <- parentOf_edge. unfold live. split.
  - destruct (parentOf state x) as [q|]; [|discriminate].
    destruct (JS.truthyS q) eqn:T; [|discriminate].
    intros E. injection E as <-. now split.
  - intros [-> ->]. reflexivity.
Qed.

Lemma chain_prepend (x p y : string) :
  JS.truthyS x = true -> firstParentEdge state x p ->
  firstParentChain state p y -> firstParentChain state x y.
Proof.
  intros Tx E H. induction H as [Tp | y z H IH Eyz].
  - apply (chain_next _ _ x); [now apply chain_start | assumption].
  - now apply (chain_next _ _ y).
Qed.

(** A chain is its start, followed by the chain of the first parent of the
    start. *)
Lemma chain_unfold (x y : string) :
  firstParentChain state x y
  <-> JS.truthyS x = true
      /\ (y = x \/ exists p, firstParentEdge state x p /\ firstParentChain state p y).
Proof.
  split.
  - intros H. induction H as [Tx | y z H [Tx IH] Eyz].
    + split; [assumption | now left].
    + split; [assumption|]. right. destruct IH as [-> | [p [Ep Hp]]].
      * exists z. split; [assumption|]. apply chain_start.
        now destruct Eyz as [c [_ [_ T]]].
      * exists p. split; [assumption|]. now apply (chain_next _ _ y).
  - intros [Tx [-> | [p [Ep Hp]]]];
      [now apply chain_start | now apply (chain_prepend x p)].
Qed.

Lemma has_add (s : list string) (x y : string) :
  has (add s x) y = true <-> y = x \/ has s y = true.
Proof.
  unfold add. destruct (has s x) eqn:H.
  - split; [now right | intros [-> | H']; assumption].
  - unfold has. simpl. rewrite orb_true_iff, String.eqb_eq. reflexivity.
Qed.

(** The set that the first walk builds holds, beside what it held, the
    chain of the identifier it starts from. *)
Lemma getLineage_loop_chain (fuel : nat) :
  forall curr s lineage,
    getLineage_loop fuel state curr s = Some lineage ->
    forall x,
      has lineage x = true
      <-> has s x = true
          \/ exists y, live curr = Some y /\ firstParentChain state y x.
Proof.
  induction fuel as [|fuel IH]; intros curr s lineage; simpl; [discriminate|].
  destruct curr as [y|]; simpl.
  2: { intros E. injection E as <-. intros x.
       split; [now left | intros [H | [y [E _]]]; [assumption | discriminate]]. }
  destruct (JS.truthyS y) eqn:T.
  2: { intros E. injection E as <-. intros x.
       split; [now left | intros [H | [y' [E _]]]; [assumption | discriminate]]. }
  intros E x. rewrite (IH _ _ _ E x), has_add. split.
  - intros [[-> | H] | [p [Lp Hp]]].
    + right. exists y. split; [reflexivity | now apply chain_start].
    + now left.
    + right. exists y. split; [reflexivity|].
      apply (chain_prepend y p); [assumption | now apply live_parent | assumption].
  - intros [H | [y' [E' Hc]]]; [left; now right|]. injection E' as <-.
    apply chain_unfold in Hc. destruct Hc as [_ [-> | [p [Ep Hp]]]].
    + left. now left.
    + right. exists p. split; [now apply live_parent | assumption].
Qed.

(** The lineage of the base is its chain of first parents. *)
Lemma getLineage_chain (baseId : string) (lineage : list string) :
  getLineage state baseId = Some lineage ->
  forall x, has lineage x = true <-> firstParentChain state baseId x.
Proof.
  intros E x. rewrite (getLineage_loop_chain _ _ _ _ E x). split.
  - intros [H | [y [L Hc]]]; [discriminate|].
    apply live_Some in L. destruct L as [L _]. now injection L as <-.
  - intros Hc. right. exists baseId. split; [|assumption].
    apply chain_unfold in Hc. destruct Hc as [T _]. unfold live. now rewrite T.
Qed.

Section Collected.

Variable lineage : list string.
Hypothesis lineage_closed :
  forall x z, has lineage x = true -> firstParentEdge state x z -> has lineage z = true.

Variable rank : string -> nat.
Hypothesis rank_decreases :
  forall x p, parentOf state x = Some p -> JS.truthyS p = true -> rank p < rank x.

Lemma lineage_holds_chain (x y : string) :
  has lineage x = true -> firstParentChain state x y -> has lineage y = true.
Proof.
  intros Hx H. induction H as [_ | y z H IH E]; [assumption|].
  now apply (lineage_closed y).
Qed.

(** The second walk adds to its array, from the newest to the oldest, the
    commits of the chain of [pointer] that the lineage does not hold. *)
Lemma commitsToMove_loop_chain (fuel : nat) :
  forall pointer acc l,
    commitsToMove_loop fuel state lineage pointer acc = Some l ->
    exists more,
      l = (acc ++ more)%list
      /\ (forall c,
            In c more
            <-> exists y x,
                  live pointer = Some y /\ firstParentChain state y x
                  /\ has lineage x = false /\ findCommit state x = Some c)
      /\ (forall d rest, more = d :: rest -> live pointer = Some (id d))
      /\ (forall l1 c d l2, more = (l1 ++ c :: d :: l2)%list -> parentId c = Some (id d))
      /\ NoDup (map id more)
      /\ (forall c y, In c more -> live pointer = Some y -> rank (id c) <= rank y).
Proof.
  assert (forall pointer acc,
            (forall y x c, live pointer = Some y -> firstParentChain state y x ->
                           has lineage x = false -> findCommit state x = Some c -> False) ->
            exists more : list Commit,
              acc = (acc ++ more)%list
              /\ (forall c,
                    In c more
                    <-> exists y x,
                          live pointer = Some y /\ firstParentChain state y x
                          /\ has lineage x = false /\ findCommit state x = Some c)
              /\ (forall d rest, more = d :: rest -> live pointer = Some (id d))
              /\ (forall l1 c d l2, more = (l1 ++ c :: d :: l2)%list ->
                                    parentId c = Some (id d))
              /\ NoDup (map id more)
              /\ (forall c y, In c more -> live pointer = Some y -> rank (id c) <= rank y))
    as Nothing.
  { intros pointer acc No. exists []. rewrite app_nil_r. split; [reflexivity|].
    split; [|split; [discriminate | split; [|split; [constructor | intros c y []]]]].
    - intros c. split; [intros [] | intros (y & x & L & Hc & Hn & Hf)].
      exact (No y x c L Hc Hn Hf).
    - intros l1 c d l2 E. destruct l1; discriminate. }
  induction fuel as [|fuel IH]; intros pointer acc l;
    cbn [commitsToMove_loop]; [discriminate|].
  destruct pointer as [p|].
  2: { intros E. injection E as <-. apply Nothing. intros y x c L. discriminate. }
  destruct (JS.truthyS p) eqn:T; cbn [andb].
  2: { intros E. injection E as <-. apply Nothing. intros y x c L.
       unfold live in L. rewrite T in L. discriminate. }
  destruct (has lineage p) eqn:Hp; cbn [negb].
  { intros E. injection E as <-. apply Nothing. intros y x c L Hc Hn _.
    unfold live in L. rewrite T in L. injection L as <-.
    rewrite (lineage_holds_chain p x Hp Hc) in Hn. discriminate. }
  assert (live (Some p) = Some p) as Lp by (unfold live; now rewrite T).
  destruct (findCommit state p) as [c|] eqn:F.
  2: { intros E. destruct fuel as [|fuel']; [discriminate|]. simpl in E.
       injection E as <-. apply Nothing. intros y x c L Hc _ Hf.
       rewrite Lp in L. injection L as <-. apply chain_unfold in Hc.
       destruct Hc as [_ [-> | [q [[c' [F' _]] _]]]]; congruence. }
  intros E. destruct (IH _ _ _ E) as (more & El & Hin & Hhd & Hadj & ND & Hrk).
  pose proof (findCommit_Some _ _ _ F) as [Eid Hcin].
  assert (parentOf state p = parentId c) as Epar by now apply parentOf_found.
  assert (forall c', In c' more -> rank (id c') < rank p) as Below.
  { intros c' Hc'. destruct more as [|d rest]; [contradiction|].
    pose proof (Hhd d rest eq_refl) as Ld.
    pose proof (Hrk c' (id d) Hc' Ld) as Hle.
    apply live_Some in Ld. destruct Ld as [Ed Td]. rewrite <- Epar in Ed.
    pose proof (rank_decreases _ _ Ed Td). lia. }
  exists (c :: more). split; [now rewrite El, <- app_assoc|].
  split; [|split; [|split; [|split]]].
  - intros c'. split.
    + intros [<- | Hc'].
      * exists p, p. split; [assumption|]. split; [now apply chain_start|].
        now split.
      * apply Hin in Hc'. destruct Hc' as (y & x & L & Hc & Hn & Hf).
        exists p, x. split; [assumption|]. split; [|now split].
        apply (chain_prepend p y); [assumption | | assumption].
        apply live_parent. now rewrite Epar.
    + intros (y & x & L & Hc & Hn & Hf). rewrite Lp in L. injection L as <-.
      apply chain_unfold in Hc. destruct Hc as [_ [-> | [q [Eq Hq]]]].
      * left. congruence.
      * right. apply Hin. exists q, x. split; [|now repeat split].
        rewrite <- Epar. now apply live_parent.
  - intros d rest E'. injection E' as <- _. now rewrite Eid.
  - intros l1 a d l2 E'. destruct l1 as [|a0 l1]; simpl in E'.
    + injection E' as <- Em. pose proof (Hhd d l2 Em) as Ld.
      apply live_Some in Ld. now destruct Ld.
    + injection E' as _ Em. now apply (Hadj l1 a d l2).
  - simpl. constructor; [|assumption]. intros Hp'. apply in_map_iff in Hp'.
    destruct Hp' as [c' [Ec' Hc']]. pose proof (Below c' Hc'). rewrite Ec', Eid in H. lia.
  - intros c' y [<- | Hc'] L; rewrite Lp in L; injection L as <-.
    + rewrite Eid. lia.
    + pose proof (Below c' Hc'). lia.
Qed.

End Collected.

(** The commits that a rebase replays: those of the chain of the tip that
    are not on the chain of the base, each once, from the oldest to the
    newest, the newest being the tip. *)
Lemma commitsToMove_chain (baseId tip : string) :
  firstParentAcyclic state ->
  exists todo,
    commitsToMove state baseId tip = Some todo
    /\ (forall c, In c todo <-> toReplay state baseId tip c)
    /\ NoDup (map id todo)
    /\ oldestFirst todo
    /\ last (map id todo) tip = tip.
Proof.
  intros Hacyclic.
  destruct (commitsToMove_ends state baseId tip Hacyclic)
    as [lineage [todo [Hl [Hloop Htodo]]]].
  destruct Hacyclic as [rank Hrank].
  pose proof (getLineage_chain baseId lineage Hl) as Lin.
  assert (forall x z, has lineage x = true -> firstParentEdge state x z ->
                      has lineage z = true) as Closed.
  { intros x z Hx E. apply Lin. apply (chain_next _ _ x); [now apply Lin | assumption]. }
  destruct (commitsToMove_loop_chain lineage Closed rank Hrank _ _ _ _ Hloop)
    as (more & El & Hin & Hhd & Hadj & ND & _).
  simpl in El. subst more.
  exists todo. split; [assumption|]. split; [|split; [|split]].
  - intros c. rewrite (in_rev todo c), Hin. unfold toReplay. split.
    + intros (y & x & L & Hc & Hn & Hf). apply live_Some in L.
      destruct L as [L _]. injection L as <-. exists x. split; [assumption|].
      split; [|assumption]. intros Hb. apply Lin in Hb. congruence.
    + intros (x & Hc & Hn & Hf). exists tip, x.
      split; [|split; [assumption | split; [|assumption]]].
      * apply chain_unfold in Hc. destruct Hc as [T _]. unfold live. now rewrite T.
      * destruct (has lineage x) eqn:Hx; [|reflexivity].
        exfalso. apply Hn. now apply Lin.
  - rewrite <- (rev_involutive todo), map_rev. apply NoDup_rev. assumption.
  - intros l1 c d l2 E. apply (Hadj (rev l2) d c (rev l1)).
    rewrite E, rev_app_distr. simpl. now rewrite <- !app_assoc.
  - destruct (rev todo) as [|d rest] eqn:R.
    + assert (todo = []) as -> by (rewrite <- (rev_involutive todo), R; reflexivity).
      reflexivity.
    + pose proof (Hhd d rest eq_refl) as Ld. apply live_Some in Ld.
      destruct Ld as [Ld _]. injection Ld as Ld.
      assert (todo = (rev rest ++ [d])%list) as ->
        by (rewrite <- (rev_involutive todo), R; reflexivity).
      rewrite map_app. cbn [map]. rewrite last_last. congruence.
Qed.

End Chains.

(** *** Timestamps *)

(** A sum of magnitude at most 2^53 is exact. *)
Lemma roundDouble_exact (z : Z) :
  (- JS.exactBound <= z <= JS.exactBound)%Z -> JS.roundDouble z = z.
Proof.
  intros H. unfold JS.roundDouble. cbv zeta.
  destruct (Z.leb_spec (Z.abs z) JS.exactBound) as [_ | Hgt]; [reflexivity | lia].
Qed.

Lemma fold_max_ge (l : list Z) :
  forall a, (a <= fold_left Z.max l a)%Z
            /\ forall x, In x l -> (x <= fold_left Z.max l a)%Z.
Proof.
  induction l as [|y l IH]; intros a; simpl.
  - split; [lia | intros x []].
  - destruct (IH (Z.max a y)) as [Ha Hl]. split; [lia|].
    intros x [<- | Hx]; [lia | now apply Hl].
Qed.

Lemma fold_max_attained (l : list Z) :
  forall a, fold_left Z.max l a = a \/ In (fold_left Z.max l a) l.
Proof.
  induction l as [|y l IH]; intros a; simpl; [now left|].
  destruct (IH (Z.max a y)) as [E | Hin]; [|now right; right].
  rewrite E. destruct (Z.max_spec a y) as [[_ ->] | [_ ->]]; [right | ]; now left.
Qed.

Lemma maxTimestamp_ge (l : list Commit) (c : Commit) :
  In c l -> (timestamp c <= maxTimestamp l)%Z.
Proof.
  destruct l as [|d l]; [intros []|]. simpl.
  destruct (fold_max_ge (map timestamp l) (timestamp d)) as [Hd Hl].
  intros [<- | Hc]; [assumption|]. apply Hl. now apply in_map.
Qed.

(** The newest timestamp is that of a commit. *)
Lemma maxTimestamp_attained (l : list Commit) :
  l <> [] -> exists c, In c l /\ timestamp c = maxTimestamp l.
Proof.
  destruct l as [|d l]; [congruence|]. intros _. simpl.
  destruct (fold_max_attained (map timestamp l) (timestamp d)) as [E | Hin].
  - exists d. split; [now left | now rewrite E].
  - apply in_map_iff in Hin. destruct Hin as [c [E Hc]]. exists c. split; [now right | assumption].
Qed.

(** Where the sums are exact, the next timestamp is the later one of the
    clock and of the newest timestamp plus 2000. *)
Lemma getNextTimestamp_exact (w : World) (n K : nat) (state : GitState) :
  sumsExact w state K ->
  getNextTimestamp w n state
  = Z.max (Date_now w n) (maxTimestamp (commits state) + 2000).
Proof.
  intros [Hc _]. unfold getNextTimestamp, JS.plus. rewrite roundDouble_exact; [reflexivity|].
  destruct (commits state) as [|d l] eqn:E; [unfold JS.exactBound; simpl; lia|].
  destruct (maxTimestamp_attained (d :: l)) as [c [Hin <-]]; [discriminate|].
  specialize (Hc c Hin). lia.
Qed.

(** *** The copies that a rebase makes *)

Section Replay.

Variable w : World.
Variable state : GitState.

Lemma replay_ids (todo : list Commit) :
  forall n p,
    map id (fst (replay w state n p todo))
    = map (generateShortId w) (seq n (List.length todo)).
Proof.
  induction todo as [|c rest IH]; intros n p; simpl; [reflexivity|].
  specialize (IH (S n) (generateShortId w n)).
  destruct (replay w state (S n) (generateShortId w n) rest) as [more last].
  simpl in *. now rewrite IH.
Qed.

Lemma replay_messages (todo : list Commit) :
  forall n p,
    map message (fst (replay w state n p todo)) = map message todo
    /\ map author (fst (replay w state n p todo)) = map author todo
    /\ Forall (fun c => secondParentId c = None) (fst (replay w state n p todo)).
Proof.
  induction todo as [|c rest IH]; intros n p; simpl; [repeat split; constructor|].
  specialize (IH (S n) (generateShortId w n)).
  destruct (replay w state (S n) (generateShortId w n) rest) as [more last].
  simpl in *. destruct IH as [-> [-> F]]. repeat split. now constructor.
Qed.

Lemma replay_timestamps (todo : list Commit) :
  forall n p,
    map timestamp (fst (replay w state n p todo))
    = map (replayTime w state) (seq n (List.length todo)).
Proof.
  induction todo as [|c rest IH]; intros n p; simpl; [reflexivity|].
  specialize (IH (S n) (generateShortId w n)).
  destruct (replay w state (S n) (generateShortId w n) rest) as [more last].
  simpl in *. now rewrite IH.
Qed.

(** Each copy has the previous copy as its parent, and the first one the
    base. *)
Lemma replay_parents (todo : list Commit) :
  forall n p,
    map parentId (fst (replay w state n p todo))
    = map Some (firstn (List.length todo)
                       (p :: map id (fst (replay w state n p todo)))).
Proof.
  induction todo as [|c rest IH]; intros n p; simpl; [reflexivity|].
  specialize (IH (S n) (generateShortId w n)).
  destruct (replay w state (S n) (generateShortId w n) rest) as [more last].
  simpl in *. now rewrite IH.
Qed.

Lemma last_default {A} (l : list A) (d d' : A) :
  l <> [] -> last l d = last l d'.
Proof.
  induction l as [|a l IH]; [congruence|]. intros _.
  destruct l as [|b l]; [reflexivity|]. simpl in *. apply IH. discriminate.
Qed.

Lemma replay_last (todo : list Commit) :
  forall n p,
    snd (replay w state n p todo) = last (map id (fst (replay w state n p todo))) p.
Proof.
  induction todo as [|c rest IH]; intros n p; simpl; [reflexivity|].
  specialize (IH (S n) (generateShortId w n)).
  destruct (replay w state (S n) (generateShortId w n) rest) as [more lastId] eqn:R.
  simpl in *. rewrite IH. destruct more as [|c0 more]; [reflexivity|].
  apply last_default. discriminate.
Qed.

Lemma replay_length (todo : list Commit) (n : nat) (p : string) :
  List.length (fst (replay w state n p todo)) = List.length todo.
Proof.
  rewrite <- (length_map id), replay_ids, length_map. apply length_seq.
Qed.

(** With exact sums and a clock that is not set back, the copies get
    later and later timestamps. *)
Lemma replayTime_exact (K k : nat) :
  sumsExact w state K -> commits state <> [] -> k < K ->
  replayTime w state k
  = (Z.max (Date_now w k) (maxTimestamp (commits state) + 2000) + Z.of_nat k)%Z.
Proof.
  intros Hx Hne Hk. unfold replayTime, JS.plus.
  rewrite (getNextTimestamp_exact w k K state Hx).
  apply roundDouble_exact.
  destruct Hx as [Hc Hn]. specialize (Hn k Hk).
  destruct (maxTimestamp_attained (commits state) Hne) as [c [Hin <-]].
  specialize (Hc c Hin). lia.
Qed.

Lemma replayTime_sorted (K : nat) :
  (forall i j, i <= j -> (Date_now w i <= Date_now w j)%Z) ->
  sumsExact w state K -> commits state <> [] ->
  forall m n, n + m <= K ->
    StronglySorted Z.lt (map (replayTime w state) (seq n m)).
Proof.
  intros Hclock Hx Hne.
  induction m as [|m IH]; intros n Hle; simpl; constructor; [apply IH; lia|].
  apply Forall_forall. intros t Ht. apply in_map_iff in Ht.
  destruct Ht as [k [<- Hk]]. apply in_seq in Hk.
  rewrite (replayTime_exact K n), (replayTime_exact K k) by (assumption || lia).
  pose proof (Hclock n k ltac:(lia)). lia.
Qed.

End Replay.

(** *** rebase *)

(** C4, amended. [git rebase <ref>] with HEAD attached, the reference
    resolved to the base and no cycle among the first-parent edges (on a
    cycle the walks of the handler never end). The commits to replay are
    those on the first-parent chain of the tip of the current branch that
    are not on the first-parent chain of the base, each once, from the
    oldest to the newest; let K be their number. If K is zero the command
    succeeds and returns the snapshot it was given. Otherwise the new
    commit list is the old one followed by K copies: their identifiers
    are the next K identifiers drawn (new ones whenever the draws are
    new), their messages and authors are those of the commits to replay
    in the same order, the first has the base as its parent and each
    other one the copy before it, and none has a second parent. Their
    timestamps increase strictly when the clock is not set back between
    its readings and the sums that make them are exact (timestamps and
    clock within 2^53). The replayed commits are still in the list, whose
    length grows by K, and the current branch points to the last copy. *)
Theorem rebase_replays (w : World) (command : string) (state : GitState)
    (r : string) (rest : list string) (baseId : string) :
  tokens command = "git" :: "rebase" :: r :: rest ->
  type (head state) = type_branch ->
  resolveRef state (Some r) = Some baseId -> baseId <> "" ->
  firstParentAcyclic state ->
  exists todo,
    (forall c, In c todo <-> toReplay state baseId (getHeadCommitId state) c)
    /\ NoDup (map id todo)
    /\ oldestFirst todo
    /\ last (map id todo) (getHeadCommitId state) = getHeadCommitId state
    /\ (todo = [] ->
        executeGitCommand w command state = Returns (ok state "Already up to date."))
    /\ (todo <> [] ->
        exists result newCommits,
          executeGitCommand w command state = Returns result
          /\ success result = true
          /\ commits (newState result) = (commits state ++ newCommits)%list
          /\ List.length newCommits = List.length todo
          /\ List.length (commits (newState result))
             = List.length (commits state) + List.length todo
          /\ map id newCommits = map (generateShortId w) (seq 0 (List.length todo))
          /\ map message newCommits = map message todo
          /\ map author newCommits = map author todo
          /\ map parentId newCommits
             = map Some (firstn (List.length todo) (baseId :: map id newCommits))
          /\ Forall (fun c => secondParentId c = None) newCommits
          /\ ((forall i j, i <= j -> (Date_now w i <= Date_now w j)%Z) ->
              sumsExact w state (List.length todo) ->
              StronglySorted Z.lt (map timestamp newCommits))
          /\ (forall c, In c todo -> In c (commits (newState result)))
          /\ branches (newState result)
             = pointTo (ref (head state)) (last (map id newCommits) baseId)
                       (branches state)
          /\ (In (ref (head state)) (map name (branches state)) ->
              getHeadCommitId (newState result) = last (map id newCommits) baseId)
          /\ tags (newState result) = tags state
          /\ head (newState result) = head state
          /\ ((forall k, k < List.length todo ->
                 ~ In (generateShortId w k) (map id (commits state))) ->
              forall c, In c newCommits -> ~ In (id c) (map id (commits state)))).
Proof.
  intros Htok Hty Hres Hbase Hacyclic.
  destruct (commitsToMove_chain state baseId (getHeadCommitId state) Hacyclic)
    as (todo & Htodo & Hin & ND & Hord & Hlast).
  exists todo. split; [assumption|]. split; [assumption|].
  split; [assumption|]. split; [assumption|].
  assert (forall c, In c todo -> In c (commits state)) as Hold.
  { intros c Hc. apply Hin in Hc. destruct Hc as (x & _ & _ & F).
    now apply findCommit_Some in F. }
  unfold executeGitCommand. rewrite Htok.
  change (dispatch w ("git" :: "rebase" :: r :: rest) state)
    with (cmdRebase w ("git" :: "rebase" :: r :: rest) state).
  unfold cmdRebase. change (part ("git" :: "rebase" :: r :: rest) 2) with (Some r).
  rewrite Hres, Hty.
  assert (JS.truthy (Some baseId) = true) as -> by (destruct baseId; [congruence | reflexivity]).
  cbv beta iota delta [negb isBranch JS.show]. rewrite Htodo.
  split.
  - intros ->. reflexivity.
  - intros Hne. destruct todo as [|c0 todo']; [congruence|].
    set (todo := c0 :: todo') in *.
    pose proof (replay_ids w state todo 0 baseId) as Hids.
    pose proof (replay_messages w state todo 0 baseId) as [Hmsg [Haut Hsnd]].
    pose proof (replay_timestamps w state todo 0 baseId) as Hts.
    pose proof (replay_parents w state todo 0 baseId) as Hpar.
    pose proof (replay_last w state todo 0 baseId) as Hlast'.
    pose proof (replay_length w state todo 0 baseId) as Hlen.
    destruct (replay w state 0 baseId todo) as [newCommits newParentId].
    simpl fst in *. simpl snd in *. subst newParentId.
    eexists. exists newCommits. split; [reflexivity|].
    cbv beta iota delta [newState success ok commits branches tags head].
    repeat split; try assumption.
    + rewrite length_app. lia.
    + intros Hclock Hx. rewrite Hts.
      apply (replayTime_sorted w state (List.length todo)); try assumption; [|lia].
      intros E. specialize (Hold c0 (or_introl eq_refl)). rewrite E in Hold.
      contradiction.
    + intros c Hc. apply in_or_app. left. now apply Hold.
    + intros Hhd. now apply getHeadCommitId_pointTo.
    + intros Hfresh c Hc Hold'. apply (in_map id) in Hc. rewrite Hids in Hc.
      apply in_map_iff in Hc. destruct Hc as [k [Ek Hk]]. apply in_seq in Hk.
      apply (Hfresh k); [lia | now rewrite Ek].
Qed.

Lemma twoAhead_acyclic : firstParentAcyclic twoAhead.
Proof.
  exists twoAhead_rank. intros x p. unfold parentOf, findCommit.
  cbn -[String.eqb].
  destruct ("a" =? x) eqn:A; [discriminate|].
  destruct ("b" =? x) eqn:B.
  { apply String.eqb_eq in B. subst x. intros E _. injection E as <-.
    unfold twoAhead_rank. simpl. lia. }
  destruct ("b2" =? x) eqn:B2.
  { apply String.eqb_eq in B2. subst x. intros E _. injection E as <-.
    unfold twoAhead_rank. simpl. lia. }
  destruct ("c" =? x) eqn:C; [|discriminate].
  apply String.eqb_eq in C. subst x. intros E _. injection E as <-.
  unfold twoAhead_rank. simpl. lia.
Defined.

Lemma w0_clock_monotone : forall i j, i <= j -> (Date_now w0 i <= Date_now w0 j)%Z.
Proof. intros i j H. unfold w0. cbn [Date_now]. lia. Defined.

Lemma w0_twoAhead_exact : sumsExact w0 twoAhead 2.
Proof.
  unfold sumsExact, JS.exactBound. split.
  - intros c [<- | [<- | [<- | [<- | []]]]]; simpl; lia.
  - intros k Hk. unfold w0. cbn [Date_now]. lia.
Defined.

Lemma rebase_replays_witness :
  exists todo result newCommits,
    In (plainCommit "b2" (Some "b") 3) todo
    /\ executeGitCommand w0 "git rebase side" twoAhead = Returns result
    /\ commits (newState result) = (commits twoAhead ++ newCommits)%list
    /\ List.length newCommits = List.length todo
    /\ map message newCommits = map message todo
    /\ map parentId newCommits
       = map Some (firstn (List.length todo) ("c" :: map id newCommits))
    /\ StronglySorted Z.lt (map timestamp newCommits)
    /\ getHeadCommitId (newState result) = last (map id newCommits) "c".
Proof.
  destruct (rebase_replays w0 "git rebase side" twoAhead "side" [] "c" eq_refl eq_refl
              eq_refl ltac:(discriminate) twoAhead_acyclic)
    as (todo & Hin & _ & _ & _ & _ & Hgo).
  assert (In (plainCommit "b2" (Some "b") 3) todo) as I2.
  { apply Hin. exists "b2". split; [now apply chain_start|]. split; [|reflexivity].
    intros H. apply chain_unfold in H.
    destruct H as [_ [H | (p & (c & F & E & _) & H)]]; [discriminate|].
    vm_compute in F. injection F as <-. injection E as <-.
    apply chain_unfold in H.
    destruct H as [_ [H | (p & (c & F & E & _) & H)]]; [discriminate|].
    vm_compute in F. injection F as <-. discriminate. }
  assert (todo <> []) as Hne by (intros ->; contradiction).
  destruct (Hgo Hne)
    as (result & newCommits & E & _ & Hc & Hl & _ & _ & Hm & _ & Hp & _ & Hs & _ & _
        & Hh & _).
  assert (List.length todo = 2) as L2.
  { rewrite <- Hl. apply (f_equal (@List.length Commit)) in Hc.
    rewrite length_app in Hc. vm_compute in E. injection E as <-.
    simpl in Hc. lia. }
  exists todo, result, newCommits. repeat split; try assumption.
  - apply Hs; [apply w0_clock_monotone|]. rewrite L2. apply w0_twoAhead_exact.
  - apply Hh. simpl. tauto.
Defined.

(** *** A walk that uses up its fuel never ends

    The fuel of the two walks of [git rebase] is a device of the embedding.
    The lemmas below show that it never cuts short a walk that JavaScript
    would finish: a walk that is still going after [walk_fuel] tests has
    come back to a commit it already passed, and goes on for ever. *)

Section Exhaustion.

Variable state : GitState.
Variable stop : string -> bool.

Lemma liveS_Some (curr : option string) (x : string) :
  liveS stop curr = Some x -> curr = Some x /\ liveS stop (Some x) = Some x.
Proof.
  unfold liveS. destruct curr as [y|]; [|discriminate].
  destruct (JS.truthyS y && negb (stop y)) eqn:Y; [|discriminate].
  intros E. injection E as <-. now rewrite Y.
Qed.

Lemma walkTo_add (a b : nat) :
  forall curr,
    walkTo state stop (a + b) curr
    = match walkTo state stop a curr with
      | Some x => walkTo state stop b (Some x)
      | None => None
      end.
Proof.
  induction a as [|a IH]; intros curr; simpl.
  - destruct (liveS stop curr) as [x|] eqn:L.
    + apply liveS_Some in L. destruct L as [-> _]. reflexivity.
    + destruct b; simpl; now rewrite L.
  - destruct (liveS stop curr) as [x|]; [apply IH | reflexivity].
Qed.

(** A walk that passes test [k] passed every test before it. *)
Lemma walkTo_earlier (k j : nat) (curr : option string) :
  j <= k -> walkTo state stop k curr <> None -> walkTo state stop j curr <> None.
Proof.
  intros Hle Hk Hj. apply Hk.
  replace k with (j + (k - j)) by lia. now rewrite walkTo_add, Hj.
Qed.

(** The identifier that passes test [k] is that of a commit when test
    [k + 1] is passed too. *)
Lemma walkTo_commit (k : nat) (curr : option string) :
  walkTo state stop (S k) curr <> None ->
  exists x, walkTo state stop k curr = Some x /\ In x (map id (commits state)).
Proof.
  replace (S k) with (k + 1) by lia. rewrite walkTo_add.
  destruct (walkTo state stop k curr) as [x|]; [|congruence].
  intros H. exists x. split; [reflexivity|].
  simpl in H. destruct (JS.truthyS x && negb (stop x)); [|congruence].
  unfold parentOf in H. destruct (findCommit state x) as [c|] eqn:F.
  - apply findCommit_Some in F. destruct F as [<- Hin]. now apply in_map.
  - simpl in H. congruence.
Qed.

End Exhaustion.

Lemma repeat_or_NoDup (f : nat -> string) (n : nat) :
  (exists i j, i < j /\ j < n /\ f i = f j) \/ NoDup (map f (seq 0 n)).
Proof.
  induction n as [|n IH]; [right; constructor|].
  destruct IH as [[i [j [Hij [Hj E]]]] | ND].
  - left. exists i, j. repeat split; [lia | lia | assumption].
  - rewrite seq_S, map_app. simpl.
    destruct (in_dec string_dec (f n) (map f (seq 0 n))) as [Hin | Hnot].
    + left. apply in_map_iff in Hin. destruct Hin as [i [E Hi]].
      apply in_seq in Hi. exists i, n. repeat split; [lia | lia | assumption].
    + right. apply NoDup_app; [assumption | repeat constructor; intros [] |].
      intros a Ha [<- | []]. contradiction.
Qed.

Section Forever.

Variable state : GitState.
Variable stop : string -> bool.

(** A walk that comes back to where it was goes round for ever. *)
Lemma walkTo_cycle (x : string) (d : nat) :
  0 < d ->
  walkTo state stop d (Some x) = Some x ->
  forall k, walkTo state stop k (Some x) <> None.
Proof.
  intros Hd Hback k. induction k as [k IH] using lt_wf_ind.
  destruct (Nat.lt_ge_cases k d) as [Hlt | Hge].
  - apply (walkTo_earlier state stop d k); [lia | congruence].
  - replace k with (d + (k - d)) by lia. rewrite walkTo_add, Hback.
    apply IH. lia.
Qed.

(** A walk that passes [walk_fuel] tests (the last one is number
    [length commits + 1]) passes every test. *)
Lemma walkTo_forever (curr : option string) :
  walkTo state stop (S (List.length (commits state))) curr <> None ->
  forall k, walkTo state stop k curr <> None.
Proof.
  intros Hlong k.
  set (n := List.length (commits state)) in *.
  assert (forall i, i <= n ->
            walkTo state stop i curr = Some (passed state stop curr i)
            /\ In (passed state stop curr i) (map id (commits state))) as Hbody.
  { intros i Hi.
    destruct (walkTo_commit state stop i curr) as [x [Ex Hx]].
    - apply (walkTo_earlier state stop (S n)); [lia | assumption].
    - unfold passed. rewrite Ex. now split. }
  destruct (repeat_or_NoDup (passed state stop curr) (S n)) as [[i [j [Hij [Hj E]]]] | ND].
  - destruct (Hbody i ltac:(lia)) as [Wi _].
    destruct (Hbody j ltac:(lia)) as [Wj _].
    assert (walkTo state stop (j - i) (Some (passed state stop curr i)) = Some (passed state stop curr i))
      as Hback.
    { pose proof (walkTo_add state stop i (j - i) curr) as Hadd.
      replace (i + (j - i)) with j in Hadd by lia.
      rewrite Wj, Wi in Hadd. rewrite <- Hadd. now rewrite E. }
    destruct (Nat.le_gt_cases k i) as [Hle | Hgt].
    + apply (walkTo_earlier state stop i k); [assumption | congruence].
    + replace k with (i + (k - i)) by lia. rewrite walkTo_add, Wi.
      apply (walkTo_cycle _ (j - i)); [lia | assumption].
  - exfalso.
    assert (incl (map (passed state stop curr) (seq 0 (S n))) (map id (commits state))) as Hincl.
    { intros y Hy. apply in_map_iff in Hy. destruct Hy as [i [<- Hi]].
      apply in_seq in Hi. apply Hbody. lia. }
    pose proof (NoDup_incl_length ND Hincl) as Hlen.
    rewrite !length_map, length_seq in Hlen. unfold n in Hlen. lia.
Qed.

End Forever.

Section FuelIsEnough.

Variable state : GitState.

Lemma getLineage_loop_None (fuel : nat) :
  forall curr s,
    getLineage_loop (S fuel) state curr s = None
    <-> walkTo state (fun _ => false) fuel curr <> None.
Proof.
  induction fuel as [|fuel IH]; intros curr s.
  - simpl. destruct curr as [x|]; simpl; [|split; congruence].
    destruct (JS.truthyS x); simpl; split; congruence.
  - change (getLineage_loop (S (S fuel)) state curr s)
      with (match curr with
            | Some x =>
                if JS.truthyS x
                then getLineage_loop (S fuel) state (parentOf state x) (add s x)
                else Some s
            | None => Some s
            end).
    simpl walkTo. destruct curr as [x|]; simpl; [|split; congruence].
    destruct (JS.truthyS x); simpl; [apply IH | split; congruence].
Qed.

Lemma commitsToMove_loop_None (fuel : nat) (baseLineage : list string) :
  forall pointer acc,
    commitsToMove_loop (S fuel) state baseLineage pointer acc = None
    <-> walkTo state (has baseLineage) fuel pointer <> None.
Proof.
  induction fuel as [|fuel IH]; intros pointer acc.
  - simpl. destruct pointer as [p|]; simpl; [|split; congruence].
    destruct (JS.truthyS p && negb (has baseLineage p)); simpl.
    + destruct (findCommit state p); split; congruence.
    + split; congruence.
  - change (commitsToMove_loop (S (S fuel)) state baseLineage pointer acc)
      with (match pointer with
            | Some p =>
                if JS.truthyS p && negb (has baseLineage p)
                then
                  match findCommit state p with
                  | Some c =>
                      commitsToMove_loop (S fuel) state baseLineage (parentId c)
                        (acc ++ [c])%list
                  | None => commitsToMove_loop (S fuel) state baseLineage None acc
                  end
                else Some acc
            | None => Some acc
            end).
    simpl walkTo. destruct pointer as [p|]; simpl; [|split; congruence].
    destruct (JS.truthyS p && negb (has baseLineage p)); simpl; [|split; congruence].
    unfold parentOf. destruct (findCommit state p) as [c|]; [apply IH|].
    split; [discriminate|]. intros H. exfalso. apply H. now destruct fuel.
Qed.

(** The outcome [Diverges] of the embedding stands for a loop that does
    not end: when the fuel [walk_fuel] is not enough for one of the two
    walks, no fuel is. *)
Lemma walks_out_of_fuel_never_end (baseId currentTipId : string) :
  commitsToMove state baseId currentTipId = None ->
  (forall fuel s, getLineage_loop fuel state (Some baseId) s = None)
  \/ (exists baseLineage,
        getLineage state baseId = Some baseLineage
        /\ forall fuel acc,
             commitsToMove_loop fuel state baseLineage (Some currentTipId) acc = None).
Proof.
  unfold commitsToMove, getLineage, walk_fuel.
  replace (List.length (commits state) + 2) with (S (S (List.length (commits state))))
    by lia.
  destruct (getLineage_loop (S (S (List.length (commits state)))) state (Some baseId) [])
    as [baseLineage|] eqn:L.
  - intros H. right. exists baseLineage. split; [reflexivity|].
    destruct (commitsToMove_loop _ state baseLineage (Some currentTipId) [])
      as [l|] eqn:C; [discriminate|].
    apply commitsToMove_loop_None in C.
    intros fuel acc. destruct fuel as [|fuel]; [reflexivity|].
    apply commitsToMove_loop_None. now apply walkTo_forever.
  - intros _. left. apply getLineage_loop_None in L.
    intros fuel s. destruct fuel as [|fuel]; [reflexivity|].
    apply getLineage_loop_None. now apply walkTo_forever.
Qed.

End FuelIsEnough.

(** C4 as the specification states it fails in three ways. On a snapshot
    whose first-parent edges form a cycle under the tip (here with two
    commits to replay) the handler never returns: the walk from the tip
    ends with no amount of fuel. When the clock is set back between two of
    its readings, or when the timestamps are past 2^53 (here 2^60), where
    a double sum rounds, the copies are made and their timestamps do not
    increase. *)
Lemma rebase_replays_not_always :
  (toReplay looped "c" "a" (plainCommit "a" (Some "b") 1)
   /\ toReplay looped "c" "a" (plainCommit "b" (Some "a") 2)
   /\ executeGitCommand w0 "git rebase side" looped = Diverges
   /\ getLineage looped "c" = Some ["c"]
   /\ forall fuel acc,
        commitsToMove_loop fuel looped ["c"] (Some "a") acc = None)
  /\ (exists result,
        executeGitCommand setBack "git rebase side" twoAhead = Returns result
        /\ map timestamp (skipn 4 (commits (newState result)))
           = [1000000; 500001]%Z)
  /\ (exists result,
        executeGitCommand w0 "git rebase side"
          (dated 1152921504606846976 twoAhead) = Returns result
        /\ map timestamp (skipn 4 (commits (newState result)))
           = [1152921504606849024; 1152921504606849024]%Z).
Proof.
  assert (forall x, firstParentChain looped "c" x -> x = "c") as Root.
  { intros x H. induction H as [_ | y z _ -> E]; [reflexivity|].
    destruct E as [c [F [E _]]]. vm_compute in F. injection F as <-. discriminate. }
  assert (firstParentChain looped "a" "a") as A by now apply chain_start.
  assert (firstParentChain looped "a" "b") as B.
  { apply (chain_next _ _ "a"); [assumption|].
    exists (plainCommit "a" (Some "b") 1). repeat split. }
  split; [|split].
  - split; [|split; [|split; [reflexivity | split; [reflexivity|]]]].
    + exists "a". split; [assumption|]. split; [|reflexivity].
      intros H. apply Root in H. discriminate.
    + exists "b". split; [assumption|]. split; [|reflexivity].
      intros H. apply Root in H. discriminate.
    + destruct (walks_out_of_fuel_never_end looped "c" "a" eq_refl)
        as [Never | [baseLineage [E Never]]].
      * specialize (Never 3 []). discriminate.
      * vm_compute in E. injection E as <-. exact Never.
  - eexists. split; reflexivity.
  - eexists. split; reflexivity.
Qed.

(* ================================================================== *)
(** ** Further properties of the repository model *)
(* ================================================================== *)

(** *** Ancestry *)

Lemma reaches_trans (state : GitState) (x y z : string) :
  reaches state x y -> reaches state y z -> reaches state x z.
Proof.
  intros Hxy Hyz. induction Hyz as [|u v Hyu IH Huv]; [assumption|].
  now apply (reaches_parent _ _ u).
Qed.

(** X1. [isAncestor] decides reachability in the commit graph: it answers
    true exactly when the candidate is reached from the descendant along
    first-parent and second-parent edges, whatever the shape of the graph
    (merges, dangling parents, cycles). It is therefore transitive. *)
Theorem isAncestor_is_reachability (state : GitState) :
  (forall a d, isAncestor state a d = true <-> reaches state d a)
  /\ (forall a b c,
        isAncestor state a b = true -> isAncestor state b c = true ->
        isAncestor state a c = true).
Proof.
  split.
  - intros a d. apply isAncestor_reaches.
  - intros a b c Hab Hbc. apply isAncestor_reaches.
    apply isAncestor_reaches in Hab, Hbc. now apply (reaches_trans _ _ b).
Qed.

(** *** Timestamps *)

(** Past 2^53 the sum with 2000 rounds: after a commit dated 2^64 the
    next timestamp is 2^64 again. *)
Lemma getNextTimestamp_rounds :
  getNextTimestamp w0 0 (dated 18446744073709551616 twoAhead)
  = 18446744073709551616%Z.
Proof. reflexivity. Qed.

(** X2. Where the sum is exact (the timestamps of the snapshot are
    integers of magnitude at most 2^53, and stay so when 2000 is added),
    the timestamp that [getNextTimestamp] hands out is not before the
    clock value it reads, and it is at least 2000 later than the timestamp
    of every commit of the snapshot; on a snapshot without commits it is at
    least 2000. *)
Theorem getNextTimestamp_newer (w : World) (n : nat) (state : GitState) :
  sumsExact w state 0 ->
  (Date_now w n <= getNextTimestamp w n state)%Z
  /\ (forall c, In c (commits state) ->
        (timestamp c + 2000 <= getNextTimestamp w n state)%Z)
  /\ (2000 <= getNextTimestamp w n state \/ commits state <> [])%Z.
Proof.
  intros Hx. rewrite (getNextTimestamp_exact w n 0 state Hx).
  split; [lia|]. split.
  - intros c Hc. pose proof (maxTimestamp_ge _ _ Hc). lia.
  - destruct (commits state); [left; simpl; lia | right; discriminate].
Qed.

Lemma sumsExact_fewer (w : World) (state : GitState) (K K' : nat) :
  K' <= K -> sumsExact w state K -> sumsExact w state K'.
Proof.
  intros Hle [Hc Hn]. split.
  - intros c Hin. specialize (Hc c Hin). lia.
  - intros k Hk. specialize (Hn k ltac:(lia)). lia.
Defined.

Lemma getNextTimestamp_newer_witness :
  (Date_now w0 0 <= getNextTimestamp w0 0 twoAhead)%Z
  /\ (timestamp (plainCommit "c" (Some "a") 4) + 2000
      <= getNextTimestamp w0 0 twoAhead)%Z.
Proof.
  destruct (getNextTimestamp_newer w0 0 twoAhead
              (sumsExact_fewer w0 twoAhead 2 0 ltac:(lia) w0_twoAhead_exact))
    as [Hclock [Hnewer _]].
  split; [assumption|]. apply Hnewer. simpl. tauto.
Defined.

(** *** Tokens of a command *)

Lemma consHead_nonempty (c : ascii) (l : list string) :
  JS.isSpace c = false ->
  Forall (fun t => noSpace t = true) l ->
  Forall isWord (tl l) ->
  Forall isWord (JS.consHead c l).
Proof.
  intros Hc Hs Ht. unfold JS.consHead. destruct l as [|t l]; simpl in *.
  - constructor; [|constructor]. split; [discriminate|]. simpl. now rewrite Hc.
  - constructor; [|assumption]. inversion Hs; subst.
    split; [discriminate|]. simpl. now rewrite Hc.
Qed.

Lemma splitWsFrom_noSpace (s : string) :
  forall b, Forall (fun t => noSpace t = true) (JS.splitWsFrom b s).
Proof.
  induction s as [|c s IH]; intros b; simpl; [repeat constructor|].
  destruct (JS.isSpace c) eqn:Hc.
  - destruct b; [apply IH | constructor; [reflexivity | apply IH]].
  - specialize (IH false). unfold JS.consHead.
    destruct (JS.splitWsFrom false s) as [|t l]; simpl.
    + constructor; [|constructor]. simpl. now rewrite Hc.
    + inversion IH; subst. constructor; [|assumption]. simpl. now rewrite Hc.
Qed.

Lemma endsInWord_tail (c : ascii) (s : string) :
  endsInWord (String c s) = true -> s = EmptyString \/ endsInWord s = true.
Proof. destruct s; [now left | right; assumption]. Qed.

Lemma endsInWord_space (c : ascii) (s : string) :
  JS.isSpace c = true -> endsInWord (String c s) = true -> endsInWord s = true.
Proof.
  intros Hc E. destruct s; [|exact E].
  cbn [endsInWord] in E. rewrite Hc in E. discriminate.
Qed.

(** In a string that ends in a word, every piece after the first is a
    word, and every piece is one when the scan starts in a separator. *)
Lemma splitWsFrom_words (s : string) :
  (s = EmptyString \/ endsInWord s = true ->
   Forall isWord (tl (JS.splitWsFrom false s)))
  /\ (endsInWord s = true -> Forall isWord (JS.splitWsFrom true s)).
Proof.
  induction s as [|c s [IHf IHt]].
  - split; [constructor | discriminate].
  - assert (forall (E : s = EmptyString \/ endsInWord s = true),
              JS.isSpace c = false ->
              Forall isWord (JS.consHead c (JS.splitWsFrom false s))) as Word.
    { intros E Hc. apply consHead_nonempty;
        [assumption | apply splitWsFrom_noSpace | now apply IHf]. }
    cbn [JS.splitWsFrom]. split.
    + intros [E | E]; [discriminate|].
      destruct (JS.isSpace c) eqn:Hc.
      * cbn [tl]. apply IHt. now apply (endsInWord_space c).
      * apply endsInWord_tail in E. specialize (Word E eq_refl).
        destruct (JS.consHead c (JS.splitWsFrom false s)); [constructor|].
        now inversion Word.
    + intros E. destruct (JS.isSpace c) eqn:Hc.
      * apply IHt. now apply (endsInWord_space c).
      * apply Word; [|reflexivity]. now apply endsInWord_tail in E.
Qed.

Lemma trimEnd_endsInWord (s : string) :
  JS.trimEnd s = EmptyString \/ endsInWord (JS.trimEnd s) = true.
Proof.
  induction s as [|c s IH]; simpl; [now left|].
  destruct (JS.trimEnd s) as [|d t] eqn:T.
  - destruct (JS.isSpace c) eqn:Hc; [now left|]. right. simpl. now rewrite Hc.
  - right. destruct IH as [IH | IH]; [discriminate|]. exact IH.
Qed.

Lemma trimStart_head (s : string) :
  match JS.trimStart s with
  | EmptyString => True
  | String c _ => JS.isSpace c = false
  end.
Proof.
  induction s as [|c s IH]; simpl; [exact I|].
  destruct (JS.isSpace c) eqn:Hc; [exact IH | exact Hc].
Qed.

Lemma trimEnd_head (c : ascii) (s : string) :
  JS.isSpace c = false -> exists t, JS.trimEnd (String c s) = String c t.
Proof.
  intros Hc. simpl. destruct (JS.trimEnd s) as [|d t].
  - rewrite Hc. now exists EmptyString.
  - now exists (String d t).
Qed.

(** X3. The tokens of a command, [command.trim().split(/\s+/)], are words:
    none is empty and none holds white space. The one exception is the
    blank command, whose only token is the empty string. *)
Theorem tokens_are_words (command : string) :
  (JS.trim command = EmptyString /\ tokens command = [EmptyString])
  \/ (JS.trim command <> EmptyString /\ Forall isWord (tokens command)).
Proof.
  unfold tokens, JS.trim, JS.splitWs.
  pose proof (trimStart_head command) as Hhead.
  destruct (JS.trimStart command) as [|c s] eqn:Ts; [left; now split|].
  destruct (trimEnd_head c s Hhead) as [t Ht]. rewrite Ht.
  right. split; [discriminate|].
  assert (endsInWord (String c t) = true) as E.
  { destruct (trimEnd_endsInWord (String c s)) as [E | E]; rewrite Ht in E;
      [discriminate | exact E]. }
  simpl. rewrite Hhead. apply consHead_nonempty;
    [assumption | apply splitWsFrom_noSpace |].
  apply (proj1 (splitWsFrom_words t)). now apply endsInWord_tail in E.
Qed.

(** *** Well-formed snapshots *)

Lemma refsKnown_mono (S S' : list string) (bs : list Branch) :
  incl S S' -> refsKnown S bs -> refsKnown S' bs.
Proof. intros Hi. unfold refsKnown. apply Forall_impl. intros b. apply Hi. Qed.

Lemma parentsKnown_mono (S S' : list string) (cs : list Commit) :
  incl S S' -> Forall (parentsKnown S) cs -> Forall (parentsKnown S') cs.
Proof.
  intros Hi. apply Forall_impl. intros c [H1 H2].
  split; intros p E; apply Hi; auto.
Qed.

Lemma headKnown_mono (S S' : list string) (bs bs' : list Branch) (h : Head) :
  incl S S' -> incl (map name bs) (map name bs') ->
  headKnown S bs h -> headKnown S' bs' h.
Proof. unfold headKnown. intros Hs Hb. destruct (type h); [apply Hb | apply Hs]. Qed.

Lemma refsKnown_pointTo (S : list string) (n c : string) (bs : list Branch) :
  In c S -> refsKnown S bs -> refsKnown S (pointTo n c bs).
Proof.
  intros Hc H. unfold refsKnown, pointTo. apply Forall_map.
  eapply Forall_impl; [|exact H]. intros b Hb.
  destruct (name b =? n); simpl; assumption.
Qed.

Lemma refsKnown_rename (S : list string) (n n' : string) (bs : list Branch) :
  refsKnown S bs -> refsKnown S (rename n n' bs).
Proof.
  intros H. unfold refsKnown, rename. apply Forall_map.
  eapply Forall_impl; [|exact H]. intros b Hb.
  destruct (name b =? n); simpl; assumption.
Qed.

Lemma refsKnown_add (S : list string) (bs : list Branch) (b : Branch) :
  In (commitId b) S -> refsKnown S bs -> refsKnown S (bs ++ [b])%list.
Proof.
  intros Hb H. unfold refsKnown. apply Forall_app. split; [exact H|].
  constructor; [exact Hb | constructor].
Qed.

Lemma refsKnown_filter (S : list string) (p : Branch -> bool) (bs : list Branch) :
  refsKnown S bs -> refsKnown S (filter p bs).
Proof.
  unfold refsKnown. rewrite !Forall_forall. intros H b Hb.
  apply filter_In in Hb. now apply H.
Qed.

Lemma rename_names (a n : string) (bs : list Branch) :
  In a (map name bs) -> In n (map name (rename a n bs)).
Proof.
  induction bs as [|b bs IH]; simpl; [contradiction|].
  destruct (name b =? a) eqn:E.
  - intros _. now left.
  - intros [Hb | Hin]; [|right; now apply IH].
    apply String.eqb_neq in E. contradiction.
Qed.

Lemma length_append (p s : string) :
  String.length (p ++ s) = String.length p + String.length s.
Proof. induction p as [|c p IH]; simpl; [reflexivity | now rewrite IH]. Qed.

Lemma prefixed_differs (p s : string) : p <> EmptyString -> (p ++ s) <> s.
Proof.
  intros Hp E. apply (f_equal String.length) in E.
  rewrite length_append in E.
  destruct p; [congruence | simpl in E; lia].
Qed.

Lemma sortNewestFirst_In (l : list Commit) (c : Commit) :
  In c (sortNewestFirst l) <-> In c l.
Proof.
  assert (forall d l', In c (insertNewestFirst d l') <-> c = d \/ In c l') as Ins.
  { intros d l'. induction l' as [|e l' IH]; simpl.
    - intuition congruence.
    - destruct (timestamp d <? timestamp e)%Z; simpl; [rewrite IH|];
        intuition congruence. }
  induction l as [|d l IH]; simpl; [tauto|].
  rewrite Ins, IH. intuition congruence.
Qed.

Lemma amendCommits_ids (w : World) (headId newMessage : string) (l : list Commit) :
  forall n, map id (amendCommits w n headId newMessage l) = map id l.
Proof.
  induction l as [|c l IH]; intros n; simpl; [reflexivity|].
  destruct (id c =? headId); simpl; now rewrite IH.
Qed.

Lemma amendCommits_parents (w : World) (headId newMessage : string) (S : list string)
    (l : list Commit) :
  forall n, Forall (parentsKnown S) l ->
            Forall (parentsKnown S) (amendCommits w n headId newMessage l).
Proof.
  induction l as [|c l IH]; intros n H; simpl; [constructor|].
  inversion H; subst. destruct (id c =? headId); constructor; auto.
Qed.

Lemma replay_known (w : World) (state : GitState) (todo : list Commit) :
  forall n p K,
    In p K ->
    Forall (parentsKnown (K ++ map id (fst (replay w state n p todo)))) 
           (fst (replay w state n p todo))
    /\ In (snd (replay w state n p todo))
          (K ++ map id (fst (replay w state n p todo))).
Proof.
  induction todo as [|c rest IH]; intros n p K Hp; simpl.
  - split; [constructor | rewrite app_nil_r; exact Hp].
  - specialize (IH (S n) (generateShortId w n) (K ++ [generateShortId w n])%list).
    destruct (replay w state (S n) (generateShortId w n) rest) as [more last].
    simpl in *. rewrite <- app_assoc in IH. simpl in IH.
    destruct IH as [IHp IHl]; [apply in_or_app; right; now left|].
    split; [|exact IHl]. constructor; [|exact IHp].
    split; simpl; intros q E; [|discriminate].
    injection E as <-. apply in_or_app. now left.
Qed.

Section WellFormed.

Variable state : GitState.
Hypothesis WF : wellFormed state.

Lemma wf_branch (x : string) (b : Branch) :
  findBranch state x = Some b -> In (commitId b) (ids state).
Proof.
  intros F. apply findBranch_Some in F. destruct F as [_ Hin].
  destruct WF as [Hb _]. unfold refsKnown in Hb. rewrite Forall_forall in Hb.
  now apply Hb.
Qed.

Lemma wf_tag (x : string) (t : Tag) :
  findTag state x = Some t -> In (commitId t) (ids state).
Proof.
  unfold findTag. intros F. apply find_some in F. destruct F as [Hin _].
  destruct WF as [_ [Ht _]]. unfold refsKnown in Ht. rewrite Forall_forall in Ht.
  now apply Ht.
Qed.

Lemma wf_parent (x p : string) (c : Commit) :
  findCommit state x = Some c -> parentId c = Some p -> In p (ids state).
Proof.
  intros F E. apply findCommit_Some in F. destruct F as [_ Hin].
  destruct WF as [_ [_ [Hp _]]]. rewrite Forall_forall in Hp.
  destruct (Hp c Hin) as [H1 _]. now apply H1.
Qed.

Lemma getHeadCommitId_known : In (getHeadCommitId state) (ids state).
Proof.
  destruct WF as [_ [_ [_ Hh]]]. unfold headKnown in Hh. unfold getHeadCommitId.
  destruct (type (head state)); [|exact Hh].
  destruct (findBranch state (ref (head state))) as [b|] eqn:F.
  - now apply (wf_branch (ref (head state))).
  - apply findBranch_None in F. contradiction.
Qed.

Lemma resolveRef_known (r : option string) (x : string) :
  resolveRef state r = Some x -> In x (ids state).
Proof.
  unfold resolveRef. destruct r as [[|a r]|]; try discriminate.
  destruct (findBranch state (String a r)) as [b|] eqn:B.
  { intros E. injection E as <-. now apply (wf_branch (String a r)). }
  destruct (findTag state (String a r)) as [t|] eqn:T.
  { intros E. injection E as <-. now apply (wf_tag (String a r)). }
  destruct (find _ (commits state)) as [c|] eqn:C.
  { intros E. injection E as <-. apply find_some in C. destruct C as [Hin _].
    unfold ids. now apply in_map. }
  destruct (String a r =? "HEAD"); [|discriminate].
  intros E. injection E as <-. apply getHeadCommitId_known.
Qed.

Lemma resolveRef_truthy_known (r : option string) :
  JS.truthy (resolveRef state r) = true ->
  In (JS.show (resolveRef state r)) (ids state).
Proof.
  destruct (resolveRef state r) as [x|] eqn:E; [|discriminate].
  intros _. now apply (resolveRef_known r).
Qed.

Lemma resetWalk_known (n : nat) :
  forall curr, In curr (ids state) -> In (snd (resetWalk state n curr)) (ids state).
Proof.
  induction n as [|n IH]; intros curr Hc; simpl; [exact Hc|].
  destruct (JS.truthyS curr); [|exact Hc].
  destruct (findCommit state curr) as [c|] eqn:F; [|exact Hc].
  destruct (parentId c) as [p|] eqn:P; [|exact Hc].
  destruct (JS.truthyS p); [|exact Hc].
  apply IH. now apply (wf_parent curr p c).
Qed.

(** New commits, and new references, that lead to old or new commits. *)
Lemma wellFormed_grow (extra : list Commit) (bs : list Branch) (ts : list Tag)
    (h : Head) :
  Forall (parentsKnown (ids state ++ map id extra)) extra ->
  refsKnown (ids state ++ map id extra) bs ->
  refsKnown (ids state ++ map id extra) ts ->
  headKnown (ids state ++ map id extra) bs h ->
  wellFormed {| commits := (commits state ++ extra)%list; branches := bs;
                tags := ts; head := h |}.
Proof.
  intros Hp Hb Ht Hh. unfold wellFormed, ids. simpl. rewrite map_app.
  repeat split; try assumption.
  apply Forall_app. split; [|exact Hp].
  destruct WF as [_ [_ [Hc _]]].
  apply (parentsKnown_mono (ids state)); [apply incl_appl, incl_refl | exact Hc].
Qed.

Lemma wellFormed_same (bs : list Branch) (ts : list Tag) (h : Head) :
  refsKnown (ids state) bs ->
  refsKnown (ids state) ts ->
  headKnown (ids state) bs h ->
  wellFormed {| commits := commits state; branches := bs; tags := ts; head := h |}.
Proof.
  intros Hb Ht Hh. unfold wellFormed, ids. simpl. repeat split; try assumption.
  now destruct WF as [_ [_ [Hc _]]].
Qed.

Lemma wf_branches : refsKnown (ids state) (branches state).
Proof. now destruct WF. Qed.

Lemma wf_tags : refsKnown (ids state) (tags state).
Proof. now destruct WF as [_ [H _]]. Qed.

Lemma wf_head : headKnown (ids state) (branches state) (head state).
Proof. now destruct WF as [_ [_ [_ H]]]. Qed.

End WellFormed.

(** Each handler keeps a well-formed snapshot well formed. *)

Ltac split_eqn :=
  repeat match goal with
  | |- context [if negb ?c then _ else _] => destruct c eqn:?; cbn [negb]
  | |- context [if ?c then _ else _] => destruct c eqn:?
  | |- context [match ?x with Some _ => _ | None => _ end] => destruct x eqn:?
  | |- context [match ?x with type_branch => _ | type_commit => _ end] =>
      destruct x eqn:?
  end.

Section Handlers.

Variable w : World.
Variable parts : list string.
Variable state : GitState.
Hypothesis WF : wellFormed state.

Lemma kept_refs (extra : list string) : refsKnown (ids state ++ extra) (branches state).
Proof.
  apply (refsKnown_mono (ids state)); [apply incl_appl, incl_refl|].
  now apply wf_branches.
Qed.

Lemma kept_tags (extra : list string) : refsKnown (ids state ++ extra) (tags state).
Proof.
  apply (refsKnown_mono (ids state)); [apply incl_appl, incl_refl|].
  now apply wf_tags.
Qed.

Lemma kept_head (extra : list string) :
  headKnown (ids state ++ extra) (branches state) (head state).
Proof.
  apply (headKnown_mono (ids state) _ (branches state));
    [apply incl_appl, incl_refl | apply incl_refl | now apply wf_head].
Qed.

Lemma moved_refs (n x : string) (extra : list string) :
  In x (ids state ++ extra) ->
  refsKnown (ids state ++ extra) (pointTo n x (branches state)).
Proof. intros Hx. apply refsKnown_pointTo; [exact Hx | apply kept_refs]. Qed.

Lemma moved_head (n x : string) (extra : list string) :
  headKnown (ids state ++ extra) (pointTo n x (branches state)) (head state).
Proof.
  apply (headKnown_mono (ids state) _ (branches state));
    [apply incl_appl, incl_refl | rewrite pointTo_names; apply incl_refl
    | now apply wf_head].
Qed.

Lemma moved_same (n x : string) :
  In x (ids state) ->
  wellFormed (withBranches state (pointTo n x (branches state))).
Proof.
  intros Hx. unfold withBranches. apply wellFormed_same; [exact WF | | |].
  - apply refsKnown_pointTo; [exact Hx | now apply wf_branches].
  - now apply wf_tags.
  - apply (headKnown_mono (ids state) _ (branches state));
      [apply incl_refl | rewrite pointTo_names; apply incl_refl | now apply wf_head].
Qed.

(** One new commit on top of known commits, the current branch (if HEAD is
    attached) moved to it. *)
Lemma advanced (c : Commit) :
  parentsKnown (ids state) c ->
  wellFormed {| commits := (commits state ++ [c])%list;
                branches := advance state (id c);
                tags := tags state; head := head state |}.
Proof.
  intros [H1 H2]. apply wellFormed_grow; [exact WF | | | |]; simpl.
  - constructor; [|constructor].
    split; intros p E; apply in_or_app; left; auto.
  - unfold advance. destruct (type (head state)); [|apply kept_refs].
    apply moved_refs. apply in_or_app. right. now left.
  - apply kept_tags.
  - unfold advance. destruct (type (head state)) eqn:T; [apply moved_head|apply kept_head].
Qed.

Lemma onHead (i m a : string) (t : Z) (second : option string) :
  (forall q, second = Some q -> In q (ids state)) ->
  parentsKnown (ids state)
    {| id := i; message := m; parentId := Some (getHeadCommitId state);
       secondParentId := second; timestamp := t; author := a |}.
Proof.
  intros H2. split; simpl; intros p E; [|now apply H2].
  injection E as <-. now apply getHeadCommitId_known.
Qed.

Lemma cmdFetch_wellFormed : wellFormed (newState (cmdFetch w state)).
Proof.
  unfold cmdFetch. destruct (findBranch state "origin/main") as [b|] eqn:F;
    simpl; [|exact WF].
  apply wellFormed_grow; [exact WF | | | |]; simpl.
  - constructor; [|constructor]. split; simpl; intros p E; [|discriminate].
    injection E as <-. apply in_or_app. left. now apply (wf_branch state WF "origin/main").
  - apply moved_refs. apply in_or_app. right. now left.
  - apply kept_tags.
  - apply moved_head.
Qed.

Lemma cmdMerge_wellFormed : wellFormed (newState (cmdMerge w parts state)).
Proof.
  unfold cmdMerge.
  destruct (JS.truthy (part parts 2)); cbn [negb]; [|exact WF].
  destruct (JS.truthy (resolveRef state (part parts 2))) eqn:R; cbn [negb];
    [|exact WF].
  apply (resolveRef_truthy_known state WF) in R.
  destruct (type (head state)) eqn:T; cbn [negb isBranch]; [|exact WF].
  destruct (_ =? getHeadCommitId state); [exact WF|].
  destruct (isAncestor state _ _); cbn [newState ok].
  - now apply moved_same.
  - pose proof (advanced
      {| id := generateShortId w 0;
         message := "Merge " ++ JS.show (part parts 2) ++ " into " ++ ref (head state);
         parentId := Some (getHeadCommitId state);
         secondParentId := Some (JS.show (resolveRef state (part parts 2)));
         timestamp := getNextTimestamp w 0 state; author := "User" |}) as A.
    unfold advance in A. rewrite T in A. apply A. apply onHead.
    intros q E. now injection E as <-.
Qed.

Lemma cmdPush_wellFormed : wellFormed (newState (cmdPush state)).
Proof.
  unfold cmdPush.
  destruct (type (head state)) eqn:T; cbn [negb isBranch]; [|exact WF].
  destruct (findBranch state (ref (head state))) as [b|] eqn:B; [|exact WF].
  match goal with |- context [if ?c then _ else _] => destruct c end; [exact WF|].
  cbn [newState ok]. unfold withBranches. apply wellFormed_same; [exact WF | | |].
  - apply refsKnown_add; [simpl; now apply (wf_branch state WF (ref (head state)))|].
    apply refsKnown_filter. now apply wf_branches.
  - now apply wf_tags.
  - unfold headKnown. rewrite T. apply findBranch_Some in B. destruct B as [Bn Bi].
    rewrite map_app. apply in_or_app. left. apply in_map_iff. exists b.
    split; [exact Bn|]. apply filter_In. split; [exact Bi|].
    apply negb_true_iff, String.eqb_neq. rewrite Bn. apply not_eq_sym.
    apply prefixed_differs. discriminate.
Qed.

Lemma cmdCommit_wellFormed : wellFormed (newState (cmdCommit w parts state)).
Proof.
  unfold cmdCommit. destruct (JS.includes parts "--amend").
  - destruct (findCommit state (getHeadCommitId state)) as [c|]; [|exact WF].
    cbn [newState ok]. unfold withCommits, wellFormed, ids. simpl.
    rewrite amendCommits_ids. destruct WF as [Hb [Ht [Hp Hh]]].
    repeat split; try assumption. now apply amendCommits_parents.
  - match goal with
    | |- context [let '(_, _) := ?x in _] => destruct x as [m used]
    end.
    match goal with
    | |- context [mkCommit ?i ?m ?p ?s ?t ?a] =>
        pose proof (advanced (mkCommit i m p s t a)) as A
    end.
    unfold advance in A. simpl in A.
    destruct (type (head state)) eqn:T; cbn [newState ok].
    + apply A. apply onHead. discriminate.
    + apply wellFormed_grow; [exact WF | | | |]; simpl.
      * constructor; [|constructor]. 
        split; simpl; intros p E; [|discriminate].
        injection E as <-. apply in_or_app. left. now apply getHeadCommitId_known.
      * apply kept_refs.
      * apply kept_tags.
      * unfold headKnown. simpl. apply in_or_app. right. now left.
Qed.

Lemma cmdBranch_wellFormed (r : Result) :
  cmdBranch parts state = Returns r -> wellFormed (newState r).
Proof.
  unfold cmdBranch. destruct (eqS (part parts 2) "-M").
  - destruct (type (head state)) eqn:T; cbn [negb isBranch].
    + destruct (part parts 3) as [n|]; [|discriminate].
      intros E. injection E as <-. cbn [newState ok].
      apply wellFormed_same; [exact WF | | |].
      * apply refsKnown_rename. now apply wf_branches.
      * now apply wf_tags.
      * unfold headKnown. simpl. apply rename_names.
        pose proof (wf_head state WF) as H. unfold headKnown in H.
        now rewrite T in H.
    + intros E. now injection E as <-.
  - destruct (JS.truthy (part parts 2)); cbn [negb];
      [|intros E; now injection E as <-].
    destruct (findBranch state _); [intros E; now injection E as <-|].
    destruct (JS.truthy (part parts 3)).
    + destruct (JS.truthy (resolveRef state (part parts 3))) eqn:R; cbn [negb];
        [|intros E; now injection E as <-].
      apply (resolveRef_truthy_known state WF) in R.
      intros E. injection E as <-. cbn [newState ok]. unfold withBranches.
      apply wellFormed_same; [exact WF | | |].
      * apply refsKnown_add; [exact R | now apply wf_branches].
      * now apply wf_tags.
      * apply (headKnown_mono (ids state) _ (branches state));
          [apply incl_refl | rewrite map_app; apply incl_appl, incl_refl
          | now apply wf_head].
    + intros E. injection E as <-. cbn [newState ok]. unfold withBranches.
      apply wellFormed_same; [exact WF | | |].
      * apply refsKnown_add; [now apply getHeadCommitId_known | now apply wf_branches].
      * now apply wf_tags.
      * apply (headKnown_mono (ids state) _ (branches state));
          [apply incl_refl | rewrite map_app; apply incl_appl, incl_refl
          | now apply wf_head].
Qed.

Lemma cmdCheckout_wellFormed : wellFormed (newState (cmdCheckout parts state)).
Proof.
  unfold cmdCheckout. destruct (eqS (part parts 2) "-b" || eqS (part parts 2) "-c").
  - destruct (JS.truthy (part parts 3)); cbn [negb]; [|exact WF].
    destruct (findBranch state _); [exact WF|].
    cbn [newState ok]. apply wellFormed_same; [exact WF | | |].
    + apply refsKnown_add; [now apply getHeadCommitId_known | now apply wf_branches].
    + now apply wf_tags.
    + unfold headKnown. simpl. rewrite map_app. apply in_or_app. right. now left.
  - destruct (JS.truthy (part parts 2)); cbn [negb]; [|exact WF].
    destruct (findBranch state _) as [b|] eqn:B.
    + cbn [newState ok]. unfold withHead.
      apply wellFormed_same; [exact WF | now apply wf_branches | now apply wf_tags |].
      unfold headKnown. simpl. apply findBranch_Some in B. destruct B as [_ Bi].
      now apply in_map.
    + destruct (JS.truthy (resolveRef state (part parts 2))) eqn:R; [|exact WF].
      apply (resolveRef_truthy_known state WF) in R.
      cbn [newState ok]. unfold withHead.
      apply wellFormed_same; [exact WF | now apply wf_branches | now apply wf_tags |].
      exact R.
Qed.

Lemma cmdReset_wellFormed (r : Result) :
  cmdReset parts state = Returns r -> wellFormed (newState r).
Proof.
  unfold cmdReset.
  assert (forall target t,
            (JS.truthy t = true -> In (JS.show t) (ids state)) ->
            (if negb (JS.truthy t)
             then Returns (fail state ("Could not resolve " ++ JS.show target))
             else Returns
                    (ok (withBranches state
                           (pointTo (ref (head state)) (JS.show t) (branches state)))
                        ("HEAD is now at " ++ JS.substring 0 7 (JS.show t))))
            = Returns r -> wellFormed (newState r)) as Finish.
  { intros target t Ht. destruct (JS.truthy t); cbn [negb]; intros E;
      injection E as <-; [|exact WF].
    cbn [newState ok]. apply moved_same. now apply Ht. }
  destruct (type (head state)); cbn [negb isBranch];
    [|intros E; now injection E as <-].
  match goal with
  | |- context [resolveRef state ?t] =>
      generalize t; intros target;
      pose proof (resolveRef_truthy_known state WF target) as Res
  end.
  destruct (JS.truthy (resolveRef state target)) eqn:R; cbn [negb].
  { intros E. injection E as <-. cbn [newState ok]. apply moved_same; auto. }
  destruct target as [target|]; [|discriminate].
  destruct (JS.indexOf tilde target); [|intros E; now injection E as <-].
  destruct (eqS _ "HEAD"); [|intros E; now injection E as <-].
  match goal with |- context [(?c <? 0)%Z] => generalize c; intros count end.
  destruct (count <? 0)%Z; [intros E; now injection E as <-|].
  pose proof (resetWalk_known state WF (Z.to_nat count) (getHeadCommitId state)
                (getHeadCommitId_known state WF)) as Walk.
  destruct (resetWalk state (Z.to_nat count) (getHeadCommitId state)) as [k curr].
  destruct k; [|intros E; now injection E as <-].
  apply (Finish (Some target) (Some curr)). intros _. exact Walk.
Qed.

Lemma cmdRevert_wellFormed : wellFormed (newState (cmdRevert w parts state)).
Proof.
  unfold cmdRevert.
  destruct (JS.truthy (resolveRef state (part parts 2))); cbn [negb]; [|exact WF].
  cbn [newState ok].
  match goal with
  | |- context [mkCommit ?i ?m ?p ?s ?t ?a] => apply (advanced (mkCommit i m p s t a))
  end.
  apply onHead. discriminate.
Qed.

Lemma cmdCherryPick_wellFormed : wellFormed (newState (cmdCherryPick w parts state)).
Proof.
  unfold cmdCherryPick.
  destruct (JS.truthy (resolveRef state (part parts 2))); cbn [negb]; [|exact WF].
  destruct (findCommit state _) as [c|]; [|exact WF].
  cbn [newState ok].
  match goal with
  | |- context [mkCommit ?i ?m ?p ?s ?t ?a] => apply (advanced (mkCommit i m p s t a))
  end.
  apply onHead. discriminate.
Qed.

Lemma cmdTag_wellFormed : wellFormed (newState (cmdTag parts state)).
Proof.
  unfold cmdTag. destruct (JS.truthy (part parts 2)); cbn [negb]; [|exact WF].
  cbn [newState ok]. unfold withTags.
  apply wellFormed_same; [exact WF | now apply wf_branches | | now apply wf_head].
  apply refsKnown_add; [now apply getHeadCommitId_known | now apply wf_tags].
Qed.

Lemma cmdLog_wellFormed : wellFormed (newState (cmdLog w state)).
Proof.
  unfold cmdLog. cbn [newState ok]. unfold withCommits.
  assert (forall x, In x (ids state) ->
                    In x (map id (sortNewestFirst (commits state)))) as Keep.
  { intros x Hx. unfold ids in Hx. apply in_map_iff in Hx.
    destruct Hx as [c [E Hc]]. apply in_map_iff. exists c.
    split; [exact E | now apply sortNewestFirst_In]. }
  destruct WF as [Hb [Ht [Hp Hh]]]. unfold wellFormed, ids. simpl.
  split; [|split; [|split]].
  - now apply (refsKnown_mono (ids state)).
  - now apply (refsKnown_mono (ids state)).
  - apply Forall_forall. intros c Hc. apply (proj1 (sortNewestFirst_In _ _)) in Hc.
    rewrite Forall_forall in Hp. destruct (Hp c Hc) as [H1 H2].
    split; intros p E; apply Keep; auto.
  - apply (headKnown_mono (ids state) _ (branches state));
      [exact Keep | apply incl_refl | exact Hh].
Qed.

Lemma cmdRemote_wellFormed : wellFormed (newState (cmdRemote parts state)).
Proof. unfold cmdRemote. split_eqn; exact WF. Qed.

Lemma cmdRebase_wellFormed (r : Result) :
  cmdRebase w parts state = Returns r -> wellFormed (newState r).
Proof.
  unfold cmdRebase.
  destruct (JS.truthy (resolveRef state (part parts 2))) eqn:R; cbn [negb];
    [|intros E; now injection E as <-].
  apply (resolveRef_truthy_known state WF) in R.
  destruct (type (head state)); cbn [negb isBranch];
    [|intros E; now injection E as <-].
  destruct (commitsToMove state _ _) as [todo|]; [|discriminate].
  destruct todo as [|c todo]; [intros E; now injection E as <-|].
  destruct (replay_known w state (c :: todo) 0
              (JS.show (resolveRef state (part parts 2))) (ids state) R) as [Hp Hl].
  destruct (replay w state 0 _ (c :: todo)) as [newCommits newParentId].
  simpl in Hp, Hl. intros E. injection E as <-. cbn [newState ok].
  apply wellFormed_grow; [exact WF | exact Hp | | apply kept_tags | apply moved_head].
  now apply moved_refs.
Qed.

End Handlers.

Ltac wf_concrete :=
  unfold wellFormed, refsKnown, headKnown, parentsKnown, ids; simpl;
  repeat match goal with
  | |- _ /\ _ => split
  | |- Forall _ [] => constructor
  | |- Forall _ (_ :: _) => constructor
  | |- forall _, _ => intro
  | E : parentId _ = Some _ |- _ => progress simpl in E
  | E : secondParentId _ = Some _ |- _ => progress simpl in E
  | E : None = Some _ |- _ => discriminate E
  | E : Some _ = Some _ |- _ => injection E as <-
  end; simpl; auto 10.

Lemma INITIAL_STATE_wellFormed (w : World) : wellFormed (INITIAL_STATE w).
Proof. wf_concrete. Qed.

Lemma clonedState_wellFormed (w : World) : wellFormed (clonedState w).
Proof. wf_concrete. Qed.

Lemma cmdPull_wellFormed (w : World) (state : GitState) :
  wellFormed state -> wellFormed (newState (cmdPull w state)).
Proof.
  intros WF. unfold cmdPull.
  destruct (negb (success (cmdFetch w state))); cbn [newState].
  - now apply cmdFetch_wellFormed.
  - apply cmdMerge_wellFormed. now apply cmdFetch_wellFormed.
Qed.

Lemma dispatch_wellFormed (w : World) (parts : list string) (state : GitState)
    (r : Result) :
  wellFormed state -> dispatch w parts state = Returns r -> wellFormed (newState r).
Proof.
  intros WF. unfold dispatch.
  repeat match goal with
  | |- context [if ?c then _ else _] => destruct c
  end;
  first
    [ now apply cmdBranch_wellFormed
    | now apply cmdReset_wellFormed
    | now apply cmdRebase_wellFormed
    | intros E; injection E as <-;
      first [ exact WF
            | apply INITIAL_STATE_wellFormed
            | apply clonedState_wellFormed
            | now apply cmdRemote_wellFormed
            | now apply cmdLog_wellFormed
            | now apply cmdFetch_wellFormed
            | now apply cmdPull_wellFormed
            | now apply cmdPush_wellFormed
            | now apply cmdCommit_wellFormed
            | now apply cmdCheckout_wellFormed
            | now apply cmdMerge_wellFormed
            | now apply cmdRevert_wellFormed
            | now apply cmdCherryPick_wellFormed
            | now apply cmdTag_wellFormed ] ].
Qed.

Lemma known_findCommit (state : GitState) (x : string) :
  In x (ids state) -> exists c, findCommit state x = Some c /\ id c = x.
Proof.
  unfold ids, findCommit. intros H. apply in_map_iff in H. destruct H as [c [E Hc]].
  destruct (find (fun c0 => id c0 =? x) (commits state)) as [d|] eqn:F.
  - exists d. split; [reflexivity|]. apply find_some in F.
    now apply String.eqb_eq.
  - apply (find_none _ _ F) in Hc. rewrite E, String.eqb_refl in Hc. discriminate.
Qed.

(** X4. No command makes a snapshot dangle. When every branch, every tag,
    every parent link and HEAD of the snapshot lead to commits of the
    snapshot (and an attached HEAD names an existing branch), the same holds
    of the snapshot that any command returns, whether it succeeds or not. *)
Theorem commands_keep_wellFormed (w : World) (command : string) (state : GitState)
    (r : Result) :
  wellFormed state ->
  executeGitCommand w command state = Returns r ->
  wellFormed (newState r).
Proof. intros WF. unfold executeGitCommand. now apply dispatch_wellFormed. Qed.

Lemma commands_keep_wellFormed_witness :
  wellFormed forked
  /\ wellFormed (newState (cmdMerge w0 ["git"; "merge"; "side"] forked)).
Proof.
  split; [wf_concrete|].
  apply (commands_keep_wellFormed w0 "git merge side" forked);
    [wf_concrete | reflexivity].
Defined.

(** X5. In every snapshot that commands lead to from the initial one,
    nothing dangles; the commit of HEAD is found in the commit list (the
    fallback identifier of [getHeadCommitId] for a missing branch is never
    what finds it), and so is every commit that [resolveRef] resolves a
    reference to. *)
Theorem reachable_snapshots_resolve (state : GitState) :
  reachable state ->
  wellFormed state
  /\ (exists c, findCommit state (getHeadCommitId state) = Some c
                /\ id c = getHeadCommitId state)
  /\ (forall r x, resolveRef state r = Some x ->
                  exists c, findCommit state x = Some c /\ id c = x).
Proof.
  intros R.
  assert (wellFormed state) as WF.
  { induction R as [w | w command state result R IH E].
    - apply INITIAL_STATE_wellFormed.
    - unfold executeGitCommand in E.
      now apply (dispatch_wellFormed w (tokens command) state). }
  split; [exact WF|]. split.
  - apply known_findCommit. now apply getHeadCommitId_known.
  - intros r x E. apply known_findCommit. now apply (resolveRef_known state WF r).
Qed.

Lemma reachable_snapshots_resolve_witness :
  exists c,
    findCommit (newState (cmdCommit w0 ["git"; "commit"] (INITIAL_STATE w0)))
               (getHeadCommitId (newState (cmdCommit w0 ["git"; "commit"] (INITIAL_STATE w0))))
    = Some c.
Proof.
  destruct (reachable_snapshots_resolve
              (newState (cmdCommit w0 ["git"; "commit"] (INITIAL_STATE w0))))
    as [_ [[c [F _]] _]].
  - apply (reachable_step w0 "git commit" (INITIAL_STATE w0));
      [apply reachable_initial | reflexivity].
  - exists c. exact F.
Defined.

(** *** The history is never rewritten *)

Ltac appends_leaf :=
  simpl; intros;
  try match goal with
      | E : Returns _ = Returns _ |- _ => injection E as E; subst; simpl in *
      end;
  try discriminate;
  first [ exists []; simpl; now rewrite app_nil_r
        | eexists; reflexivity ].

Section Appends.

Variable w : World.
Variable parts : list string.
Variable state : GitState.

Lemma cmdFetch_appends : appends state (newState (cmdFetch w state)).
Proof. unfold cmdFetch, appends. split_cases; appends_leaf. Qed.

Lemma cmdMerge_appends : appends state (newState (cmdMerge w parts state)).
Proof. unfold cmdMerge, appends. split_cases; appends_leaf. Qed.

Lemma cmdBranch_appends (r : Result) :
  cmdBranch parts state = Returns r -> appends state (newState r).
Proof. unfold cmdBranch, appends. split_cases; appends_leaf. Qed.

Lemma cmdReset_appends (r : Result) :
  cmdReset parts state = Returns r -> appends state (newState r).
Proof. unfold cmdReset, appends. split_cases; appends_leaf. Qed.

Lemma cmdRebase_appends (r : Result) :
  cmdRebase w parts state = Returns r -> appends state (newState r).
Proof. unfold cmdRebase, appends. split_cases; appends_leaf. Qed.

Lemma cmdCommit_appends :
  JS.includes parts "--amend" = false ->
  appends state (newState (cmdCommit w parts state)).
Proof. unfold cmdCommit, appends. intros ->. split_cases; appends_leaf. Qed.

End Appends.

Lemma cmdPull_appends (w : World) (state : GitState) :
  appends state (newState (cmdPull w state)).
Proof.
  unfold cmdPull. destruct (cmdFetch_appends w state) as [e1 E1].
  destruct (negb (success (cmdFetch w state))); cbn [newState].
  - now exists e1.
  - destruct (cmdMerge_appends (later 1 1 w) ["git"; "merge"; "origin/main"]
                (newState (cmdFetch w state))) as [e2 E2].
    exists (e1 ++ e2)%list. now rewrite E2, E1, app_assoc.
Qed.

Lemma amendCommits_sameNode (w : World) (headId newMessage : string) (l : list Commit)
    (c : Commit) :
  forall n, In c l ->
            exists c', In c' (amendCommits w n headId newMessage l) /\ sameNode c c'.
Proof.
  induction l as [|d l IH]; intros n; simpl; [contradiction|].
  intros [-> | Hin].
  - destruct (id c =? headId); eexists; (split; [now left|]);
      unfold sameNode; simpl; auto.
  - destruct (id d =? headId);
      (edestruct IH as [c' [Hc' S]]; [exact Hin|]; 
       exists c'; split; [right; exact Hc' | exact S]).
Qed.

Lemma amendCommits_length (w : World) (headId newMessage : string) (l : list Commit) :
  forall n, List.length (amendCommits w n headId newMessage l) = List.length l.
Proof.
  induction l as [|c l IH]; intros n; simpl; [reflexivity|].
  destruct (id c =? headId); simpl; now rewrite IH.
Qed.

Lemma sortNewestFirst_length (l : list Commit) :
  List.length (sortNewestFirst l) = List.length l.
Proof.
  assert (forall d l', List.length (insertNewestFirst d l') = S (List.length l')) as Ins.
  { intros d l'. induction l' as [|e l' IH]; simpl; [reflexivity|].
    destruct (timestamp d <? timestamp e)%Z; simpl; now rewrite ?IH. }
  induction l as [|d l IH]; simpl; [reflexivity|]. now rewrite Ins, IH.
Qed.

Lemma appends_keeps (command : string) (state state' : GitState) :
  appends state state' -> keeps command state state'.
Proof.
  intros [extra E]. unfold keeps. rewrite E. split.
  - rewrite length_app. lia.
  - intros c Hc. exists c. unfold sameNode.
    split; [apply in_or_app; now left | auto 10].
Qed.

(** X6. Commands never rewrite the history. Except for git init and git
    clone, which start a new repository, every command that returns leaves
    each commit of the snapshot in the list, with its id, both parents and
    its author; the commit itself is unchanged unless the command is a
    git commit with the token --amend, which may replace its message and
    timestamp. The list never gets shorter. *)
Theorem history_is_never_rewritten (w : World) (command : string) (state : GitState)
    (r : Result) :
  eqS (part (tokens command) 1) "init" = false ->
  eqS (part (tokens command) 1) "clone" = false ->
  executeGitCommand w command state = Returns r ->
  List.length (commits state) <= List.length (commits (newState r))
  /\ forall c, In c (commits state) ->
       exists c', In c' (commits (newState r)) /\ sameNode c c'
                  /\ (c' = c \/ (eqS (part (tokens command) 1) "commit" = true
                                 /\ JS.includes (tokens command) "--amend" = true)).
Proof.
  intros Hinit Hclone. change (executeGitCommand w command state = Returns r ->
                               keeps command state (newState r)).
  unfold executeGitCommand, dispatch.
  destruct (negb (eqS (part (tokens command) 0) "git")).
  { intros E. injection E as <-. apply appends_keeps. exists []. simpl.
    now rewrite app_nil_r. }
  rewrite Hinit.
  destruct (eqS (part (tokens command) 1) "remote").
  { intros E. injection E as <-. apply appends_keeps.
    unfold cmdRemote, appends. split_cases; appends_leaf. }
  destruct (eqS (part (tokens command) 1) "log").
  { intros E. injection E as <-. unfold keeps, cmdLog. cbn [newState ok withCommits commits].
    split; [now rewrite sortNewestFirst_length|].
    intros c Hc. exists c. unfold sameNode.
    split; [now apply sortNewestFirst_In | auto 10]. }
  destruct (eqS (part (tokens command) 1) "add").
  { intros E. injection E as <-. apply appends_keeps. exists []. simpl.
    now rewrite app_nil_r. }
  rewrite Hclone.
  destruct (eqS (part (tokens command) 1) "fetch").
  { intros E. injection E as <-. apply appends_keeps, cmdFetch_appends. }
  destruct (eqS (part (tokens command) 1) "pull").
  { intros E. injection E as <-. apply appends_keeps, cmdPull_appends. }
  destruct (eqS (part (tokens command) 1) "push").
  { intros E. injection E as <-. apply appends_keeps.
    unfold cmdPush, appends. split_cases; appends_leaf. }
  destruct (eqS (part (tokens command) 1) "commit") eqn:C.
  { intros E. injection E as <-.
    destruct (JS.includes (tokens command) "--amend") eqn:A.
    - unfold cmdCommit. rewrite A.
      destruct (findCommit state (getHeadCommitId state)) as [old|].
      + unfold keeps. cbn [newState ok withCommits commits]. rewrite A.
        split; [now rewrite amendCommits_length|].
        intros c Hc.
        destruct (amendCommits_sameNode w (getHeadCommitId state)
                    match JS.indexOf quoteChar (JS.join " " (tokens command)) with
                    | Some qs =>
                        match JS.lastIndexOf quoteChar (JS.join " " (tokens command)) with
                        | Some qe =>
                            if JS.includes (tokens command) "-m"
                            then JS.substring (qs + 1) qe (JS.join " " (tokens command))
                            else message old
                        | None => message old
                        end
                    | None => message old
                    end (commits state) c 0 Hc) as [c' [Hc' S]].
        exists c'. split; [exact Hc' | split; [exact S | now right]].
      + apply appends_keeps. exists []. simpl. now rewrite app_nil_r.
    - apply appends_keeps. now apply cmdCommit_appends. }
  destruct (eqS (part (tokens command) 1) "branch").
  { intros E. apply appends_keeps. now apply (cmdBranch_appends (tokens command)). }
  destruct (eqS (part (tokens command) 1) "checkout"
            || eqS (part (tokens command) 1) "switch").
  { intros E. injection E as <-. apply appends_keeps.
    unfold cmdCheckout, appends. split_cases; appends_leaf. }
  destruct (eqS (part (tokens command) 1) "merge").
  { intros E. injection E as <-. apply appends_keeps, cmdMerge_appends. }
  destruct (eqS (part (tokens command) 1) "reset").
  { intros E. apply appends_keeps. now apply (cmdReset_appends (tokens command)). }
  destruct (eqS (part (tokens command) 1) "revert").
  { intros E. injection E as <-. apply appends_keeps.
    unfold cmdRevert, appends. split_cases; appends_leaf. }
  destruct (eqS (part (tokens command) 1) "cherry-pick").
  { intros E. injection E as <-. apply appends_keeps.
    unfold cmdCherryPick, appends. split_cases; appends_leaf. }
  destruct (eqS (part (tokens command) 1) "tag").
  { intros E. injection E as <-. apply appends_keeps.
    unfold cmdTag, appends. split_cases; appends_leaf. }
  destruct (eqS (part (tokens command) 1) "rebase").
  { intros E. apply appends_keeps. now apply (cmdRebase_appends w (tokens command)). }
  intros E. injection E as <-. apply appends_keeps. exists []. simpl.
  now rewrite app_nil_r.
Qed.

Lemma history_is_never_rewritten_witness :
  exists c',
    In c' (commits (newState (cmdCommit w0 ["git"; "commit"; "--amend"] (INITIAL_STATE w0))))
    /\ id c' = "init".
Proof.
  destruct (history_is_never_rewritten w0 "git commit --amend" (INITIAL_STATE w0)
              (cmdCommit w0 ["git"; "commit"; "--amend"] (INITIAL_STATE w0))
              eq_refl eq_refl eq_refl) as [_ Keep].
  destruct (Keep {| id := "init"; message := "Initial commit"; parentId := None;
                    secondParentId := None; timestamp := loadTime w0;
                    author := "User" |}) as [c' [Hin [[Hid _] _]]].
  - simpl. now left.
  - exists c'. split; [exact Hin | exact Hid].
Defined.

(** *** Pushing twice *)

Lemma filter_push {A} (p : A -> bool) (l : list A) (x : A) :
  p x = false -> filter p (filter p l ++ [x])%list = filter p l.
Proof.
  intros Hx. rewrite filter_app. simpl. rewrite Hx, app_nil_r.
  induction l as [|a l IH]; simpl; [reflexivity|].
  destruct (p a) eqn:Pa; simpl; [rewrite Pa, IH|]; auto.
Qed.

Lemma cmdPush_twice (state : GitState) :
  cmdPush (newState (cmdPush state)) = cmdPush state.
Proof.
  destruct (cmdPush state) as [s o v] eqn:E. cbn [newState].
  unfold cmdPush in E.
  destruct (type (head state)) eqn:T; cbn [negb isBranch] in E;
    [|injection E as <- <- <-; unfold cmdPush; now rewrite T].
  destruct (findBranch state (ref (head state))) as [b|] eqn:B;
    [|injection E as <- <- <-; unfold cmdPush; now rewrite T, B].
  match type of E with
  | context [if ?c then _ else _] => destruct c eqn:Rej
  end; [injection E as <- <- <-; unfold cmdPush; now rewrite T, B, Rej|].
  injection E as <- <- <-.
  unfold cmdPush, findBranch, withBranches. cbn [head branches].
  change (String "o" (String "r" (String "i" (String "g" (String "i"
            (String "n" (String "/" (ref (head state)))))))))
    with ("origin/" ++ ref (head state)).
  rewrite T. cbn [negb isBranch].
  rewrite !find_push. rewrite String.eqb_refl.
  assert ((ref (head state) =? "origin/" ++ ref (head state)) = false) as Ne.
  { apply String.eqb_neq, not_eq_sym, prefixed_differs. discriminate. }
  rewrite Ne. unfold findBranch in B. rewrite B. cbn [commitId].
  rewrite String.eqb_refl, andb_false_r.
  rewrite filter_push; [reflexivity|].
  cbn [name]. now rewrite String.eqb_refl.
Qed.

(** X7. Pushing is idempotent. A second git push, run on the snapshot
    the first one returned, returns that same snapshot with the same
    message and the same verdict: after a successful push the remote
    branch is at the tip and the second push leaves every branch in place;
    after a rejected or failed push the snapshot had not changed. The
    arguments after push play no part. *)
Theorem push_is_idempotent (w w' : World) (command command' : string)
    (state : GitState) :
  part (tokens command) 0 = Some "git" -> part (tokens command) 1 = Some "push" ->
  part (tokens command') 0 = Some "git" -> part (tokens command') 1 = Some "push" ->
  exists r,
    executeGitCommand w command state = Returns r
    /\ executeGitCommand w' command' (newState r) = Returns r.
Proof.
  intros G P G' P'. exists (cmdPush state).
  unfold executeGitCommand, dispatch. rewrite G, P, G', P'. simpl.
  split; [reflexivity|]. now rewrite cmdPush_twice.
Qed.

Lemma push_is_idempotent_witness :
  exists r,
    executeGitCommand w0 "git push origin main" aheadOfRemote = Returns r
    /\ executeGitCommand w0 "git push" (newState r) = Returns r.
Proof.
  apply (push_is_idempotent w0 w0 "git push origin main" "git push" aheadOfRemote);
    reflexivity.
Defined.

(** *** Pulling *)

Lemma findCommit_appended (state : GitState) (extra : list Commit) (bs : list Branch)
    (ts : list Tag) (h : Head) (x : string) (c : Commit) :
  findCommit state x = Some c ->
  findCommit {| commits := (commits state ++ extra)%list; branches := bs;
                tags := ts; head := h |} x = Some c.
Proof.
  unfold findCommit. simpl. intros F.
  induction (commits state) as [|d l IH]; simpl in *; [discriminate|].
  destruct (id d =? x); [exact F | now apply IH].
Qed.

Lemma findCommit_fresh (state : GitState) (c : Commit) (bs : list Branch)
    (ts : list Tag) (h : Head) :
  ~ In (id c) (ids state) ->
  findCommit {| commits := (commits state ++ [c])%list; branches := bs;
                tags := ts; head := h |} (id c) = Some c.
Proof.
  unfold findCommit, ids. simpl. intros Hn.
  induction (commits state) as [|d l IH]; simpl in *.
  - now rewrite String.eqb_refl.
  - destruct (id d =? id c) eqn:E.
    + apply String.eqb_eq in E. exfalso. apply Hn. now left.
    + apply IH. intros Hin. apply Hn. now right.
Qed.

Lemma reaches_mono (state state' : GitState) (x y : string) :
  (forall z c, findCommit state z = Some c -> findCommit state' z = Some c) ->
  reaches state x y -> reaches state' x y.
Proof.
  intros Mono R. induction R as [|u v Hxu IH [c [F [P T]]]]; [constructor|].
  apply (reaches_parent _ _ u); [exact IH|]. exists c. auto.
Qed.

Lemma cmdMerge_detached (w : World) (parts : list string) (state : GitState) :
  type (head state) = type_commit -> newState (cmdMerge w parts state) = state.
Proof.
  intros T. unfold cmdMerge. rewrite T.
  destruct (negb (JS.truthy (part parts 2))); [reflexivity|].
  destruct (negb (JS.truthy (resolveRef state (part parts 2)))); reflexivity.
Qed.

(** X8. git pull is git fetch followed by a merge of origin/main, and
    reports success whenever the fetch worked. Without a branch
    origin/main it fails and returns the snapshot unchanged. With one it
    always reports success; on a detached HEAD the merge is refused and the
    result is the snapshot of the fetch alone. When HEAD is on a branch
    whose tip is an ancestor of the tip of origin/main, and the identifier
    drawn for the fetched commit is non-empty and new, the pull appends
    the fetched commit, child of the old tip of origin/main, and nothing
    else, and both HEAD and origin/main end on it. *)
Theorem pull_fetches_then_merges (w : World) (command : string) (state : GitState) :
  part (tokens command) 0 = Some "git" -> part (tokens command) 1 = Some "pull" ->
  (findBranch state "origin/main" = None ->
   executeGitCommand w command state = Returns (fail state "No remote found"))
  /\ (forall o, findBranch state "origin/main" = Some o ->
        exists r,
          executeGitCommand w command state = Returns r
          /\ success r = true
          /\ (type (head state) = type_commit ->
              newState r = newState (cmdFetch w state))
          /\ (forall b,
                type (head state) = type_branch ->
                findBranch state (ref (head state)) = Some b ->
                isAncestor state (commitId b) (commitId o) = true ->
                commitId o <> EmptyString ->
                generateShortId w 0 <> EmptyString ->
                ~ In (generateShortId w 0) (ids state) ->
                commits (newState r)
                = (commits state
                   ++ [ {| id := generateShortId w 0; message := "Remote update";
                           parentId := Some (commitId o); secondParentId := None;
                           timestamp := getNextTimestamp w 0 state;
                           author := "Teammate" |} ])%list
                /\ getHeadCommitId (newState r) = generateShortId w 0
                /\ resolveRef (newState r) (Some "origin/main")
                   = Some (generateShortId w 0)
                /\ tags (newState r) = tags state
                /\ head (newState r) = head state)).
Proof.
  intros G P. unfold executeGitCommand, dispatch. rewrite G, P. simpl.
  split.
  { intros F. unfold cmdPull, cmdFetch. now rewrite F. }
  intros o F. exists (cmdPull w state). split; [reflexivity|].
  assert (cmdFetch w state
          = ok {| commits := (commits state
                   ++ [ {| id := generateShortId w 0; message := "Remote update";
                           parentId := Some (commitId o); secondParentId := None;
                           timestamp := getNextTimestamp w 0 state;
                           author := "Teammate" |} ])%list;
                  branches := pointTo "origin/main" (generateShortId w 0) (branches state);
                  tags := tags state; head := head state |}
               ("From https://github.com/demo/repo" ++ JS.nl ++ "   "
                ++ JS.substring 0 4 (commitId o) ++ ".."
                ++ JS.substring 0 4 (generateShortId w 0)
                ++ "  main       -> origin/main")) as Fetch.
  { unfold cmdFetch. now rewrite F. }
  unfold cmdPull. rewrite Fetch. cbn [success ok negb newState].
  split; [reflexivity|]. split.
  { intros T. now apply cmdMerge_detached. }
  intros b T B Anc Ho Hn Fresh.
  set (n := generateShortId w 0) in *.
  set (c := {| id := n; message := "Remote update"; parentId := Some (commitId o);
               secondParentId := None; timestamp := getNextTimestamp w 0 state;
               author := "Teammate" |}) in *.
  set (s1 := {| commits := (commits state ++ [c])%list;
                branches := pointTo "origin/main" n (branches state);
                tags := tags state; head := head state |}) in *.
  assert (In "origin/main" (map name (branches state))) as InO.
  { apply findBranch_Some in F. destruct F as [Fn Fi]. rewrite <- Fn. now apply in_map. }
  assert (In (ref (head state)) (map name (branches state))) as InB.
  { apply findBranch_Some in B. destruct B as [Bn Bi]. rewrite <- Bn. now apply in_map. }
  assert (findBranch s1 "origin/main" = Some {| name := "origin/main"; commitId := n |})
    as O1.
  { unfold findBranch, s1. simpl. now apply find_pointTo_same. }
  assert (resolveRef s1 (Some "origin/main") = Some n) as Res.
  { unfold resolveRef. now rewrite O1. }
  assert (JS.truthyS n = true) as Tn by (destruct n; [congruence | reflexivity]).
  unfold cmdMerge. cbn [part nth_error JS.truthy JS.truthyS negb].
  rewrite Res. cbn [JS.truthy JS.show]. rewrite Tn. cbn [negb].
  assert (type (head s1) = type_branch) as T1 by exact T.
  rewrite T1. cbn [negb isBranch].
  destruct (n =? getHeadCommitId s1) eqn:Same.
  { apply String.eqb_eq in Same. cbn [newState ok].
    repeat split; auto. }
  assert (isAncestor s1 (getHeadCommitId s1) n = true) as FF.
  { apply isAncestor_reaches.
    assert (getHeadCommitId s1 = commitId b) as Hd.
    { unfold getHeadCommitId. rewrite T1. unfold findBranch, s1. cbn [head branches].
      destruct (string_dec (ref (head state)) "origin/main") as [E | E].
      - exfalso. apply String.eqb_neq in Same. apply Same.
        unfold getHeadCommitId. rewrite T1. unfold findBranch, s1. cbn [head branches].
        rewrite E. now rewrite find_pointTo_same.
      - rewrite find_pointTo_other by exact E. unfold findBranch in B. now rewrite B. }
    rewrite Hd.
    apply (reaches_trans _ _ (commitId o)).
    - apply (reaches_parent _ _ n); [constructor|].
      exists c. split; [apply (findCommit_fresh state c); exact Fresh|].
      split; [now left|]. destruct (commitId o); [congruence | reflexivity].
    - apply (reaches_mono state).
      + intros z d. apply findCommit_appended.
      + now apply isAncestor_reaches. }
  rewrite FF. cbn [newState ok]. unfold withBranches. cbn [commits tags head].
  assert (In (ref (head state)) (map name (branches s1))) as InB1.
  { unfold s1. cbn [branches]. now rewrite pointTo_names. }
  split; [reflexivity|]. split.
  { change (ref (head s1)) with (ref (head state)).
    pose proof (getHeadCommitId_pointTo s1 (commits s1) n T1 InB1) as H.
    exact H. }
  split; [|split; reflexivity].
  unfold resolveRef, findBranch. cbn [branches]. unfold s1 at 1. cbn [branches head].
  destruct (string_dec (ref (head state)) "origin/main") as [E | E].
  - rewrite E. rewrite find_pointTo_same; [reflexivity|].
    unfold s1. cbn [branches]. now rewrite pointTo_names.
  - rewrite find_pointTo_other by (apply not_eq_sym; exact E).
    unfold s1. cbn [branches]. now rewrite find_pointTo_same.
Qed.

Lemma pull_fetches_then_merges_witness :
  exists r,
    executeGitCommand w0 "git pull" (clonedState w0) = Returns r
    /\ success r = true
    /\ getHeadCommitId (newState r) = generateShortId w0 0
    /\ List.length (commits (newState r)) = 3.
Proof.
  destruct (pull_fetches_then_merges w0 "git pull" (clonedState w0) eq_refl eq_refl)
    as [_ Pull].
  destruct (Pull {| name := "origin/main"; commitId := "a12b" |} eq_refl)
    as [r [E [S [_ FF]]]].
  destruct (FF {| name := "main"; commitId := "a12b" |} eq_refl eq_refl eq_refl)
    as [Hc [Hh _]].
  - discriminate.
  - vm_compute. discriminate.
  - vm_compute. intros [H | [H | []]]; discriminate.
  - exists r. repeat split; try assumption. now rewrite Hc.
Defined.

(** *** New commits on a detached HEAD *)

(** From an old commit of a well-formed snapshot, parent edges lead to old
    commits only, also after commits were appended. *)
Lemma old_commits_reach_old (state : GitState) (extra : list Commit) (bs : list Branch)
    (ts : list Tag) (h : Head) (x y : string) :
  wellFormed state ->
  In x (ids state) ->
  reaches {| commits := (commits state ++ extra)%list; branches := bs;
             tags := ts; head := h |} x y ->
  In y (ids state).
Proof.
  intros WF Hx R. induction R as [|u v Hxu IH [d [F [P T]]]]; [exact Hx|].
  destruct (known_findCommit state u IH) as [d0 [F0 _]].
  rewrite (findCommit_appended state extra bs ts h u d0 F0) in F.
  injection F as <-.
  apply findCommit_Some in F0. destruct F0 as [_ Hin].
  destruct WF as [_ [_ [Hp _]]]. rewrite Forall_forall in Hp.
  destruct (Hp d0 Hin) as [H1 H2]. destruct P as [P | P]; auto.
Qed.

(** X9. On a detached HEAD, git revert and git cherry-pick make a commit
    that nothing leads to. When they succeed they append one commit, child
    of the commit HEAD is on, and leave HEAD, the branches and the tags as
    they were: HEAD stays on the old commit. If nothing dangled before and
    the identifier of the new commit is new, the new commit is an ancestor
    of no commit that existed, so no branch, no tag and no HEAD reaches
    it. *)
Theorem detached_revert_is_lost (w : World) (command : string) (state : GitState)
    (r : Result) :
  part (tokens command) 0 = Some "git" ->
  part (tokens command) 1 = Some "revert"
  \/ part (tokens command) 1 = Some "cherry-pick" ->
  type (head state) = type_commit ->
  executeGitCommand w command state = Returns r ->
  success r = true ->
  exists c,
    commits (newState r) = (commits state ++ [c])%list
    /\ id c = generateShortId w 0
    /\ parentId c = Some (ref (head state))
    /\ branches (newState r) = branches state
    /\ tags (newState r) = tags state
    /\ head (newState r) = head state
    /\ getHeadCommitId (newState r) = getHeadCommitId state
    /\ (wellFormed state -> ~ In (id c) (ids state) ->
        forall x, In x (ids state) -> isAncestor (newState r) (id c) x = false).
Proof.
  intros G P T. unfold executeGitCommand, dispatch. rewrite G.
  assert (getHeadCommitId state = ref (head state)) as Hd.
  { unfold getHeadCommitId. now rewrite T. }
  assert (forall c,
            let s := {| commits := (commits state ++ [c])%list;
                        branches := advance state (id c);
                        tags := tags state; head := head state |} in
            id c = generateShortId w 0 ->
            parentId c = Some (getHeadCommitId state) ->
            commits s = (commits state ++ [c])%list
            /\ id c = generateShortId w 0
            /\ parentId c = Some (ref (head state))
            /\ branches s = branches state
            /\ tags s = tags state
            /\ head s = head state
            /\ getHeadCommitId s = getHeadCommitId state
            /\ (wellFormed state -> ~ In (id c) (ids state) ->
                forall x, In x (ids state) -> isAncestor s (id c) x = false)) as Shape.
  { intros c s Hi Hp. unfold s, advance. rewrite T. cbn [commits branches tags head].
    rewrite <- Hd. repeat split; try assumption.
    - intros WF Fresh x Hx. apply isAncestor_false. intros R.
      apply Fresh. now apply (old_commits_reach_old state [c] (branches state)
                                (tags state) (head state) x). }
  destruct P as [P | P]; rewrite P; simpl.
  - unfold cmdRevert.
    destruct (negb (JS.truthy (resolveRef state (part (tokens command) 2)))).
    + intros E. injection E as <-. discriminate.
    + intros E _. injection E as <-. cbn [newState ok].
      eexists. apply Shape; reflexivity.
  - unfold cmdCherryPick.
    destruct (negb (JS.truthy (resolveRef state (part (tokens command) 2)))).
    + intros E. injection E as <-. discriminate.
    + destruct (findCommit state _) as [src|].
      * intros E _. injection E as <-. cbn [newState ok].
        eexists. apply Shape; reflexivity.
      * intros E. injection E as <-. discriminate.
Qed.

Lemma detached_revert_is_lost_witness :
  exists c,
    commits (newState (cmdRevert w0 ["git"; "revert"; "b"]
                         (withHead forked {| type := type_commit; ref := "c" |})))
    = (commits forked ++ [c])%list
    /\ parentId c = Some "c"
    /\ isAncestor (newState (cmdRevert w0 ["git"; "revert"; "b"]
                               (withHead forked {| type := type_commit; ref := "c" |})))
                  (id c) "c" = false.
Proof.
  destruct (detached_revert_is_lost w0 "git revert b"
              (withHead forked {| type := type_commit; ref := "c" |})
              (cmdRevert w0 ["git"; "revert"; "b"]
                 (withHead forked {| type := type_commit; ref := "c" |}))
              eq_refl (or_introl eq_refl) eq_refl eq_refl eq_refl)
    as [c [Hc [Hi [Hp [_ [_ [_ [_ Lost]]]]]]]].
  exists c. split; [exact Hc|]. split; [exact Hp|].
  apply Lost.
  - wf_concrete.
  - rewrite Hi. vm_compute. intros [H | [H | [H | []]]]; discriminate.
  - simpl. auto.
Defined.

(** *** Creating a branch and switching to it *)




(** *** Resetting *)

Lemma reset_target (parts : list string) (m t : string) (rest : list string) :
  t <> EmptyString -> t <> "--hard" ->
  parts = ["git"; "reset"; t] \/ parts = "git" :: "reset" :: m :: t :: rest ->
  (if eqS (part parts 2) "--hard" then part parts 3
   else if negb (eqS (part parts 2) "--hard") && (List.length parts =? 3)%nat
        then part parts 2
        else if JS.truthy (part parts 3) then part parts 3 else part parts 2)
  = Some t.
Proof.
  intros Ht Hh [-> | ->]; cbn [part nth_error eqS List.length JS.truthy].
  - apply String.eqb_neq in Hh. now rewrite Hh.
  - destruct (m =? "--hard"); [reflexivity|].
    cbn [negb andb Nat.eqb]. destruct t; [congruence | reflexivity].
Qed.

(** X11. git reset pays no attention to its mode word. With a target t
    other than --hard, git reset t and git reset m t, for any word m
    (--soft, --mixed, --hard or anything else) and whatever follows, give
    the same outcome on every snapshot. *)
Theorem reset_ignores_mode (w : World) (command command' m t : string)
    (rest : list string) (state : GitState) :
  tokens command = ["git"; "reset"; t] ->
  tokens command' = "git" :: "reset" :: m :: t :: rest ->
  t <> EmptyString -> t <> "--hard" ->
  executeGitCommand w command' state = executeGitCommand w command state.
Proof.
  intros T T' Ht Hh. unfold executeGitCommand. rewrite T, T'.
  change (cmdReset ("git" :: "reset" :: m :: t :: rest) state
          = cmdReset ["git"; "reset"; t] state).
  pose proof (reset_target ["git"; "reset"; t] m t rest Ht Hh (or_introl eq_refl)) as A.
  pose proof (reset_target ("git" :: "reset" :: m :: t :: rest) m t rest Ht Hh
                (or_intror eq_refl)) as B.
  unfold cmdReset.
  set (p := ["git"; "reset"; t]) in *.
  set (p' := "git" :: "reset" :: m :: t :: rest) in *.
  destruct (eqS (part p 2) "--hard"), (eqS (part p' 2) "--hard");
    cbn [negb andb] in *;
    destruct (List.length p =? 3)%nat, (List.length p' =? 3)%nat;
    rewrite ?A, ?B; reflexivity.
Qed.

Lemma reset_ignores_mode_witness :
  executeGitCommand w0 "git reset --soft a" twoAhead
  = executeGitCommand w0 "git reset a" twoAhead.
Proof.
  apply (reset_ignores_mode w0 "git reset a" "git reset --soft a" "--soft" "a" []);
    try reflexivity; discriminate.
Defined.






(** *** The log *)

Lemma insertNewestFirst_perm (c : Commit) (l : list Commit) :
  Permutation (c :: l) (insertNewestFirst c l).
Proof.
  induction l as [|d l IH]; simpl; [apply Permutation_refl|].
  destruct (timestamp c <? timestamp d)%Z; [|apply Permutation_refl].
  apply (perm_trans (perm_swap d c l)). now apply perm_skip.
Qed.

Lemma sortNewestFirst_perm (l : list Commit) : Permutation l (sortNewestFirst l).
Proof.
  induction l as [|c l IH]; simpl; [constructor|].
  apply (perm_trans (perm_skip c IH)). apply insertNewestFirst_perm.
Qed.

Lemma insertNewestFirst_sorted (c : Commit) (l : list Commit) :
  StronglySorted notOlder l -> StronglySorted notOlder (insertNewestFirst c l).
Proof.
  induction l as [|d l IH]; intros S; simpl.
  - constructor; constructor.
  - inversion S as [|d' l' Sl Hd]; subst.
    destruct (timestamp c <? timestamp d)%Z eqn:E.
    + apply Z.ltb_lt in E. constructor; [now apply IH|].
      apply (Permutation_Forall (insertNewestFirst_perm c l)).
      constructor; [unfold notOlder; lia | exact Hd].
    + apply Z.ltb_ge in E. constructor; [exact S|].
      constructor; [exact E|].
      eapply Forall_impl; [|exact Hd]. unfold notOlder. intros x Hx. lia.
Qed.

Lemma sortNewestFirst_sorted (l : list Commit) :
  StronglySorted notOlder (sortNewestFirst l).
Proof.
  induction l as [|c l IH]; simpl; [constructor|].
  now apply insertNewestFirst_sorted.
Qed.

Lemma sortNewestFirst_fixed (l : list Commit) :
  StronglySorted notOlder l -> sortNewestFirst l = l.
Proof.
  induction l as [|c l IH]; intros S; simpl; [reflexivity|].
  inversion S as [|c' l' Sl Hc]; subst. rewrite (IH Sl).
  destruct l as [|d l]; simpl; [reflexivity|].
  inversion Hc as [|d' l' Hd _]; subst. unfold notOlder in Hd.
  assert ((timestamp c <? timestamp d)%Z = false) as -> by (apply Z.ltb_ge; lia).
  reflexivity.
Qed.

Lemma logEntry_nonempty (w : World) (c : Commit) : logEntry w c <> EmptyString.
Proof. unfold logEntry. simpl. discriminate. Qed.

Lemma join_nonempty (sep x : string) (l : list string) :
  x <> EmptyString -> JS.join sep (x :: l) <> EmptyString.
Proof.
  intros Hx. unfold JS.join. simpl. destruct l as [|y l]; [exact Hx|].
  destruct x; [congruence | discriminate].
Qed.

(** X13. git log reorders the commit list of the snapshot it returns and
    changes nothing else. The commits of the result are the commits of the
    snapshot, each as often as before, listed newest first; a list that was
    already in that order is returned as it was, so a second git log
    changes nothing. Branches, tags and HEAD are untouched, the
    command always succeeds, and it prints (no commits) exactly when the
    snapshot has none. *)
Theorem log_sorts_in_place (w : World) (command : string) (state : GitState) :
  part (tokens command) 0 = Some "git" -> part (tokens command) 1 = Some "log" ->
  exists r,
    executeGitCommand w command state = Returns r
    /\ success r = true
    /\ Permutation (commits state) (commits (newState r))
    /\ StronglySorted notOlder (commits (newState r))
    /\ (StronglySorted notOlder (commits state) -> newState r = state)
    /\ branches (newState r) = branches state
    /\ tags (newState r) = tags state
    /\ head (newState r) = head state
    /\ (output r = "(no commits)" <-> commits state = [])
    /\ executeGitCommand w command (newState r)
       = Returns (ok (newState r) (output r)).
Proof.
  intros G L. exists (cmdLog w state).
  assert (forall s, executeGitCommand w command s = Returns (cmdLog w s)) as E.
  { intros s. unfold executeGitCommand, dispatch. now rewrite G, L. }
  split; [apply E|]. unfold cmdLog. cbn [success newState ok output].
  unfold withCommits. cbn [commits branches tags head].
  split; [reflexivity|].
  split; [apply sortNewestFirst_perm|].
  split; [apply sortNewestFirst_sorted|].
  split.
  { intros S. rewrite (sortNewestFirst_fixed _ S). now destruct state. }
  split; [reflexivity|]. split; [reflexivity|]. split; [reflexivity|].
  split.
  - split.
    + destruct (commits state) as [|c l]; [reflexivity|].
      intros O. exfalso.
      pose proof (sortNewestFirst_perm (c :: l)) as Pm.
      destruct (sortNewestFirst (c :: l)) as [|d l'] eqn:Srt.
      * apply Permutation_sym, Permutation_nil in Pm. discriminate.
      * cbn [map] in O.
        pose proof (join_nonempty (JS.nl ++ JS.nl) (logEntry w d) (map (logEntry w) l')
                      (logEntry_nonempty w d)) as Ne.
        destruct (JS.join (JS.nl ++ JS.nl) (logEntry w d :: map (logEntry w) l'))
          as [|a s] eqn:J; [congruence|].
        cbn [JS.truthyS] in O. unfold JS.join in J. cbn [String.concat] in J.
        revert O. rewrite <- J. clear J.
        destruct (map (logEntry w) l'); unfold logEntry; simpl; discriminate.
    + intros ->. reflexivity.
  - rewrite E. unfold cmdLog, withCommits. cbn [commits branches tags head].
    rewrite (sortNewestFirst_fixed _ (sortNewestFirst_sorted (commits state))).
    reflexivity.
Qed.

Lemma log_sorts_in_place_witness :
  exists r,
    executeGitCommand w0 "git log" (clonedState w0) = Returns r
    /\ map id (commits (newState r)) = ["a12b"; "c82a"].
Proof.
  destruct (log_sorts_in_place w0 "git log" (clonedState w0) eq_refl eq_refl)
    as [r [E _]].
  exists r. split; [exact E|].
  assert (Returns r = Returns (cmdLog w0 (clonedState w0))) as R
    by (rewrite <- E; reflexivity).
  injection R as ->. reflexivity.
Defined.

(** *** References are never deleted *)

Lemma refsStay_same (state : GitState) (cs : list Commit) (h : Head) :
  refsStay state {| commits := cs; branches := branches state; tags := tags state;
                    head := h |}.
Proof.
  split; simpl; [exists []; now rewrite app_nil_r | apply incl_refl].
Qed.

Lemma refsStay_refl (state : GitState) : refsStay state state.
Proof. split; [exists []; now rewrite app_nil_r | apply incl_refl]. Qed.

Lemma refsStay_pointTo (state : GitState) (cs : list Commit) (h : Head) (n c : string) :
  refsStay state {| commits := cs; branches := pointTo n c (branches state);
                    tags := tags state; head := h |}.
Proof.
  split; simpl; [exists []; now rewrite app_nil_r|].
  rewrite pointTo_names. apply incl_refl.
Qed.

Lemma refsStay_added (state : GitState) (cs : list Commit) (h : Head) (b : Branch) :
  refsStay state {| commits := cs; branches := (branches state ++ [b])%list;
                    tags := tags state; head := h |}.
Proof.
  split; simpl; [exists []; now rewrite app_nil_r|].
  rewrite map_app. apply incl_appl, incl_refl.
Qed.

Lemma refsStay_trans (s1 s2 s3 : GitState) :
  refsStay s1 s2 -> refsStay s2 s3 -> refsStay s1 s3.
Proof.
  intros [[e1 T1] B1] [[e2 T2] B2]. split.
  - exists (e1 ++ e2)%list. now rewrite T2, T1, app_assoc.
  - now apply (incl_tran B1).
Qed.

Lemma refsStay_advance (state : GitState) (cs : list Commit) (h : Head) (c : string) :
  refsStay state {| commits := cs; branches := advance state c;
                    tags := tags state; head := h |}.
Proof.
  unfold advance. destruct (type (head state));
    [apply refsStay_pointTo | apply refsStay_same].
Qed.

Ltac refs_leaf :=
  cbn [newState ok fail]; unfold withBranches, withHead, withTags, withCommits;
  first [ apply refsStay_refl
        | apply refsStay_same
        | apply refsStay_pointTo
        | apply refsStay_advance
        | apply refsStay_added ].

Section RefsStay.

Variable w : World.
Variable parts : list string.
Variable state : GitState.

Lemma cmdFetch_refs : refsStay state (newState (cmdFetch w state)).
Proof. unfold cmdFetch. split_cases; refs_leaf. Qed.

Lemma cmdMerge_refs : refsStay state (newState (cmdMerge w parts state)).
Proof. unfold cmdMerge. split_cases; refs_leaf. Qed.

Lemma cmdCommit_refs : refsStay state (newState (cmdCommit w parts state)).
Proof. unfold cmdCommit. split_cases; refs_leaf. Qed.

Lemma cmdCheckout_refs : refsStay state (newState (cmdCheckout parts state)).
Proof. unfold cmdCheckout. split_cases; refs_leaf. Qed.

Lemma cmdRevert_refs : refsStay state (newState (cmdRevert w parts state)).
Proof. unfold cmdRevert. split_cases; refs_leaf. Qed.

Lemma cmdCherryPick_refs : refsStay state (newState (cmdCherryPick w parts state)).
Proof. unfold cmdCherryPick. split_cases; refs_leaf. Qed.

Lemma cmdRemote_refs : refsStay state (newState (cmdRemote parts state)).
Proof. unfold cmdRemote. split_cases; refs_leaf. Qed.

Lemma cmdTag_refs : refsStay state (newState (cmdTag parts state)).
Proof.
  unfold cmdTag. destruct (negb (JS.truthy (part parts 2))); [apply refsStay_refl|].
  split; simpl; [eexists; reflexivity | apply incl_refl].
Qed.

Lemma cmdPush_refs : refsStay state (newState (cmdPush state)).
Proof.
  unfold cmdPush. split_cases; try apply refsStay_refl.
  split; simpl; [exists []; now rewrite app_nil_r|].
  intros n Hn. rewrite map_app. apply in_or_app.
  destruct (string_dec n ("origin/" ++ ref (head state))) as [-> | Ne].
  - right. now left.
  - left. apply in_map_iff in Hn. destruct Hn as [b0 [E Hb]].
    apply in_map_iff. exists b0. split; [exact E|].
    apply filter_In. split; [exact Hb|].
    apply negb_true_iff, String.eqb_neq. now rewrite E.
Qed.

Lemma cmdBranch_refs (r : Result) :
  eqS (part parts 2) "-M" = false ->
  cmdBranch parts state = Returns r -> refsStay state (newState r).
Proof.
  unfold cmdBranch. intros ->.
  split_cases; intros E; injection E as <-; refs_leaf.
Qed.

Lemma cmdReset_refs (r : Result) :
  cmdReset parts state = Returns r -> refsStay state (newState r).
Proof.
  unfold cmdReset.
  split_cases; intros E; try discriminate; injection E as <-; refs_leaf.
Qed.

Lemma cmdRebase_refs (r : Result) :
  cmdRebase w parts state = Returns r -> refsStay state (newState r).
Proof.
  unfold cmdRebase.
  split_cases; intros E; try discriminate; injection E as <-; refs_leaf.
Qed.

Lemma cmdLog_refs : refsStay state (newState (cmdLog w state)).
Proof. unfold cmdLog. refs_leaf. Qed.

End RefsStay.

Lemma cmdPull_refs (w : World) (state : GitState) :
  refsStay state (newState (cmdPull w state)).
Proof.
  unfold cmdPull. destruct (negb (success (cmdFetch w state))); cbn [newState].
  - apply cmdFetch_refs.
  - apply (refsStay_trans _ (newState (cmdFetch w state)));
      [apply cmdFetch_refs | apply cmdMerge_refs].
Qed.

Lemma find_kept {A} (p : A -> bool) (l extra : list A) (x : A) :
  find p l = Some x -> find p (l ++ extra)%list = Some x.
Proof.
  induction l as [|a l IH]; simpl; [discriminate|].
  destruct (p a); [trivial | exact IH].
Qed.

(** X14. The engine has no way to delete a reference. Apart from
    git init and git clone, which start a new repository, and
    git branch -M, which renames, a command that returns keeps every
    branch name among the branches and only ever appends to the tags: a
    tag name keeps naming the tag it named (a second tag of the same name
    is accepted but never found). *)
Theorem references_are_never_deleted (w : World) (command : string) (state : GitState)
    (r : Result) :
  eqS (part (tokens command) 1) "init" = false ->
  eqS (part (tokens command) 1) "clone" = false ->
  eqS (part (tokens command) 1) "branch" && eqS (part (tokens command) 2) "-M" = false ->
  executeGitCommand w command state = Returns r ->
  (forall n, In n (map name (branches state)) -> In n (map name (branches (newState r))))
  /\ (exists extra, tags (newState r) = (tags state ++ extra)%list)
  /\ (forall n t, findTag state n = Some t -> findTag (newState r) n = Some t).
Proof.
  intros Hinit Hclone HM.
  assert (refsStay state (newState r) ->
          (forall n, In n (map name (branches state)) ->
                     In n (map name (branches (newState r))))
          /\ (exists extra, tags (newState r) = (tags state ++ extra)%list)
          /\ (forall n t, findTag state n = Some t -> findTag (newState r) n = Some t))
    as Enough.
  { intros [[extra T] B]. split; [exact B|]. split; [now exists extra|].
    intros n t F. unfold findTag in *. rewrite T. now apply find_kept. }
  unfold executeGitCommand, dispatch. rewrite Hinit, Hclone.
  destruct (eqS (part (tokens command) 1) "branch") eqn:Br.
  - cbn [andb] in HM.
    repeat match goal with
    | |- context [if ?c then _ else _] => destruct c
    end;
    intros E; apply Enough;
    first
      [ now apply (cmdBranch_refs (tokens command))
      | injection E as <-;
        first [ apply refsStay_refl | apply cmdRemote_refs | apply cmdLog_refs
              | apply cmdFetch_refs | apply cmdPull_refs | apply cmdPush_refs
              | apply cmdCommit_refs ] ].
  - repeat match goal with
    | |- context [if ?c then _ else _] => destruct c
    end;
    intros E; apply Enough;
    first
      [ now apply (cmdReset_refs (tokens command))
      | now apply (cmdRebase_refs w (tokens command))
      | injection E as <-;
        first [ apply refsStay_refl | apply cmdRemote_refs | apply cmdLog_refs
              | apply cmdFetch_refs | apply cmdPull_refs | apply cmdPush_refs
              | apply cmdCommit_refs | apply cmdCheckout_refs | apply cmdMerge_refs
              | apply cmdRevert_refs | apply cmdCherryPick_refs | apply cmdTag_refs ] ].
Qed.

Lemma references_are_never_deleted_witness :
  success (cmdTag ["git"; "tag"; "v1"]
             (withTags forked [ {| name := "v1"; commitId := "a" |} ])) = true
  /\ findTag (newState (cmdTag ["git"; "tag"; "v1"]
                          (withTags forked [ {| name := "v1"; commitId := "a" |} ])))
             "v1"
     = Some {| name := "v1"; commitId := "a" |}.
Proof.
  split; [reflexivity|].
  destruct (references_are_never_deleted w0 "git tag v1"
              (withTags forked [ {| name := "v1"; commitId := "a" |} ])
              (cmdTag ["git"; "tag"; "v1"]
                 (withTags forked [ {| name := "v1"; commitId := "a" |} ]))
              eq_refl eq_refl eq_refl eq_refl) as [_ [_ Keep]].
  apply Keep. reflexivity.
Defined.

(** *** Committing *)

Lemma pointTo_absent (n c : string) (bs : list Branch) :
  ~ In n (map name bs) -> pointTo n c bs = bs.
Proof.
  induction bs as [|b bs IH]; simpl; [reflexivity|]. intros H.
  destruct (name b =? n) eqn:E.
  - apply String.eqb_eq in E. exfalso. apply H. now left.
  - rewrite IH; [reflexivity|]. intros Hin. apply H. now right.
Qed.

(** X15. A plain git commit (no --amend token) always succeeds and
    appends exactly one commit: its first parent is the commit of HEAD, it
    has no second parent, its author is User, and its timestamp is at
    least 2000 ms after that of every commit of the snapshot where that
    sum is exact (timestamps within 2^53). Tags, branch
    names and the kind of HEAD are unchanged, and every branch other than
    the current one stays where it was. When HEAD is detached, or names an
    existing branch, the new commit becomes the commit of HEAD. When HEAD
    names a branch that does not exist, no branch moves and the commit of
    HEAD remains the fallback init: the new commit is left unreferenced. *)
Theorem commit_extends_head (w : World) (command : string) (state : GitState) :
  part (tokens command) 0 = Some "git" -> part (tokens command) 1 = Some "commit" ->
  JS.includes (tokens command) "--amend" = false ->
  exists r c,
    executeGitCommand w command state = Returns r
    /\ success r = true
    /\ commits (newState r) = (commits state ++ [c])%list
    /\ parentId c = Some (getHeadCommitId state)
    /\ secondParentId c = None
    /\ author c = "User"
    /\ (sumsExact w state 0 ->
        forall d, In d (commits state) -> (timestamp d + 2000 <= timestamp c)%Z)
    /\ tags (newState r) = tags state
    /\ type (head (newState r)) = type (head state)
    /\ map name (branches (newState r)) = map name (branches state)
    /\ (forall x, type (head state) = type_commit \/ x <> ref (head state) ->
                  findBranch (newState r) x = findBranch state x)
    /\ (type (head state) = type_commit
        \/ In (ref (head state)) (map name (branches state)) ->
        getHeadCommitId (newState r) = id c)
    /\ (type (head state) = type_branch ->
        ~ In (ref (head state)) (map name (branches state)) ->
        branches (newState r) = branches state
        /\ head (newState r) = head state
        /\ getHeadCommitId (newState r) = "init").
Proof.
  intros G C A. unfold executeGitCommand, dispatch. rewrite G, C. simpl.
  unfold cmdCommit. rewrite A.
  match goal with
  | |- context [let '(_, _) := ?x in _] => destruct x as [m used]
  end.
  set (c := {| id := generateShortId w used; message := m;
               parentId := Some (getHeadCommitId state); secondParentId := None;
               timestamp := getNextTimestamp w 0 state; author := "User" |}).
  assert (sumsExact w state 0 ->
          forall d, In d (commits state) -> (timestamp d + 2000 <= timestamp c)%Z)
    as Newer.
  { intros Hx d Hd. unfold c. cbn [timestamp].
    rewrite (getNextTimestamp_exact w 0 0 state Hx).
    pose proof (maxTimestamp_ge _ _ Hd). lia. }
  destruct (type (head state)) eqn:T.
  - eexists. exists c. split; [reflexivity|]. cbn [newState ok success].
    cbn [commits tags head branches].
    split; [reflexivity|]. split; [reflexivity|]. split; [reflexivity|].
    split; [reflexivity|]. split; [reflexivity|]. split; [exact Newer|].
    split; [reflexivity|]. split; [exact T|].
    split; [apply pointTo_names|].
    split; [|split].
    + intros x [H | H]; [discriminate|].
      unfold findBranch. cbn [branches]. now apply find_pointTo_other.
    + intros [H | H]; [discriminate|].
      now apply (getHeadCommitId_pointTo state).
    + intros _ Missing. rewrite (pointTo_absent _ _ _ Missing).
      split; [reflexivity|]. split; [reflexivity|].
      unfold getHeadCommitId. cbn [head]. rewrite T.
      unfold findBranch. cbn [branches].
      assert (findBranch state (ref (head state)) = None) as F
        by now apply findBranch_None.
      unfold findBranch in F. now rewrite F.
  - eexists. exists c. split; [reflexivity|]. cbn [newState ok success].
    cbn [commits tags head branches type].
    split; [reflexivity|]. split; [reflexivity|]. split; [reflexivity|].
    split; [reflexivity|]. split; [reflexivity|]. split; [exact Newer|].
    split; [reflexivity|]. split; [reflexivity|]. split; [reflexivity|].
    split; [|split].
    + intros x _. reflexivity.
    + intros _. reflexivity.
    + discriminate.
Qed.

Lemma commit_extends_head_witness :
  exists r c,
    executeGitCommand w0 "git commit -m first" twoAhead = Returns r
    /\ commits (newState r) = (commits twoAhead ++ [c])%list
    /\ parentId c = Some "b2"
    /\ (timestamp (plainCommit "c" (Some "a") 4) + 2000 <= timestamp c)%Z
    /\ getHeadCommitId (newState r) = id c.
Proof.
  destruct (commit_extends_head w0 "git commit -m first" twoAhead
              eq_refl eq_refl eq_refl)
    as (r & c & E & _ & Hc & Hp & _ & _ & Ht & _ & _ & _ & _ & Hh & _).
  exists r, c. repeat split; try assumption.
  - apply Ht; [|simpl; tauto].
    exact (sumsExact_fewer w0 twoAhead 2 0 ltac:(lia) w0_twoAhead_exact).
  - apply Hh. right. simpl. tauto.
Defined.

(* ================================================================== *)
(** ** Properties of accounts and progress *)
(* ================================================================== *)

(** *** User maps *)

Lemma mapGet_mapSet_same (k : string) (v : User) (users : UserMap) :
  mapGet k (mapSet k v users) = Some v.
Proof.
  unfold mapGet. induction users as [|e rest IH]; simpl.
  - now rewrite String.eqb_refl.
  - destruct (fst e =? k) eqn:E; simpl.
    + now rewrite String.eqb_refl.
    + rewrite E. exact IH.
Qed.

Lemma mapGet_mapSet_other (k k' : string) (v : User) (users : UserMap) :
  k' <> k -> mapGet k' (mapSet k v users) = mapGet k' users.
Proof.
  intros Ne. unfold mapGet. induction users as [|e rest IH]; simpl.
  - apply not_eq_sym, String.eqb_neq in Ne. now rewrite Ne.
  - destruct (fst e =? k) eqn:E; simpl.
    + apply String.eqb_eq in E. rewrite E.
      apply not_eq_sym, String.eqb_neq in Ne. now rewrite Ne.
    + destruct (fst e =? k'); [reflexivity | exact IH].
Qed.

Lemma mapSet_keys (k k' : string) (v : User) (users : UserMap) :
  In k' (keys (mapSet k v users)) <-> k' = k \/ In k' (keys users).
Proof.
  unfold keys. induction users as [|e rest IH]; simpl.
  - intuition congruence.
  - destruct (fst e =? k) eqn:E; simpl.
    + apply String.eqb_eq in E. intuition congruence.
    + rewrite IH. tauto.
Qed.

Lemma mapSet_NoDup (k : string) (v : User) (users : UserMap) :
  NoDup (keys users) -> NoDup (keys (mapSet k v users)).
Proof.
  unfold keys. induction users as [|e rest IH]; simpl; intros N.
  - constructor; [intros [] | constructor].
  - inversion N as [|x l Hx Hl]; subst.
    destruct (fst e =? k) eqn:E; simpl.
    + apply String.eqb_eq in E. rewrite <- E. now constructor.
    + constructor; [|now apply IH].
      intros Hin. apply (mapSet_keys k (fst e) v rest) in Hin.
      destruct Hin as [Hk | Hin]; [|contradiction].
      apply String.eqb_neq in E. congruence.
Qed.

Lemma mapSet_In (k : string) (v : User) (users : UserMap) (e : string * User) :
  In e (mapSet k v users) -> e = (k, v) \/ In e users.
Proof.
  induction users as [|e0 rest IH]; simpl.
  - intros [H | []]. now left.
  - destruct (fst e0 =? k); simpl.
    + intros [H | H]; [left; congruence | right; now right].
    + intros [H | H]; [right; now left|].
      destruct (IH H) as [H' | H']; [now left | right; now right].
Qed.

Lemma mapSet_fresh (k : string) (v : User) (users : UserMap) :
  ~ In k (keys users) -> mapSet k v users = (users ++ [(k, v)])%list.
Proof.
  unfold keys. induction users as [|e rest IH]; simpl; intros H; [reflexivity|].
  destruct (fst e =? k) eqn:E.
  - apply String.eqb_eq in E. exfalso. apply H. now left.
  - rewrite IH; [reflexivity|]. intros Hin. apply H. now right.
Qed.

Lemma newMap_from (entries : list (string * User)) :
  forall acc,
    NoDup (keys acc) ->
    NoDup (keys (fold_left (fun users e => mapSet (fst e) (snd e) users) entries acc)).
Proof.
  induction entries as [|e rest IH]; intros acc N; simpl; [exact N|].
  apply IH. now apply mapSet_NoDup.
Qed.

Lemma newMap_NoDup (entries : list (string * User)) : NoDup (keys (newMap entries)).
Proof. apply newMap_from. constructor. Qed.

Lemma newMap_fixed (users : UserMap) : NoDup (keys users) -> newMap users = users.
Proof.
  unfold newMap.
  assert (forall rest acc : UserMap,
            NoDup (keys (acc ++ rest)%list) ->
            fold_left (fun m e => mapSet (fst e) (snd e) m) rest acc
            = (acc ++ rest)%list) as Gen.
  { induction rest as [|e rest IH]; intros acc N; simpl; [now rewrite app_nil_r|].
    rewrite mapSet_fresh.
    - rewrite <- surjective_pairing.
      rewrite IH; rewrite <- app_assoc; [reflexivity | exact N].
    - unfold keys in *. rewrite map_app in N. simpl in N.
      apply NoDup_remove_2 in N. intros Hin. apply N.
      apply in_or_app. now left. }
  intros N. now apply (Gen users []).
Qed.

Lemma getUsers_NoDup (ls : LocalStorage) : NoDup (keys (getUsers ls)).
Proof.
  unfold getUsers. destruct (usersItem ls) as [[|entries]|];
    [constructor | apply newMap_NoDup | constructor].
Qed.

Lemma getUsers_saveUsers (users : UserMap) (ls : LocalStorage) :
  NoDup (keys users) -> getUsers (saveUsers users ls) = users.
Proof. intros N. unfold getUsers, saveUsers. simpl. now apply newMap_fixed. Qed.

Lemma getUsers_written (k : string) (v : User) (ls ls0 : LocalStorage) :
  getUsers (saveUsers (mapSet k v (getUsers ls)) ls0) = mapSet k v (getUsers ls).
Proof. apply getUsers_saveUsers, mapSet_NoDup, getUsers_NoDup. Qed.

Lemma getUsers_setCurrentUser (e : option string) (ls : LocalStorage) :
  getUsers (setCurrentUser e ls) = getUsers ls.
Proof. unfold setCurrentUser, getUsers. now destruct (JS.truthy e). Qed.

Lemma keysMatch_mapSet (k : string) (v : User) (users : UserMap) :
  keysMatch users -> email v = k -> keysMatch (mapSet k v users).
Proof.
  unfold keysMatch. rewrite !Forall_forall. intros H Hv e He.
  apply mapSet_In in He. destruct He as [-> | He]; [exact Hv | now apply H].
Qed.

Lemma keysMatch_mapGet (k : string) (u : User) (users : UserMap) :
  keysMatch users -> mapGet k users = Some u -> email u = k.
Proof.
  unfold keysMatch, mapGet. rewrite Forall_forall. intros H G.
  destruct (find (fun e => fst e =? k) users) as [e|] eqn:F; [|discriminate].
  injection G as <-. apply find_some in F. destruct F as [Hin E].
  apply String.eqb_eq in E. rewrite <- E. now apply H.
Qed.

(** *** The current user *)

Lemma migrated_email (e : string) (u : User) : email (migrated e u) = email u.
Proof. unfold migrated. now destruct (negb (JS.truthy (avatarName u))). Qed.

Lemma migrated_progress (e : string) (u : User) : progress (migrated e u) = progress u.
Proof. unfold migrated. now destruct (negb (JS.truthy (avatarName u))). Qed.

Lemma migrated_twice (e : string) (u : User) : migrated e (migrated e u) = migrated e u.
Proof.
  unfold migrated. destruct (JS.truthy (avatarName u)) eqn:T; cbn [negb].
  - now rewrite T.
  - cbn [avatarName withAvatarName].
    destruct (negb (JS.truthy (Some (localPart e)))); reflexivity.
Qed.

Lemma migrated_assign (e : string) (u : User) (updates : Updates) :
  migrated e (assign u updates) = assign (migrated e u) updates.
Proof.
  unfold migrated. cbn [avatarName assign].
  now destruct (negb (JS.truthy (avatarName u))).
Qed.

(** What [getCurrentUser] returns and what it leaves in the storage. *)
Lemma getCurrentUser_found (ls : LocalStorage) (e : string) (u : User) :
  currentUserItem ls = Some e -> e <> EmptyString ->
  mapGet e (getUsers ls) = Some u ->
  fst (getCurrentUser ls) = Some (migrated e u)
  /\ currentUserItem (snd (getCurrentUser ls)) = Some e
  /\ (getUsers (snd (getCurrentUser ls)) = getUsers ls
      \/ getUsers (snd (getCurrentUser ls)) = mapSet e (migrated e u) (getUsers ls)).
Proof.
  intros C Ne G. unfold getCurrentUser. rewrite C.
  assert (JS.truthyS e = true) as -> by (destruct e; [congruence | reflexivity]).
  cbn [negb]. rewrite G. unfold migrated.
  destruct (negb (JS.truthy (avatarName u))); cbn [fst snd].
  - split; [reflexivity|]. split; [exact C|]. right. apply getUsers_written.
  - split; [reflexivity|]. split; [exact C|]. now left.
Qed.

Lemma getCurrentUser_none (ls : LocalStorage) :
  fst (getCurrentUser ls) = None -> snd (getCurrentUser ls) = ls.
Proof.
  unfold getCurrentUser. destruct (currentUserItem ls) as [e|]; [|reflexivity].
  destruct (negb (JS.truthyS e)); [reflexivity|].
  destruct (mapGet e (getUsers ls)) as [u|]; [|reflexivity].
  destruct (negb (JS.truthy (avatarName u))); discriminate.
Qed.

Lemma getCurrentUser_some (ls : LocalStorage) (cu : User) :
  fst (getCurrentUser ls) = Some cu ->
  exists e u,
    currentUserItem ls = Some e /\ e <> EmptyString
    /\ mapGet e (getUsers ls) = Some u /\ cu = migrated e u.
Proof.
  unfold getCurrentUser. destruct (currentUserItem ls) as [e|]; [|discriminate].
  destruct (JS.truthyS e) eqn:T; cbn [negb]; [|discriminate].
  destruct (mapGet e (getUsers ls)) as [u|] eqn:G; [|discriminate].
  intros H. exists e, u.
  split; [reflexivity|]. split; [destruct e; [discriminate | congruence]|].
  split; [exact G|]. unfold migrated.
  destruct (negb (JS.truthy (avatarName u))); cbn [fst] in H; congruence.
Qed.

(** *** The storage stays consistent *)

Lemma consistent_written (k : string) (v : User) (ls ls0 : LocalStorage) :
  consistent ls -> email v = k ->
  consistent (saveUsers (mapSet k v (getUsers ls)) ls0).
Proof.
  unfold consistent. intros C E. rewrite getUsers_written.
  now apply keysMatch_mapSet.
Qed.

Lemma keys_written (k k' : string) (v : User) (ls ls0 : LocalStorage) :
  In k' (keys (getUsers ls)) ->
  In k' (keys (getUsers (saveUsers (mapSet k v (getUsers ls)) ls0))).
Proof. intros H. rewrite getUsers_written. apply mapSet_keys. now right. Qed.

Lemma wrote_consistent (ls ls' : LocalStorage) :
  wrote ls ls' -> consistent ls ->
  consistent ls'
  /\ forall k, In k (keys (getUsers ls)) -> In k (keys (getUsers ls')).
Proof.
  unfold consistent. intros [E | [k [v [Ev E]]]] C; rewrite E.
  - now split.
  - split; [now apply keysMatch_mapSet|].
    intros k' H. apply mapSet_keys. now right.
Qed.

Lemma getCurrentUser_wrote (ls : LocalStorage) :
  consistent ls -> wrote ls (snd (getCurrentUser ls)).
Proof.
  intros C. unfold getCurrentUser.
  destruct (currentUserItem ls) as [e|]; [|now left].
  destruct (negb (JS.truthyS e)); [now left|].
  destruct (mapGet e (getUsers ls)) as [u|] eqn:G; [|now left].
  destruct (negb (JS.truthy (avatarName u))); [|now left].
  right. exists e, (withAvatarName u (localPart e)). cbn [snd].
  split; [apply (keysMatch_mapGet e u _ C G) | apply getUsers_written].
Qed.

Lemma updateUserProgress_wrote (e : string) (updates : Updates) (ls : LocalStorage) :
  consistent ls -> wrote ls (snd (updateUserProgress e updates ls)).
Proof.
  intros C. unfold updateUserProgress.
  destruct (mapGet e (getUsers ls)) as [u|] eqn:G; [|now left].
  right. exists e, (assign u updates). cbn [snd].
  split; [apply (keysMatch_mapGet e u _ C G) | apply getUsers_written].
Qed.

Lemma storageAfter_consistent (w : World) (c : Call) (ls : LocalStorage) :
  consistent ls ->
  consistent (storageAfter w c ls)
  /\ forall k, In k (keys (getUsers ls)) -> In k (keys (getUsers (storageAfter w c ls))).
Proof.
  intros C. destruct c as [|e a|e| |e updates|current unlocked spent|];
    cbn [storageAfter].
  - apply wrote_consistent; [now apply getCurrentUser_wrote | exact C].
  - unfold signUp. destruct (mapHas e (getUsers ls)); [now split|].
    apply wrote_consistent; [|exact C]. right.
    eexists. eexists. split; [|rewrite getUsers_setCurrentUser; apply getUsers_written].
    reflexivity.
  - unfold signIn. destruct (mapGet e (getUsers ls)) as [u|] eqn:G; [|now split].
    cbn [snd]. apply wrote_consistent; [|exact C]. right.
    exists e, (withLastLogin u (Date_now w 0)).
    split; [apply (keysMatch_mapGet e u _ C G)|].
    rewrite getUsers_setCurrentUser. apply getUsers_written.
  - unfold signOut, consistent. rewrite getUsers_setCurrentUser. now split.
  - apply wrote_consistent; [now apply updateUserProgress_wrote | exact C].
  - unfold saveProgress.
    destruct (wrote_consistent ls _ (getCurrentUser_wrote ls C) C) as [C1 K1].
    destruct (getCurrentUser ls) as [[cu|] ls1]; cbn [snd] in *; [|now split].
    destruct (wrote_consistent ls1 _
                (updateUserProgress_wrote (email cu)
                   {| newCurrentLessonIdx := Some current;
                      newUnlockedLessonIdx := Some unlocked;
                      newTotalTimeSpent := Some spent |} ls1 C1) C1) as [C2 K2].
    split; [exact C2 | auto].
  - unfold loadProgress.
    destruct (wrote_consistent ls _ (getCurrentUser_wrote ls C) C) as [C1 K1].
    destruct (getCurrentUser ls) as [[cu|] ls1]; cbn [snd] in *; now split.
Qed.

(** X16. The calls of the account module keep the stored users
    consistent and never delete an account: if every stored user is filed
    under its own email, the same holds after any call (getCurrentUser,
    signUp, signIn, signOut, updateUserProgress, saveProgress,
    loadProgress), and every email that had an account still has one.
    Hence the storage is consistent after any sequence of calls that starts
    in a browser without stored items. *)
Theorem account_calls_keep_storage_consistent :
  (forall w c ls,
     consistent ls ->
     consistent (storageAfter w c ls)
     /\ forall k, In k (keys (getUsers ls)) ->
                  In k (keys (getUsers (storageAfter w c ls))))
  /\ (forall ws calls i, consistent (storageAfterAll ws i calls emptyStorage)).
Proof.
  split; [apply storageAfter_consistent|].
  intros ws calls.
  assert (forall ls i, consistent ls -> consistent (storageAfterAll ws i calls ls)) as Gen.
  { induction calls as [|c rest IH]; intros ls i C; simpl; [exact C|].
    apply IH. now apply storageAfter_consistent. }
  intros i. apply Gen. constructor.
Qed.

(** *** Signing up *)

Lemma mapHas_mapGet (k : string) (users : UserMap) :
  mapHas k users = false <-> mapGet k users = None.
Proof. unfold mapHas. destruct (mapGet k users); split; congruence. Qed.

(** X17. signUp registers an email once. If the email has an account,
    signUp throws User already exists (and so does a second signUp after a
    first). Otherwise it returns a new user with that email, the given
    avatar name (the part of the email before the first @ when none is
    given) and progress zero, files it under the email and leaves every
    other account as it was. If the email is not the empty string, that
    user is the current user from then on and loadProgress gives zero
    progress; with the empty string as email the account is created but
    nobody is logged in. *)
Theorem signUp_registers_once (w w' : World) (e : string) (a a' : option string)
    (ls : LocalStorage) :
  match mapGet e (getUsers ls) with
  | Some _ => signUp w e a ls = Rejected "User already exists"
  | None =>
      exists u ls',
        signUp w e a ls = Registered u ls'
        /\ email u = e
        /\ avatarName u = Some (if JS.truthy a then JS.show a else localPart e)
        /\ progress u = (0, 0, 0)%Z
        /\ mapGet e (getUsers ls') = Some u
        /\ (forall k, k <> e -> mapGet k (getUsers ls') = mapGet k (getUsers ls))
        /\ signUp w' e a' ls' = Rejected "User already exists"
        /\ (e <> EmptyString ->
            fst (getCurrentUser ls') = Some u
            /\ fst (loadProgress ls') = Some (0, 0, 0)%Z)
        /\ (e = EmptyString -> fst (getCurrentUser ls') = None)
  end.
Proof.
  destruct (mapGet e (getUsers ls)) as [u0|] eqn:G.
  - unfold signUp, mapHas. now rewrite G.
  - unfold signUp at 1. unfold mapHas. rewrite G.
    set (u := {| email := e;
                 avatarName := Some (if JS.truthy a then JS.show a else localPart e);
                 currentLessonIdx := 0; unlockedLessonIdx := 0; totalTimeSpent := 0;
                 lastLogin := Date_now w 0; createdAt := Date_now w 1 |}).
    set (ls' := setCurrentUser (Some e) (saveUsers (mapSet e u (getUsers ls)) ls)).
    assert (getUsers ls' = mapSet e u (getUsers ls)) as U.
    { unfold ls'. rewrite getUsers_setCurrentUser. apply getUsers_written. }
    assert (mapGet e (getUsers ls') = Some u) as G'.
    { rewrite U. apply mapGet_mapSet_same. }
    exists u, ls'. split; [reflexivity|]. split; [reflexivity|].
    split; [reflexivity|]. split; [reflexivity|]. split; [exact G'|].
    split; [intros k Ne; rewrite U; now apply mapGet_mapSet_other|].
    split; [unfold signUp, mapHas; now rewrite G'|].
    split.
    + intros Ne.
      assert (currentUserItem ls' = Some e) as C.
      { unfold ls', setCurrentUser. destruct e; [congruence | reflexivity]. }
      destruct (getCurrentUser_found ls' e u C Ne G') as [F _].
      assert (migrated e u = u) as M.
      { unfold migrated, u. cbn [avatarName].
        destruct (JS.truthy (Some (if JS.truthy a then JS.show a else localPart e)))
          eqn:T; cbn [negb]; [reflexivity|].
        unfold withAvatarName. cbn.
        destruct (JS.truthy a) eqn:Ta; [|reflexivity].
        destruct a as [s|]; [|discriminate]. cbn in T, Ta. congruence. }
      rewrite M in F. split; [exact F|].
      unfold loadProgress. destruct (getCurrentUser ls') as [cu ls'']. cbn [fst] in F.
      now rewrite F.
    + intros ->. unfold getCurrentUser, ls', setCurrentUser. reflexivity.
Qed.

(** *** Saving and loading progress *)

Lemma updateUserProgress_found (e : string) (u : User) (updates : Updates)
    (ls : LocalStorage) :
  mapGet e (getUsers ls) = Some u ->
  getUsers (snd (updateUserProgress e updates ls)) = mapSet e (assign u updates) (getUsers ls)
  /\ currentUserItem (snd (updateUserProgress e updates ls)) = currentUserItem ls.
Proof.
  intros G. unfold updateUserProgress. rewrite G. cbn [snd].
  split; [apply getUsers_written | reflexivity].
Qed.

(** X18. Progress that is saved is what is loaded. When someone is
    logged in (getCurrentUser returns a user) and every stored user is
    filed under its own email, saveProgress followed by loadProgress
    returns the three numbers that were saved; the current user stays the
    same but for the three numbers, and every other account is untouched.
    When nobody is logged in, saveProgress changes nothing and
    loadProgress returns null. *)
Theorem saved_progress_is_loaded (current unlocked spent : Z) (ls : LocalStorage) :
  consistent ls ->
  match fst (getCurrentUser ls) with
  | Some cu =>
      fst (loadProgress (saveProgress current unlocked spent ls))
      = Some (current, unlocked, spent)
      /\ fst (getCurrentUser (saveProgress current unlocked spent ls))
         = Some (assign cu {| newCurrentLessonIdx := Some current;
                              newUnlockedLessonIdx := Some unlocked;
                              newTotalTimeSpent := Some spent |})
      /\ currentUserItem (saveProgress current unlocked spent ls) = currentUserItem ls
      /\ (forall k, k <> email cu ->
            mapGet k (getUsers (saveProgress current unlocked spent ls))
            = mapGet k (getUsers ls))
  | None =>
      saveProgress current unlocked spent ls = ls
      /\ fst (loadProgress ls) = None
  end.
Proof.
  intros C. destruct (fst (getCurrentUser ls)) as [cu|] eqn:F.
  - destruct (getCurrentUser_some ls cu F) as [e [u [Ce [Ne [G ->]]]]].
    destruct (getCurrentUser_found ls e u Ce Ne G) as [_ [C1 U1]].
    pose proof (keysMatch_mapGet e u _ C G) as Eu.
    set (upd := {| newCurrentLessonIdx := Some current;
                   newUnlockedLessonIdx := Some unlocked;
                   newTotalTimeSpent := Some spent |}).
    assert (mapGet e (getUsers (snd (getCurrentUser ls))) = Some u
            \/ mapGet e (getUsers (snd (getCurrentUser ls))) = Some (migrated e u))
      as G1.
    { destruct U1 as [-> | ->]; [now left | right; apply mapGet_mapSet_same]. }
    assert (forall k, k <> e ->
              mapGet k (getUsers (snd (getCurrentUser ls))) = mapGet k (getUsers ls))
      as O1.
    { intros k Nk. destruct U1 as [-> | ->];
        [reflexivity | now apply mapGet_mapSet_other]. }
    assert (exists u1,
              mapGet e (getUsers (snd (getCurrentUser ls))) = Some u1
              /\ migrated e u1 = migrated e u) as [u1 [G1' M1]].
    { destruct G1 as [G1 | G1]; eexists; (split; [exact G1|]);
        [reflexivity | apply migrated_twice]. }
    assert (saveProgress current unlocked spent ls
            = snd (updateUserProgress e upd (snd (getCurrentUser ls)))) as S.
    { unfold saveProgress. destruct (getCurrentUser ls) as [cu' ls1].
      cbn [fst snd] in *. rewrite F. rewrite migrated_email, Eu. reflexivity. }
    destruct (updateUserProgress_found e u1 upd _ G1') as [U2 C2].
    rewrite <- S in U2, C2.
    assert (mapGet e (getUsers (saveProgress current unlocked spent ls))
            = Some (assign u1 upd)) as G2.
    { rewrite U2. apply mapGet_mapSet_same. }
    assert (currentUserItem (saveProgress current unlocked spent ls) = Some e) as Ce2.
    { now rewrite C2. }
    destruct (getCurrentUser_found _ e (assign u1 upd) Ce2 Ne G2) as [F2 _].
    rewrite migrated_assign, M1 in F2.
    split; [|split; [exact F2 | split]].
    + unfold loadProgress.
      destruct (getCurrentUser (saveProgress current unlocked spent ls)) as [cu2 ls2].
      cbn [fst] in F2. rewrite F2. reflexivity.
    + rewrite Ce2. now rewrite Ce.
    + rewrite migrated_email, Eu. intros k Nk. rewrite U2.
      rewrite mapGet_mapSet_other by exact Nk. now apply O1.
  - pose proof (getCurrentUser_none ls F) as N.
    unfold saveProgress, loadProgress.
    destruct (getCurrentUser ls) as [cu1 ls1]. cbn [fst snd] in *. subst.
    now split.
Qed.

Lemma saved_progress_is_loaded_witness :
  fst (loadProgress
         (saveProgress 3 4 500
            (storageAfter w0 (callSignUp "ada@example.org" None) emptyStorage)))
  = Some (3, 4, 500)%Z.
Proof.
  pose proof (saved_progress_is_loaded 3 4 500
                (storageAfter w0 (callSignUp "ada@example.org" None) emptyStorage))
    as H.
  change (fst (getCurrentUser
                 (storageAfter w0 (callSignUp "ada@example.org" None) emptyStorage)))
    with (Some {| email := "ada@example.org"; avatarName := Some "ada";
                  currentLessonIdx := 0; unlockedLessonIdx := 0; totalTimeSpent := 0;
                  lastLogin := Date_now w0 0; createdAt := Date_now w0 1 |}) in H.
  apply H. repeat constructor.
Defined.

(** *** Signing out and in again *)

(** X19. Signing out loses nothing but the session. After signOut
    nobody is logged in: getCurrentUser and loadProgress return null and
    saveProgress changes nothing, while the stored users are as before.
    If a user was logged in (and every stored user is filed under its own
    email), signIn with that user's email then returns the user with a new
    login time and the progress it had, and loadProgress gives that
    progress again. signIn with an email that has no account returns null
    and leaves the storage alone. *)
Theorem signOut_keeps_progress (w : World) (current unlocked spent : Z)
    (ls : LocalStorage) :
  consistent ls ->
  fst (getCurrentUser (signOut ls)) = None
  /\ fst (loadProgress (signOut ls)) = None
  /\ saveProgress current unlocked spent (signOut ls) = signOut ls
  /\ getUsers (signOut ls) = getUsers ls
  /\ (forall e, mapGet e (getUsers ls) = None -> signIn w e ls = (None, ls))
  /\ (forall cu,
        fst (getCurrentUser ls) = Some cu ->
        exists u',
          fst (signIn w (email cu) (signOut ls)) = Some u'
          /\ email u' = email cu
          /\ lastLogin u' = Date_now w 0
          /\ createdAt u' = createdAt cu
          /\ progress u' = progress cu
          /\ fst (loadProgress (snd (signIn w (email cu) (signOut ls))))
             = Some (progress cu)).
Proof.
  intros C.
  assert (getCurrentUser (signOut ls) = (None, signOut ls)) as Out by reflexivity.
  split; [now rewrite Out|].
  split; [unfold loadProgress; now rewrite Out|].
  split; [unfold saveProgress; now rewrite Out|].
  split; [apply getUsers_setCurrentUser|].
  split; [intros e G; unfold signIn; now rewrite G|].
  intros cu F.
  destruct (getCurrentUser_some ls cu F) as [e [u [Ce [Ne [G ->]]]]].
  pose proof (keysMatch_mapGet e u _ C G) as Eu.
  rewrite migrated_email, Eu.
  unfold signIn, signOut. rewrite getUsers_setCurrentUser, G. cbn [fst snd].
  set (u' := withLastLogin u (Date_now w 0)).
  set (ls2 := setCurrentUser (Some e)
                (saveUsers (mapSet e u' (getUsers ls)) (setCurrentUser None ls))).
  exists u'. split; [reflexivity|]. split; [exact Eu|]. split; [reflexivity|].
  split; [unfold migrated; now destruct (negb (JS.truthy (avatarName u)))|].
  split; [now rewrite migrated_progress|].
  assert (currentUserItem ls2 = Some e) as C2.
  { unfold ls2, setCurrentUser. destruct e; [congruence | reflexivity]. }
  assert (mapGet e (getUsers ls2) = Some u') as G2.
  { unfold ls2. rewrite getUsers_setCurrentUser, getUsers_written.
    apply mapGet_mapSet_same. }
  destruct (getCurrentUser_found ls2 e u' C2 Ne G2) as [F2 _].
  unfold loadProgress. destruct (getCurrentUser ls2) as [cu2 ls3]. cbn [fst] in F2.
  rewrite F2. cbn [fst]. f_equal.
  change (progress (migrated e u') = progress (migrated e u)).
  now rewrite !migrated_progress.
Qed.

Lemma signOut_keeps_progress_witness :
  exists u',
    fst (signIn w0 "ada@example.org"
           (signOut (saveProgress 3 4 500
                       (storageAfter w0 (callSignUp "ada@example.org" None)
                          emptyStorage))))
    = Some u'
    /\ progress u' = (3, 4, 500)%Z.
Proof.
  destruct (signOut_keeps_progress w0 0 0 0
              (saveProgress 3 4 500
                 (storageAfter w0 (callSignUp "ada@example.org" None) emptyStorage)))
    as (_ & _ & _ & _ & _ & In).
  - repeat constructor.
  - destruct (In {| email := "ada@example.org"; avatarName := Some "ada";
                    currentLessonIdx := 3; unlockedLessonIdx := 4;
                    totalTimeSpent := 500;
                    lastLogin := Date_now w0 0; createdAt := Date_now w0 1 |}
                eq_refl) as (u' & S & _ & _ & _ & P & _).
    exists u'. split; [exact S | exact P].
Defined.

(* ================================================================== *)
(** ** Further properties of the command loop *)
(* ================================================================== *)

Lemma runCommands_wellFormed (ws : nat -> World) (commands : list string) :
  forall i state outs p,
    wellFormed state ->
    runCommands ws i commands state outs = Done p ->
    wellFormed (published p).
Proof.
  induction commands as [|c rest IH]; intros i state outs p WF; simpl.
  - intros E. injection E as <-. exact WF.
  - destruct (executeGitCommand (ws i) c state) as [r | | |] eqn:X; try discriminate.
    destruct (success r).
    + apply IH. unfold executeGitCommand in X.
      now apply (dispatch_wellFormed (ws i) (tokens c) state).
    + intros E. injection E as <-. exact WF.
Qed.

Lemma runCommands_reachable (ws : nat -> World) (commands : list string) :
  forall i state outs p,
    reachable state ->
    runCommands ws i commands state outs = Done p ->
    reachable (published p).
Proof.
  induction commands as [|c rest IH]; intros i state outs p R; simpl.
  - intros E. injection E as <-. exact R.
  - destruct (executeGitCommand (ws i) c state) as [r | | |] eqn:X; try discriminate.
    destruct (success r).
    + apply IH. now apply (reachable_step (ws i) c state).
    + intros E. injection E as <-. exact R.
Qed.

(** X20. Whatever handleCommand publishes is a snapshot of the engine.
    If nothing dangles in the current snapshot, nothing dangles in the
    snapshot that the state updater returns, for every input line (any
    number of commands joined by &&, succeeding or failing midway); and if
    the current snapshot can be reached from the initial one by engine
    commands, so can the published one. *)
Theorem handleCommand_publishes_sound_snapshots (ws : nat -> World) (cmd : string)
    (currentState : GitState) (p : Published) :
  handleCommand ws cmd currentState = Done p ->
  (wellFormed currentState -> wellFormed (published p))
  /\ (reachable currentState -> reachable (published p)).
Proof.
  unfold handleCommand. destruct (cmd =? "clear").
  - intros E. injection E as <-. now split.
  - intros E. split; intros H.
    + now apply (runCommands_wellFormed ws (subCommands cmd) 0 currentState []).
    + now apply (runCommands_reachable ws (subCommands cmd) 0 currentState []).
Qed.

Lemma handleCommand_publishes_sound_snapshots_witness :
  exists p,
    handleCommand (fun _ => w0) "git commit && git checkout nowhere" (INITIAL_STATE w0)
    = Done p
    /\ wellFormed (published p)
    /\ List.length (commits (published p)) = 2.
Proof.
  eexists. split; [reflexivity|]. split; [|reflexivity].
  refine (proj1 (handleCommand_publishes_sound_snapshots (fun _ => w0)
                   "git commit && git checkout nowhere" (INITIAL_STATE w0) _ eq_refl) _).
  apply INITIAL_STATE_wellFormed.
Defined.

(** *** A line with a single command *)

Lemma split_no_ampersand (s : string) :
  JS.indexOf ampersand s = None -> JS.split "&&" s = [s].
Proof.
  unfold JS.split. induction s as [|c s IH]; [reflexivity|].
  cbn [JS.indexOf JS.splitFrom].
  destruct (Ascii.eqb ampersand c) eqn:E; [discriminate|].
  destruct (JS.indexOf ampersand s); [discriminate|]. intros _.
  assert (prefix "&&" (String c s) = false) as ->.
  { cbn [prefix]. destruct (ascii_dec "&" c) as [D | D]; [|reflexivity].
    subst c. discriminate. }
  now rewrite IH.
Qed.

Lemma trimEnd_twice (s : string) : JS.trimEnd (JS.trimEnd s) = JS.trimEnd s.
Proof.
  induction s as [|c s IH]; [reflexivity|].
  cbn [JS.trimEnd]. destruct (JS.trimEnd s) as [|d t] eqn:T.
  - destruct (JS.isSpace c) eqn:Sp; [reflexivity|].
    cbn [JS.trimEnd]. now rewrite Sp.
  - change (JS.trimEnd (String c (String d t)) = String c (String d t)).
    cbn [JS.trimEnd] in *. 
    destruct (JS.trimEnd t) as [|d' t'] eqn:T'.
    + destruct (JS.isSpace d); [discriminate|]. injection IH as ->. reflexivity.
    + now rewrite IH.
Qed.

Lemma trimStart_fixed (s : string) :
  match s with
  | EmptyString => True
  | String c _ => JS.isSpace c = false
  end ->
  JS.trimStart s = s.
Proof. destruct s as [|c s]; [reflexivity|]. simpl. now intros ->. Qed.

Lemma trim_twice (s : string) : JS.trim (JS.trim s) = JS.trim s.
Proof.
  unfold JS.trim.
  pose proof (trimStart_head s) as Hd.
  destruct (JS.trimStart s) as [|c t] eqn:Ts; [reflexivity|].
  destruct (trimEnd_head c t Hd) as [t' E]. rewrite E.
  rewrite trimStart_fixed by exact Hd. rewrite <- E. apply trimEnd_twice.
Qed.

(** X21. An input line without the character & is run as one command.
    If the line is blank, the state updater publishes the current snapshot
    with an empty output and reports success. Otherwise (and unless the line
    is exactly clear) the outcome is that of executeGitCommand on the
    line: the snapshot it returns is published if it reports success, the
    current snapshot if it reports failure, with its output and verdict. *)
Theorem handleCommand_single_command (ws : nat -> World) (cmd : string)
    (currentState : GitState) :
  JS.indexOf ampersand cmd = None ->
  cmd <> "clear" ->
  handleCommand ws cmd currentState
  = if JS.truthyS (JS.trim cmd)
    then match executeGitCommand (ws 0) cmd currentState with
         | Returns r =>
             Done {| published := if success r then newState r else currentState;
                     combinedOutput := output r;
                     allSuccess := success r |}
         | Throws e => Failed e
         | Diverges => Hangs
         | Untyped o => Broken o
         end
    else Done {| published := currentState; combinedOutput := "";
                 allSuccess := true |}.
Proof.
  intros NoAmp NotClear. unfold handleCommand.
  apply String.eqb_neq in NotClear. rewrite NotClear.
  unfold subCommands. rewrite (split_no_ampersand cmd NoAmp). cbn [map filter].
  destruct (JS.truthyS (JS.trim cmd)); [|reflexivity].
  cbn [runCommands].
  assert (executeGitCommand (ws 0) (JS.trim cmd) currentState
          = executeGitCommand (ws 0) cmd currentState) as ->.
  { unfold executeGitCommand, tokens. now rewrite trim_twice. }
  destruct (executeGitCommand (ws 0) cmd currentState) as [r | | |]; try reflexivity.
  destruct (success r); reflexivity.
Qed.

Lemma handleCommand_single_command_witness :
  handleCommand (fun _ => w0) "  git checkout nowhere " (INITIAL_STATE w0)
  = Done {| published := INITIAL_STATE w0;
            combinedOutput :=
              "error: pathspec 'nowhere' did not match any file(s) known to git";
            allSuccess := false |}.
Proof.
  rewrite (handleCommand_single_command (fun _ => w0) "  git checkout nowhere "
             (INITIAL_STATE w0)); [reflexivity | reflexivity | discriminate].
Defined.

(* ================================================================== *)
(** ** The lessons are solved by their hints *)
(* ================================================================== *)

Lemma seven_truthy (x : string) : String.length x = 7 -> JS.truthyS x = true.
Proof. destruct x; [discriminate | reflexivity]. Qed.

Lemma seven_differs (x s : string) :
  String.length x = 7 -> String.length s <> 7 -> (x =? s) = false /\ (s =? x) = false.
Proof.
  intros Hx Hs. split; apply String.eqb_neq; intros E; subst; contradiction.
Qed.

(** The parts of a goal that need no identifier: the commands of a line and
    the tokens of a command. *)
Ltac closed_parts :=
  repeat match goal with
  | |- context [subCommands ?h] =>
      let x := eval vm_compute in (subCommands h) in change (subCommands h) with x
  | |- context [tokens ?c] =>
      let x := eval vm_compute in (tokens c) in change (tokens c) with x
  | |- context [?h =? "clear"] =>
      let x := eval vm_compute in (h =? "clear") in change (h =? "clear") with x
  end.

Section Lessons.

Variable ws : nat -> World.

(** The identifiers are the first seven characters of a UUID. *)
Hypothesis sevenChars : forall i n, String.length (generateShortId (ws i) n) = 7.

Local Opaque generateShortId getNextTimestamp.
Local Arguments String.eqb : simpl nomatch.

(** Comparisons with a generated identifier: it is no empty string, it
    equals itself, and it differs from the short identifiers of the
    lessons. *)
Ltac ids :=
  repeat match goal with
  | |- context [JS.truthyS (generateShortId ?w ?n)] =>
      rewrite (seven_truthy (generateShortId w n) (sevenChars _ _))
  | |- context [generateShortId ?w ?n =? generateShortId ?w ?n] =>
      rewrite (String.eqb_refl (generateShortId w n))
  | |- context [generateShortId (ws ?i) ?n =? ?s] =>
      rewrite (proj1 (seven_differs (generateShortId (ws i) n) s (sevenChars i n)
                        ltac:(vm_compute; discriminate)))
  | |- context [?s =? generateShortId (ws ?i) ?n] =>
      rewrite (proj2 (seven_differs (generateShortId (ws i) n) s (sevenChars i n)
                        ltac:(vm_compute; discriminate)))
  end.

Ltac step :=
  simpl; ids;
  unfold cmdMerge, cmdCherryPick, cmdRevert, cmdPull, cmdFetch, cmdPush, cmdCheckout,
    resolveRef, getHeadCommitId, findBranch, findTag, findCommit, isAncestor, sameValue.

Ltac solve_lesson :=
  unfold solvedBy; cbn [hint initialState checkSuccess];
  unfold handleCommand; closed_parts; cbv iota;
  cbn [runCommands]; unfold executeGitCommand; closed_parts;
  repeat (progress step);
  eexists; split; [reflexivity|]; split; [reflexivity|];
  repeat (progress step);
  reflexivity.

(** X22. Every lesson is solved by its hint, and by nothing less. For
    every clock and every source of identifiers that yields identifiers of
    seven characters, typing the hint of a lesson as one line on the initial
    snapshot of the lesson runs all its commands with success and publishes
    a snapshot that the check of the lesson accepts. Before anything is
    typed the check rejects the initial snapshot, except in the lessons
    whose check accepts every snapshot (1, 2, 5 and 12). *)
Theorem every_hint_solves_its_lesson (w : World) (loadClock : nat -> Z) :
  Forall (solvedBy ws) (LESSONS w loadClock)
  /\ Forall needsWork (LESSONS w loadClock).
Proof.
  split; unfold LESSONS;
    repeat match goal with
    | |- Forall _ (_ :: _) => constructor
    | |- Forall _ [] => constructor
    end.
  1-23: solve_lesson.
  all: unfold needsWork; cbn [checkSuccess initialState];
    first [ right; intros state; reflexivity | left; reflexivity ].
Qed.

Local Transparent generateShortId getNextTimestamp.

End Lessons.

Lemma every_hint_solves_its_lesson_witness :
  Forall (solvedBy (fun _ => w0)) (LESSONS w0 (fun _ => 7%Z)).
Proof.
  apply (every_hint_solves_its_lesson (fun _ => w0)).
  intros i n. reflexivity.
Defined.

(* ================================================================== *)
(** ** Commands in a row *)
(* ================================================================== *)

(** A new commit is an ancestor of no old commit. *)
Lemma new_commit_is_no_ancestor (state : GitState) (extra : list Commit)
    (bs : list Branch) (ts : list Tag) (h : Head) (n x : string) :
  wellFormed state -> ~ In n (ids state) -> In x (ids state) ->
  isAncestor {| commits := (commits state ++ extra)%list; branches := bs;
                tags := ts; head := h |} n x = false.
Proof.
  intros WF Fresh Hx. apply isAncestor_false. intros R.
  apply Fresh. now apply (old_commits_reach_old state extra bs ts h x).
Qed.

Lemma resolveRef_branch (state : GitState) (x : string) (b : Branch) :
  x <> EmptyString -> findBranch state x = Some b ->
  resolveRef state (Some x) = Some (commitId b).
Proof.
  intros Hx F. unfold resolveRef. destruct x; [congruence|]. now rewrite F.
Qed.

(** X23. Merging the same branch twice. On a branch, with another
    branch x whose tip T is not the commit of HEAD: if the first
    git merge x fast-forwards, the second one answers Already up to date
    and changes nothing. If the first one creates a merge commit, the second
    one creates another merge commit, with the first merge commit and T as
    parents, although T is already merged: the test for being up to date
    only compares T with the commit of HEAD. (The snapshot is one where
    nothing dangles and the identifier of the first merge commit is
    new and not empty.) *)
Theorem merging_twice (w w' : World) (c1 c2 x : string) (bx : Branch)
    (state : GitState) :
  tokens c1 = ["git"; "merge"; x] -> tokens c2 = ["git"; "merge"; x] ->
  wellFormed state ->
  type (head state) = type_branch ->
  findBranch state x = Some bx ->
  x <> ref (head state) ->
  x <> EmptyString ->
  commitId bx <> EmptyString ->
  commitId bx <> getHeadCommitId state ->
  generateShortId w 0 <> EmptyString ->
  ~ In (generateShortId w 0) (ids state) ->
  exists r1 r2,
    executeGitCommand w c1 state = Returns r1
    /\ executeGitCommand w' c2 (newState r1) = Returns r2
    /\ success r1 = true /\ success r2 = true
    /\ if isAncestor state (getHeadCommitId state) (commitId bx)
       then commits (newState r1) = commits state
            /\ getHeadCommitId (newState r1) = commitId bx
            /\ newState r2 = newState r1
            /\ output r2 = "Already up to date."
       else exists m1 m2,
              commits (newState r1) = (commits state ++ [m1])%list
              /\ commits (newState r2) = (commits state ++ [m1; m2])%list
              /\ parentId m1 = Some (getHeadCommitId state)
              /\ secondParentId m1 = Some (commitId bx)
              /\ parentId m2 = Some (id m1)
              /\ secondParentId m2 = Some (commitId bx).
Proof.
  intros T1 T2 WF Ty Fx Nx Hx Ht Hne Hn Fresh.
  assert (In (ref (head state)) (map name (branches state))) as InB.
  { pose proof (wf_head state WF) as H. unfold headKnown in H. now rewrite Ty in H. }
  assert (In (commitId bx) (ids state)) as Kt by now apply (wf_branch state WF x).
  assert (forall v s, executeGitCommand v c1 s = Returns (cmdMerge v ["git"; "merge"; x] s))
    as E1 by (intros v s; unfold executeGitCommand; now rewrite T1).
  assert (forall v s, executeGitCommand v c2 s = Returns (cmdMerge v ["git"; "merge"; x] s))
    as E2 by (intros v s; unfold executeGitCommand; now rewrite T2).
  assert (JS.truthy (Some x) = true) as Tx by (destruct x; [congruence | reflexivity]).
  assert (JS.truthyS (commitId bx) = true) as Tt
    by (destruct (commitId bx); [congruence | reflexivity]).
  (* how a merge of x runs on a snapshot that holds the branch x at T *)
  assert (forall v s,
            findBranch s x = Some bx -> type (head s) = type_branch ->
            cmdMerge v ["git"; "merge"; x] s
            = if commitId bx =? getHeadCommitId s then ok s "Already up to date."
              else if isAncestor s (getHeadCommitId s) (commitId bx)
              then ok (withBranches s (pointTo (ref (head s)) (commitId bx) (branches s)))
                      ("Fast-forward merge: " ++ ref (head s) ++ " is now at "
                       ++ JS.substring 0 7 (commitId bx))
              else ok {| commits :=
                           (commits s
                            ++ [ {| id := generateShortId v 0;
                                    message := "Merge " ++ x ++ " into " ++ ref (head s);
                                    parentId := Some (getHeadCommitId s);
                                    secondParentId := Some (commitId bx);
                                    timestamp := getNextTimestamp v 0 s;
                                    author := "User" |} ])%list;
                         branches := pointTo (ref (head s)) (generateShortId v 0)
                                       (branches s);
                         tags := tags s; head := head s |}
                      ("Merged " ++ x ++ " into " ++ ref (head s))) as Run.
  { intros v s F Tys. unfold cmdMerge. cbn [part nth_error].
    rewrite Tx. cbn [negb]. rewrite (resolveRef_branch s x bx Hx F).
    cbn [JS.truthy JS.show]. rewrite Tt, Tys. cbn [negb isBranch]. reflexivity. }
  exists (cmdMerge w ["git"; "merge"; x] state).
  eexists. split; [apply E1|]. split; [apply E2|].
  rewrite (Run w state Fx Ty).
  apply String.eqb_neq in Hne. rewrite Hne.
  assert (forall c cs,
            findBranch {| commits := cs;
                          branches := pointTo (ref (head state)) c (branches state);
                          tags := tags state; head := head state |} x = Some bx) as Fx'.
  { intros c cs. unfold findBranch. cbn [branches].
    rewrite find_pointTo_other by exact Nx. exact Fx. }
  destruct (isAncestor state (getHeadCommitId state) (commitId bx)) eqn:FF.
  - cbn [newState ok success]. unfold withBranches.
    rewrite (Run w' _ (Fx' _ _) Ty).
    rewrite (getHeadCommitId_pointTo state (commits state) (commitId bx) Ty InB).
    rewrite String.eqb_refl. cbn [newState ok success output].
    repeat split; reflexivity.
  - cbn [newState ok success].
    rewrite (Run w' _ (Fx' _ _) Ty).
    rewrite (getHeadCommitId_pointTo state _ (generateShortId w 0) Ty InB).
    assert ((commitId bx =? generateShortId w 0) = false) as ->.
    { apply String.eqb_neq. intros E. apply Fresh. now rewrite <- E. }
    rewrite (new_commit_is_no_ancestor state _ _ _ _ (generateShortId w 0) (commitId bx)
               WF Fresh Kt).
    cbn [newState ok success commits].
    split; [reflexivity|]. split; [reflexivity|].
    eexists. eexists. split; [reflexivity|].
    split; [now rewrite <- app_assoc|]. repeat split; reflexivity.
Qed.

Lemma merging_twice_witness :
  exists r1 r2,
    executeGitCommand w0 "git merge side" forked = Returns r1
    /\ executeGitCommand w0 "git merge side" (newState r1) = Returns r2
    /\ List.length (commits (newState r2)) = 5.
Proof.
  destruct (merging_twice w0 w0 "git merge side" "git merge side" "side"
              {| name := "side"; commitId := "c" |} forked)
    as (r1 & r2 & E1 & E2 & _ & _ & Twice);
    try reflexivity; try discriminate.
  - wf_concrete.
  - vm_compute. intros [H | [H | [H | []]]]; discriminate.
  - exists r1, r2. split; [exact E1|]. split; [exact E2|].
    change (isAncestor forked (getHeadCommitId forked) "c") with false in Twice.
    destruct Twice as (m1 & m2 & _ & C2 & _). now rewrite C2.
Defined.

(** How a merge of the branch [x] runs on a branch. *)
Lemma cmdMerge_branch (v : World) (x : string) (bx : Branch) (s : GitState) :
  x <> EmptyString -> commitId bx <> EmptyString ->
  findBranch s x = Some bx -> type (head s) = type_branch ->
  cmdMerge v ["git"; "merge"; x] s
  = if commitId bx =? getHeadCommitId s then ok s "Already up to date."
    else if isAncestor s (getHeadCommitId s) (commitId bx)
    then ok (withBranches s (pointTo (ref (head s)) (commitId bx) (branches s)))
            ("Fast-forward merge: " ++ ref (head s) ++ " is now at "
             ++ JS.substring 0 7 (commitId bx))
    else ok {| commits :=
                 (commits s
                  ++ [ {| id := generateShortId v 0;
                          message := "Merge " ++ x ++ " into " ++ ref (head s);
                          parentId := Some (getHeadCommitId s);
                          secondParentId := Some (commitId bx);
                          timestamp := getNextTimestamp v 0 s;
                          author := "User" |} ])%list;
               branches := pointTo (ref (head s)) (generateShortId v 0) (branches s);
               tags := tags s; head := head s |}
            ("Merged " ++ x ++ " into " ++ ref (head s)).
Proof.
  intros Hx Ht F Ty. unfold cmdMerge. cbn [part nth_error].
  assert (JS.truthy (Some x) = true) as -> by (destruct x; [congruence | reflexivity]).
  cbn [negb]. rewrite (resolveRef_branch s x bx Hx F). cbn [JS.truthy JS.show].
  assert (JS.truthyS (commitId bx) = true) as ->
    by (destruct (commitId bx); [congruence | reflexivity]).
  rewrite Ty. reflexivity.
Qed.

(** How a push runs on a branch that has a remote counterpart. *)
Lemma cmdPush_tracked (s : GitState) (b rb : Branch) :
  type (head s) = type_branch ->
  findBranch s (ref (head s)) = Some b ->
  findBranch s ("origin/" ++ ref (head s)) = Some rb ->
  success (cmdPush s)
  = isAncestor s (commitId rb) (commitId b) || (commitId rb =? commitId b)
  /\ (success (cmdPush s) = false -> newState (cmdPush s) = s)
  /\ (success (cmdPush s) = true ->
      findBranch (newState (cmdPush s)) ("origin/" ++ ref (head s))
      = Some {| name := "origin/" ++ ref (head s); commitId := commitId b |}).
Proof.
  intros Ty B R. unfold cmdPush. rewrite Ty, B, R. cbn [negb isBranch].
  destruct (isAncestor s (commitId rb) (commitId b)); cbn [negb andb orb].
  - cbn [success ok newState]. split; [reflexivity|]. split; [discriminate|].
    intros _. unfold findBranch, withBranches. cbn [branches].
    rewrite find_push. now rewrite String.eqb_refl.
  - destruct (commitId rb =? commitId b); cbn [negb success ok fail newState].
    + split; [reflexivity|]. split; [discriminate|].
      intros _. unfold findBranch, withBranches. cbn [branches].
      rewrite find_push. now rewrite String.eqb_refl.
    + split; [reflexivity|]. split; [reflexivity | discriminate].
Qed.

(** X24. After a fetch, a push has to wait for a merge. With HEAD on
    main, in a snapshot where nothing dangles and with new, non-empty
    identifiers: git fetch succeeds and puts origin/main on a new commit;
    git push is then rejected and changes nothing, whatever main and
    origin/main were before; after git merge origin/main, which
    fast-forwards main or creates a merge commit, git push is accepted and
    origin/main ends on the tip of main. *)
Theorem push_after_fetch_needs_merge (w wm : World) (state : GitState) (b o : Branch) :
  wellFormed state ->
  type (head state) = type_branch ->
  ref (head state) = "main" ->
  findBranch state "main" = Some b ->
  findBranch state "origin/main" = Some o ->
  generateShortId w 0 <> EmptyString ->
  ~ In (generateShortId w 0) (ids state) ->
  generateShortId wm 0 <> generateShortId w 0 ->
  ~ In (generateShortId wm 0) (ids state) ->
  exists fetched merged,
    executeGitCommand w "git fetch" state = Returns fetched
    /\ success fetched = true
    /\ executeGitCommand w "git push" (newState fetched)
       = Returns (cmdPush (newState fetched))
    /\ success (cmdPush (newState fetched)) = false
    /\ newState (cmdPush (newState fetched)) = newState fetched
    /\ executeGitCommand wm "git merge origin/main" (newState fetched) = Returns merged
    /\ success merged = true
    /\ executeGitCommand w "git push" (newState merged)
       = Returns (cmdPush (newState merged))
    /\ success (cmdPush (newState merged)) = true
    /\ option_map commitId (findBranch (newState (cmdPush (newState merged))) "origin/main")
       = Some (getHeadCommitId (newState merged)).
Proof.
  intros WF Ty Main B O Hn Fresh Hm FreshM.
  set (n := generateShortId w 0) in *.
  set (c := {| id := n; message := "Remote update"; parentId := Some (commitId o);
               secondParentId := None; timestamp := getNextTimestamp w 0 state;
               author := "Teammate" |}).
  set (s1 := {| commits := (commits state ++ [c])%list;
                branches := pointTo "origin/main" n (branches state);
                tags := tags state; head := head state |}).
  assert (newState (cmdFetch w state) = s1 /\ success (cmdFetch w state) = true)
    as [F1 S1].
  { unfold cmdFetch. rewrite O. now split. }
  assert (In "origin/main" (map name (branches state))) as InO.
  { apply findBranch_Some in O. destruct O as [On Oi]. rewrite <- On. now apply in_map. }
  assert (In (commitId b) (ids state)) as Kb by now apply (wf_branch state WF "main").
  assert (findBranch s1 "main" = Some b) as B1.
  { unfold findBranch, s1. cbn [branches].
    rewrite find_pointTo_other by discriminate. exact B. }
  assert (findBranch s1 "origin/main" = Some {| name := "origin/main"; commitId := n |})
    as O1.
  { unfold findBranch, s1. cbn [branches]. now apply find_pointTo_same. }
  assert (type (head s1) = type_branch) as Ty1 by exact Ty.
  assert (ref (head s1) = "main") as Main1 by exact Main.
  assert (getHeadCommitId s1 = commitId b) as Hd1.
  { unfold getHeadCommitId. now rewrite Ty1, Main1, B1. }
  assert ((n =? commitId b) = false) as Nb.
  { apply String.eqb_neq. intros E. apply Fresh. now rewrite E. }
  assert (isAncestor s1 n (commitId b) = false) as NoAnc.
  { now apply (new_commit_is_no_ancestor state [c]). }
  exists (cmdFetch w state).
  assert (wellFormed s1) as WF1.
  { rewrite <- F1. now apply cmdFetch_wellFormed. }
  (* the rejected push *)
  destruct (cmdPush_tracked s1 b {| name := "origin/main"; commitId := n |} Ty1)
    as [P1 [P1f _]]; [now rewrite Main1 | now rewrite Main1 |].
  cbn [commitId] in P1. rewrite NoAnc, Nb in P1. cbn [orb] in P1.
  (* the merge *)
  pose proof (cmdMerge_branch wm "origin/main" {| name := "origin/main"; commitId := n |}
                s1 ltac:(discriminate) Hn O1 Ty1) as M.
  cbn [commitId] in M. rewrite Hd1, Nb, Main1 in M.
  eexists. split; [reflexivity|]. split; [exact S1|]. rewrite F1.
  split; [reflexivity|]. split; [exact P1|]. split; [now apply P1f|].
  split; [unfold executeGitCommand; cbn; exact (f_equal Returns M)|].
  assert (JS.truthyS n = true) as Tn by (destruct n; [congruence | reflexivity]).
  destruct (isAncestor s1 (commitId b) n) eqn:FF; cbn [newState ok success].
  - split; [reflexivity|]. split; [reflexivity|].
    set (s2 := withBranches s1 (pointTo "main" n (branches s1))).
    assert (findBranch s2 "main" = Some {| name := "main"; commitId := n |}) as B2.
    { unfold findBranch, s2, withBranches. cbn [branches].
      apply find_pointTo_same. unfold s1. cbn [branches]. rewrite pointTo_names.
      apply findBranch_Some in B. destruct B as [Bn Bi]. rewrite <- Bn. now apply in_map. }
    assert (findBranch s2 "origin/main" = Some {| name := "origin/main"; commitId := n |})
      as O2.
    { unfold findBranch, s2, withBranches. cbn [branches].
      rewrite find_pointTo_other by discriminate. exact O1. }
    assert (type (head s2) = type_branch) as Ty2 by exact Ty.
    assert (ref (head s2) = "main") as Main2 by exact Main.
    destruct (cmdPush_tracked s2 {| name := "main"; commitId := n |}
                {| name := "origin/main"; commitId := n |} Ty2)
      as [P2 [_ P2t]]; [now rewrite Main2 | now rewrite Main2 |].
    cbn [commitId] in P2. rewrite String.eqb_refl, orb_true_r in P2.
    split; [exact P2|]. rewrite Main2 in P2t.
    change ("origin/" ++ "main") with "origin/main" in P2t.
    change (option_map commitId (findBranch (newState (cmdPush s2)) "origin/main")
            = Some (getHeadCommitId s2)).
    rewrite (P2t P2). cbn [option_map commitId].
    unfold getHeadCommitId. now rewrite Ty2, Main2, B2.
  - split; [reflexivity|]. split; [reflexivity|].
    set (m := generateShortId wm 0) in *.
    set (cm := {| id := m; message := "Merge origin/main into main";
                  parentId := Some (commitId b); secondParentId := Some n;
                  timestamp := getNextTimestamp wm 0 s1; author := "User" |}).
    set (s2 := {| commits := (commits s1 ++ [cm])%list;
                  branches := pointTo "main" m (branches s1);
                  tags := tags s1; head := head s1 |}).
    assert (findBranch s2 "main" = Some {| name := "main"; commitId := m |}) as B2.
    { unfold findBranch, s2. cbn [branches].
      apply find_pointTo_same. unfold s1. cbn [branches]. rewrite pointTo_names.
      apply findBranch_Some in B. destruct B as [Bn Bi]. rewrite <- Bn. now apply in_map. }
    assert (findBranch s2 "origin/main" = Some {| name := "origin/main"; commitId := n |})
      as O2.
    { unfold findBranch, s2. cbn [branches].
      rewrite find_pointTo_other by discriminate. exact O1. }
    assert (type (head s2) = type_branch) as Ty2 by exact Ty.
    assert (ref (head s2) = "main") as Main2 by exact Main.
    assert (isAncestor s2 n m = true) as Anc.
    { apply isAncestor_reaches. apply (reaches_parent _ _ m); [constructor|].
      exists cm. split; [|split; [now right | exact Tn]].
      apply (findCommit_fresh s1 cm). unfold ids, s1. cbn [commits id cm].
      rewrite map_app. intros Hin. apply in_app_or in Hin.
      destruct Hin as [Hin | [Hin | []]]; [now apply FreshM | now apply Hm]. }
    destruct (cmdPush_tracked s2 {| name := "main"; commitId := m |}
                {| name := "origin/main"; commitId := n |} Ty2)
      as [P2 [_ P2t]]; [now rewrite Main2 | now rewrite Main2 |].
    cbn [commitId] in P2. rewrite Anc in P2. cbn [orb] in P2.
    split; [exact P2|]. rewrite Main2 in P2t.
    change ("origin/" ++ "main") with "origin/main" in P2t.
    change (option_map commitId (findBranch (newState (cmdPush s2)) "origin/main")
            = Some (getHeadCommitId s2)).
    rewrite (P2t P2). cbn [option_map commitId].
    unfold getHeadCommitId. now rewrite Ty2, Main2, B2.
Qed.

Lemma push_after_fetch_needs_merge_witness :
  exists fetched,
    executeGitCommand w0 "git fetch" (clonedState w0) = Returns fetched
    /\ success (cmdPush (newState fetched)) = false.
Proof.
  destruct (push_after_fetch_needs_merge w0 (later 1 1 w0) (clonedState w0)
              {| name := "main"; commitId := "a12b" |}
              {| name := "origin/main"; commitId := "a12b" |})
    as (fetched & merged & E & _ & _ & Rej & _);
    try reflexivity; try (vm_compute; discriminate).
  - apply clonedState_wellFormed.
  - vm_compute. intros [H | [H | []]]; discriminate.
  - vm_compute. intros [H | [H | []]]; discriminate.
  - exists fetched. split; [exact E | exact Rej].
Defined.

(* ================================================================== *)
(** ** Properties of the layout of the commit graph *)
(* ================================================================== *)

Section Canvas.

Import GitCanvas.

Variable gitState : GitState.

(** *** The calls of [trace] end *)

Lemma trace_step_potential (lane : nat) (queue queue' : list string) (t t' : Traced) :
  trace_step gitState lane queue t = Next queue' t' ->
  potential gitState queue' (visited t') < potential gitState queue (visited t).
Proof.
  unfold trace_step, potential.
  destruct queue as [|curr q]; [discriminate|].
  destruct (has (visited t) curr) eqn:Hv.
  - destruct (isZero (numGet curr (history t))); [discriminate|].
    intros E. injection E as <- <-. simpl. lia.
  - destruct (findCommit gitState curr) as [c|] eqn:F; intros E; injection E as <- <-;
      cbn [visited].
    + apply findCommit_Some in F. destruct F as [Eid Hin].
      assert (In curr (map id (commits gitState))) as Hc
        by (rewrite <- Eid; now apply in_map).
      pose proof (unvisited_cons_lt gitState (visited t) curr Hc Hv).
      pose proof (pushIf_length (parentId c)).
      pose proof (pushIf_length (secondParentId c)).
      rewrite !length_app. simpl. lia.
    + pose proof (unvisited_cons_le gitState (visited t) curr). simpl. lia.
Qed.

Lemma trace_step_Return (lane : nat) (queue : list string) (t t' : Traced) :
  trace_step gitState lane queue t = Return t' -> t' = t.
Proof.
  unfold trace_step. destruct queue as [|curr q]; [congruence|].
  destruct (has (visited t) curr).
  - destruct (isZero (numGet curr (history t))); [congruence | discriminate].
  - destruct (findCommit gitState curr); discriminate.
Qed.

Lemma trace_loop_enough (fuel : nat) :
  forall lane queue t,
    potential gitState queue (visited t) < fuel ->
    exists t', trace_loop fuel gitState lane queue t = Some t'.
Proof.
  induction fuel as [|fuel IH]; intros lane queue t Hlt; [lia|].
  simpl. destruct (trace_step gitState lane queue t) as [t'|q' t'] eqn:St.
  - now exists t'.
  - apply IH. apply trace_step_potential in St. lia.
Qed.

Lemma unvisited_length (v : list string) :
  List.length (unvisited gitState v) <= List.length (commits gitState).
Proof.
  unfold unvisited. rewrite <- (length_map id (commits gitState)).
  induction (map id (commits gitState)) as [|x l IH]; simpl; [lia|].
  destruct (negb (has v x)); simpl; lia.
Qed.

Lemma trace_total (c : string) (lane : nat) (t : Traced) :
  exists t', trace gitState c lane t = Some t'.
Proof.
  apply trace_loop_enough. unfold potential, trace_fuel.
  pose proof (unvisited_length (visited t)). simpl. lia.
Qed.

(** *** What every iteration keeps *)

Section Kept.

Variable P : Traced -> Prop.

Hypothesis step_keeps :
  forall lane queue queue' t t',
    P t -> trace_step gitState lane queue t = Next queue' t' -> P t'.

Lemma trace_loop_keeps (fuel : nat) :
  forall lane queue t t',
    P t -> trace_loop fuel gitState lane queue t = Some t' -> P t'.
Proof.
  induction fuel as [|fuel IH]; intros lane queue t t' Pt; [discriminate|].
  simpl. destruct (trace_step gitState lane queue t) as [r|q' r] eqn:St.
  - intros E. injection E as <-. apply trace_step_Return in St. now subst.
  - apply IH. now apply (step_keeps lane queue q' t).
Qed.

Lemma traces_keep (lanes : NumMap) (bs : list Branch) :
  forall (start : option Traced) t',
    (forall t, start = Some t -> P t) ->
    fold_left
      (fun acc b =>
         match acc with
         | Some t =>
             if negb (name b =? "main")
             then trace gitState (commitId b) (laneGiven lanes b) t
             else Some t
         | None => None
         end) bs start = Some t' ->
    P t'.
Proof.
  induction bs as [|b bs IH]; intros start t' Ps; simpl.
  - intros E. now apply Ps.
  - apply IH. intros t. destruct start as [t0|]; [|discriminate].
    destruct (negb (name b =? "main")).
    + intros E.
      apply (trace_loop_keeps (trace_fuel gitState) (laneGiven lanes b) [commitId b] t0 t);
        [now apply Ps | exact E].
    + intros E. injection E as <-. now apply Ps.
Qed.

End Kept.

Lemma traces_total (lanes : NumMap) (bs : list Branch) :
  forall t,
    exists t',
      fold_left
        (fun acc b =>
           match acc with
           | Some t =>
               if negb (name b =? "main")
               then trace gitState (commitId b) (laneGiven lanes b) t
               else Some t
           | None => None
           end) bs (Some t) = Some t'.
Proof.
  induction bs as [|b bs IH]; intros t; simpl; [now exists t|].
  destruct (negb (name b =? "main")); [|apply IH].
  destruct (trace_total (commitId b) (laneGiven lanes b) t) as [t1 ->]. apply IH.
Qed.

Lemma traceAll_total (lanes : NumMap) : exists t, traceAll gitState lanes = Some t.
Proof.
  unfold traceAll. destruct (findBranch gitState "main") as [mb|].
  - destruct (trace_total (commitId mb) 0 {| visited := []; history := [] |}) as [t1 ->].
    apply traces_total.
  - apply traces_total.
Qed.

(** *** Lanes *)

Lemma numGet_numSet_same (k : string) (v : nat) (m : NumMap) :
  numGet k (numSet k v m) = Some v.
Proof.
  unfold numGet. induction m as [|e rest IH]; simpl.
  - now rewrite String.eqb_refl.
  - destruct (fst e =? k) eqn:E; simpl.
    + now rewrite String.eqb_refl.
    + rewrite E. exact IH.
Qed.

Lemma numGet_numSet_other (k k' : string) (v : nat) (m : NumMap) :
  k' <> k -> numGet k' (numSet k v m) = numGet k' m.
Proof.
  intros Ne. unfold numGet. induction m as [|e rest IH]; simpl.
  - apply not_eq_sym, String.eqb_neq in Ne. now rewrite Ne.
  - destruct (fst e =? k) eqn:E; simpl.
    + apply String.eqb_eq in E. rewrite E.
      apply not_eq_sym, String.eqb_neq in Ne. now rewrite Ne.
    + destruct (fst e =? k'); [reflexivity | exact IH].
Qed.

Lemma fold_max_nat_ge (l : list nat) :
  forall a, a <= fold_left Nat.max l a
            /\ forall x, In x l -> x <= fold_left Nat.max l a.
Proof.
  induction l as [|y l IH]; intros a; simpl.
  - split; [lia | intros x []].
  - destruct (IH (Nat.max a y)) as [Ha Hl]. split; [lia|].
    intros x [<- | Hx]; [lia | now apply Hl].
Qed.

Lemma laneOf_le_max (h : NumMap) (i : string) (c : nat) :
  laneOf h i <= fold_left Nat.max (map snd h) c.
Proof.
  unfold laneOf, numGet.
  destruct (find (fun e => fst e =? i) h) as [e|] eqn:F; [|lia].
  apply find_some in F. destruct F as [Hin _].
  apply (proj2 (fold_max_nat_ge (map snd h) c)). now apply in_map.
Qed.

Lemma trace_step_onLaneZero (tip : string) (lane : nat) (queue queue' : list string)
    (t t' : Traced) :
  onLaneZero tip t -> trace_step gitState lane queue t = Next queue' t' ->
  onLaneZero tip t'.
Proof.
  intros [Hv Hh]. unfold trace_step.
  destruct queue as [|curr q]; [discriminate|].
  destruct (has (visited t) curr) eqn:V.
  - destruct (isZero (numGet curr (history t))); [discriminate|].
    intros E. injection E as _ <-. split; cbn [visited history]; [exact Hv|].
    destruct (lane =? 0)%nat; [|exact Hh].
    destruct (string_dec tip curr) as [-> | Ne];
      [apply numGet_numSet_same | now rewrite numGet_numSet_other].
  - assert (tip <> curr) as Ne.
    { intros ->. apply has_false in V. contradiction. }
    assert (onLaneZero tip {| visited := curr :: visited t;
                              history := numSet curr lane (history t) |}) as Z.
    { split; cbn [visited history]; [now right | now rewrite numGet_numSet_other]. }
    destruct (findCommit gitState curr); intros E; injection E as _ <-; exact Z.
Qed.

Lemma traceAll_main_tip (lanes : NumMap) (mb : Branch) (t : Traced) :
  findBranch gitState "main" = Some mb ->
  traceAll gitState lanes = Some t ->
  onLaneZero (commitId mb) t.
Proof.
  unfold traceAll. intros ->. apply traces_keep.
  - apply trace_step_onLaneZero.
  - intros t1. unfold trace, trace_fuel.
    replace (2 * List.length (commits gitState) + 2)
      with (S (2 * List.length (commits gitState) + 1)) by lia.
    cbn [trace_loop]. unfold trace_step at 1. cbn [has existsb visited history].
    set (t0 := {| visited := [commitId mb]; history := numSet (commitId mb) 0 [] |}).
    assert (onLaneZero (commitId mb) t0) as Z0.
    { split; cbn [visited history t0]; [now left | apply numGet_numSet_same]. }
    destruct (findCommit gitState (commitId mb)) as [c|]; intros E;
      refine (trace_loop_keeps _ (trace_step_onLaneZero (commitId mb)) _ _ _ t0 t1 Z0 E).
Qed.

Lemma placeRest_visited (sortedCommits : list Commit) (laneCounter : nat) (t : Traced)
    (k : string) :
  In k (visited t) ->
  numGet k (placeRest sortedCommits laneCounter t) = numGet k (history t).
Proof.
  intros Hk. unfold placeRest. generalize (history t) as h.
  induction sortedCommits as [|c l IH]; intros h; simpl; [reflexivity|].
  rewrite IH. destruct (has (visited t) (id c)) eqn:V; cbn [negb]; [reflexivity|].
  apply numGet_numSet_other. intros ->. apply has_false in V. contradiction.
Qed.

(** *** Rows *)

Lemma draw_nodes (isDarkMode : bool) (sortedCommits : list Commit) (h : NumMap)
    (rest : list Commit) :
  forall index k,
    nth_error (fst (draw isDarkMode gitState sortedCommits h index rest)) k
    = option_map (node isDarkMode gitState h (index + k)) (nth_error rest k).
Proof.
  induction rest as [|c rest IH]; intros index k; simpl.
  - now destruct k.
  - specialize (IH (S index)).
    destruct (draw isDarkMode gitState sortedCommits h (S index) rest) as [ns ls].
    simpl in *. destruct k as [|k]; simpl.
    + now rewrite Nat.add_0_r.
    + rewrite IH. now rewrite Nat.add_succ_r.
Qed.

Lemma draw_commits (isDarkMode : bool) (sortedCommits : list Commit) (h : NumMap)
    (rest : list Commit) :
  forall index,
    map node_commit (fst (draw isDarkMode gitState sortedCommits h index rest)) = rest.
Proof.
  induction rest as [|c rest IH]; intros index; simpl; [reflexivity|].
  specialize (IH (S index)).
  destruct (draw isDarkMode gitState sortedCommits h (S index) rest) as [ns ls].
  simpl in *. now rewrite IH.
Qed.

End Canvas.

(** What [layout] returns on a snapshot with commits. *)
Lemma layout_unfolded (isDarkMode : bool) (gitState : GitState) :
  commits gitState <> [] ->
  exists t,
    GitCanvas.traceAll gitState (fst (GitCanvas.assignLanes gitState)) = Some t
    /\ GitCanvas.layout isDarkMode gitState
       = Some
           {| GitCanvas.nodes :=
                fst (GitCanvas.draw isDarkMode gitState (sortNewestFirst (commits gitState))
                       (GitCanvas.placeRest (sortNewestFirst (commits gitState))
                          (snd (GitCanvas.assignLanes gitState)) t)
                       0 (sortNewestFirst (commits gitState)));
              GitCanvas.links :=
                snd (GitCanvas.draw isDarkMode gitState (sortNewestFirst (commits gitState))
                       (GitCanvas.placeRest (sortNewestFirst (commits gitState))
                          (snd (GitCanvas.assignLanes gitState)) t)
                       0 (sortNewestFirst (commits gitState)));
              GitCanvas.height :=
                (GitCanvas.PADDING_TOP
                 + Z.of_nat (List.length (commits gitState)) * GitCanvas.ROW_HEIGHT + 100)%Z;
              GitCanvas.width :=
                (GitCanvas.PADDING_LEFT
                 + Z.of_nat
                     (fold_left Nat.max
                        (map snd (GitCanvas.placeRest (sortNewestFirst (commits gitState))
                                    (snd (GitCanvas.assignLanes gitState)) t))
                        (snd (GitCanvas.assignLanes gitState)))
                   * GitCanvas.LANE_WIDTH + 100)%Z;
              GitCanvas.maxLane :=
                fold_left Nat.max
                  (map snd (GitCanvas.placeRest (sortNewestFirst (commits gitState))
                              (snd (GitCanvas.assignLanes gitState)) t))
                  (snd (GitCanvas.assignLanes gitState)) |}.
Proof.
  intros Ne. unfold GitCanvas.layout.
  destruct (commits gitState) as [|c0 l0] eqn:C; [congruence|]. rewrite <- C.
  destruct (GitCanvas.assignLanes gitState) as [lanes counter]. cbn [fst snd].
  destruct (traceAll_total gitState lanes) as [t T]. exists t. split; [exact T|].
  rewrite T.
  pose proof (draw_commits gitState isDarkMode (sortNewestFirst (commits gitState))
                (GitCanvas.placeRest (sortNewestFirst (commits gitState)) counter t)
                (sortNewestFirst (commits gitState)) 0) as Dc.
  destruct (GitCanvas.draw isDarkMode gitState (sortNewestFirst (commits gitState))
              (GitCanvas.placeRest (sortNewestFirst (commits gitState)) counter t) 0
              (sortNewestFirst (commits gitState))) as [ns ls].
  cbn [fst snd] in *.
  rewrite <- (sortNewestFirst_length (commits gitState)), <- Dc, length_map.
  reflexivity.
Qed.

(** X25. The drawing of the commit graph is always computed, and
    every commit has its place in it. For every snapshot (cyclic parent
    links included) the loops of the layout end. The nodes are the commits,
    newest first, one row of 60 each from 60 on; a node on lane n is at
    x = 40 + 40 n; no lane exceeds the number of lanes reported, and every
    node lies inside the width and the height reported, with a margin of
    100. If there is a branch main, the commit at its tip is on lane 0,
    the leftmost one. *)
Theorem layout_places_every_commit (isDarkMode : bool) (gitState : GitState) :
  exists L,
    GitCanvas.layout isDarkMode gitState = Some L
    /\ map GitCanvas.node_commit (GitCanvas.nodes L) = sortNewestFirst (commits gitState)
    /\ (forall k nd,
          nth_error (GitCanvas.nodes L) k = Some nd ->
          GitCanvas.node_y nd = (60 + 60 * Z.of_nat k)%Z
          /\ GitCanvas.node_x nd = (40 + 40 * Z.of_nat (GitCanvas.node_lane nd))%Z
          /\ GitCanvas.node_lane nd <= GitCanvas.maxLane L
          /\ (GitCanvas.node_x nd + 100 <= GitCanvas.width L)%Z
          /\ (GitCanvas.node_y nd + 100 < GitCanvas.height L)%Z)
    /\ (forall mb nd,
          findBranch gitState "main" = Some mb ->
          In nd (GitCanvas.nodes L) ->
          id (GitCanvas.node_commit nd) = commitId mb ->
          GitCanvas.node_lane nd = 0 /\ GitCanvas.node_x nd = 40%Z).
Proof.
  destruct (commits gitState) as [|c0 l0] eqn:C.
  { eexists. unfold GitCanvas.layout. rewrite C. split; [reflexivity|].
    cbn [GitCanvas.nodes map sortNewestFirst fold_right].
    split; [reflexivity|]. split.
    - intros k nd E. destruct k; discriminate.
    - intros mb nd _ []. }
  rewrite <- C.
  destruct (layout_unfolded isDarkMode gitState) as [t [T ->]]; [congruence|].
  eexists. split; [reflexivity|].
  cbn [GitCanvas.nodes GitCanvas.links GitCanvas.height GitCanvas.width GitCanvas.maxLane].
  set (sorted := sortNewestFirst (commits gitState)).
  set (h := GitCanvas.placeRest sorted (snd (GitCanvas.assignLanes gitState)) t).
  assert (forall k nd,
            nth_error (fst (GitCanvas.draw isDarkMode gitState sorted h 0 sorted)) k = Some nd ->
            exists c, nth_error sorted k = Some c
                      /\ nd = GitCanvas.node isDarkMode gitState h k c) as Nth.
  { intros k nd E. rewrite draw_nodes in E. cbn [Nat.add] in E.
    destruct (nth_error sorted k) as [c|]; [|discriminate].
    exists c. split; [reflexivity|]. cbn in E. congruence. }
  split; [apply draw_commits|]. split.
  - intros k nd E. destruct (Nth k nd E) as [c [Ek ->]].
    cbn [GitCanvas.node_y GitCanvas.node_x GitCanvas.node_lane GitCanvas.node].
    pose proof (laneOf_le_max h (id c) (snd (GitCanvas.assignLanes gitState))) as Le.
    assert (k < List.length (commits gitState)) as Lt.
    { rewrite <- (sortNewestFirst_length (commits gitState)).
      apply nth_error_Some. fold sorted. congruence. }
    unfold GitCanvas.yOf, GitCanvas.xOf, GitCanvas.PADDING_TOP, GitCanvas.PADDING_LEFT,
      GitCanvas.ROW_HEIGHT, GitCanvas.LANE_WIDTH.
    repeat split; try lia.
  - intros mb nd M Hin Eid. apply In_nth_error in Hin. destruct Hin as [k E].
    destruct (Nth k nd E) as [c [Ek ->]].
    cbn [GitCanvas.node_commit GitCanvas.node_x GitCanvas.node_lane GitCanvas.node] in *.
    destruct (traceAll_main_tip gitState _ mb t M T) as [Hv Hz].
    assert (GitCanvas.laneOf h (id c) = 0) as ->.
    { unfold GitCanvas.laneOf, h. rewrite Eid, placeRest_visited by exact Hv.
      now rewrite Hz. }
    split; reflexivity.
Qed.

(** *** Links *)

Lemma link_In (isDarkMode : bool) (sortedCommits : list Commit) (h : GitCanvas.NumMap)
    (index : nat) (c : Commit) (pid : option string) (i : nat) (l : GitCanvas.GraphLink) :
  In l (GitCanvas.link isDarkMode sortedCommits h index c pid i) ->
  exists p,
    pid = Some p /\ JS.truthyS p = true /\ In p (map id sortedCommits)
    /\ GitCanvas.link_source l = id c /\ GitCanvas.link_target l = p
    /\ GitCanvas.link_isMerge l = (i =? 1)%nat.
Proof.
  unfold GitCanvas.link. destruct pid as [p|]; [|intros []].
  destruct (JS.truthyS p) eqn:Tp; cbn [negb]; [|intros []].
  destruct (find (fun c0 => id c0 =? p) sortedCommits) as [d|] eqn:F; [|intros []].
  intros [<- | []]. exists p.
  cbn [GitCanvas.link_source GitCanvas.link_target GitCanvas.link_isMerge].
  apply find_some in F. destruct F as [Hin E]. apply String.eqb_eq in E.
  split; [reflexivity|]. split; [exact Tp|].
  split; [rewrite <- E; now apply in_map|].
  repeat split; reflexivity.
Qed.

Lemma link_made (isDarkMode : bool) (sortedCommits : list Commit) (h : GitCanvas.NumMap)
    (index : nat) (c : Commit) (p : string) (i : nat) :
  JS.truthyS p = true -> In p (map id sortedCommits) ->
  exists l,
    GitCanvas.link isDarkMode sortedCommits h index c (Some p) i = [l]
    /\ GitCanvas.link_source l = id c /\ GitCanvas.link_target l = p.
Proof.
  intros Tp Hin. unfold GitCanvas.link. rewrite Tp. cbn [negb].
  destruct (find (fun c0 => id c0 =? p) sortedCommits) as [d|] eqn:F.
  - eexists. split; [reflexivity|]. split; reflexivity.
  - exfalso. apply in_map_iff in Hin. destruct Hin as [d [E Hd]].
    apply (find_none _ _ F) in Hd. rewrite E, String.eqb_refl in Hd. discriminate.
Qed.

Lemma link_length (isDarkMode : bool) (sortedCommits : list Commit) (h : GitCanvas.NumMap)
    (index : nat) (c : Commit) (pid : option string) (i : nat) :
  List.length (GitCanvas.link isDarkMode sortedCommits h index c pid i) <= 1.
Proof.
  unfold GitCanvas.link. destruct pid as [p|]; [|simpl; lia].
  destruct (negb (JS.truthyS p)); [simpl; lia|].
  destruct (find _ sortedCommits); simpl; lia.
Qed.

Lemma draw_links (isDarkMode : bool) (gitState : GitState) (sortedCommits : list Commit)
    (h : GitCanvas.NumMap) (rest : list Commit) :
  forall index,
    (forall l,
       In l (snd (GitCanvas.draw isDarkMode gitState sortedCommits h index rest)) <->
       exists k c,
         nth_error rest k = Some c
         /\ (In l (GitCanvas.link isDarkMode sortedCommits h (index + k) c (parentId c) 0)
             \/ In l (GitCanvas.link isDarkMode sortedCommits h (index + k) c
                        (secondParentId c) 1)))
    /\ List.length (snd (GitCanvas.draw isDarkMode gitState sortedCommits h index rest))
       <= 2 * List.length rest.
Proof.
  induction rest as [|c rest IH]; intros index; simpl.
  - split; [|lia]. intros l. split; [intros [] | intros [k [d [E _]]]].
    destruct k; discriminate.
  - specialize (IH (S index)).
    destruct (GitCanvas.draw isDarkMode gitState sortedCommits h (S index) rest) as [ns ls].
    cbn [snd] in *. destruct IH as [IH Len]. split.
    + intros l. rewrite !in_app_iff, IH. split.
      * intros [H | [H | [k [d [E H]]]]].
        -- exists 0, c. rewrite Nat.add_0_r. split; [reflexivity | now left].
        -- exists 0, c. rewrite Nat.add_0_r. split; [reflexivity | now right].
        -- exists (S k), d. rewrite Nat.add_succ_r. split; [exact E | exact H].
      * intros [k [d [E H]]]. destruct k as [|k].
        -- injection E as <-. rewrite Nat.add_0_r in H. tauto.
        -- right. right. exists k, d. rewrite Nat.add_succ_r in H.
           split; [exact E | exact H].
    + rewrite !length_app.
      pose proof (link_length isDarkMode sortedCommits h index c (parentId c) 0).
      pose proof (link_length isDarkMode sortedCommits h index c (secondParentId c) 1).
      lia.
Qed.

(** X26. The links of the drawing are the parent links between drawn
    commits. Every link goes from a node to a node: its source is a drawn
    commit and its target is the non-empty first parent of that commit, or
    its second parent exactly when the link is marked as a merge link, and
    the target is drawn as well. Conversely every non-empty parent of a
    drawn commit that is itself a commit of the snapshot has its link.
    There are at most two links per node. *)
Theorem layout_links_are_parent_links (isDarkMode : bool) (gitState : GitState) :
  exists L,
    GitCanvas.layout isDarkMode gitState = Some L
    /\ (forall l,
          In l (GitCanvas.links L) ->
          exists src tgt,
            In src (GitCanvas.nodes L) /\ In tgt (GitCanvas.nodes L)
            /\ id (GitCanvas.node_commit src) = GitCanvas.link_source l
            /\ id (GitCanvas.node_commit tgt) = GitCanvas.link_target l
            /\ JS.truthyS (GitCanvas.link_target l) = true
            /\ (if GitCanvas.link_isMerge l
                then secondParentId (GitCanvas.node_commit src)
                     = Some (GitCanvas.link_target l)
                else parentId (GitCanvas.node_commit src)
                     = Some (GitCanvas.link_target l)))
    /\ (forall src p,
          In src (GitCanvas.nodes L) ->
          parentId (GitCanvas.node_commit src) = Some p
          \/ secondParentId (GitCanvas.node_commit src) = Some p ->
          JS.truthyS p = true ->
          In p (ids gitState) ->
          exists l,
            In l (GitCanvas.links L)
            /\ GitCanvas.link_source l = id (GitCanvas.node_commit src)
            /\ GitCanvas.link_target l = p)
    /\ List.length (GitCanvas.links L) <= 2 * List.length (GitCanvas.nodes L).
Proof.
  destruct (commits gitState) as [|c0 l0] eqn:C.
  { eexists. unfold GitCanvas.layout. rewrite C. split; [reflexivity|].
    cbn [GitCanvas.nodes GitCanvas.links]. split; [intros l []|].
    split; [intros src p []|]. simpl. lia. }
  assert (commits gitState <> []) as Ne by congruence. clear C.
  destruct (layout_unfolded isDarkMode gitState Ne) as [t [T ->]].
  eexists. split; [reflexivity|].
  cbn [GitCanvas.nodes GitCanvas.links].
  set (sorted := sortNewestFirst (commits gitState)).
  set (h := GitCanvas.placeRest sorted (snd (GitCanvas.assignLanes gitState)) t).
  pose proof (draw_commits gitState isDarkMode sorted h sorted 0) as Dc.
  destruct (draw_links isDarkMode gitState sorted h sorted 0) as [Dl Len].
  assert (forall c, In c sorted ->
            exists nd, In nd (fst (GitCanvas.draw isDarkMode gitState sorted h 0 sorted))
                       /\ GitCanvas.node_commit nd = c) as Drawn.
  { intros c Hc. rewrite <- Dc in Hc. apply in_map_iff in Hc.
    destruct Hc as [nd [E Hn]]. now exists nd. }
  assert (forall p, In p (map id sorted) ->
            exists nd, In nd (fst (GitCanvas.draw isDarkMode gitState sorted h 0 sorted))
                       /\ id (GitCanvas.node_commit nd) = p) as DrawnId.
  { intros p Hp. apply in_map_iff in Hp. destruct Hp as [c [E Hc]].
    destruct (Drawn c Hc) as [nd [Hn En]]. exists nd. split; [exact Hn | congruence]. }
  split; [|split].
  - intros l Hl. apply Dl in Hl. destruct Hl as [k [c [Ek Hl]]].
    apply nth_error_In in Ek. destruct (Drawn c Ek) as [src [Hs Es]].
    destruct Hl as [Hl | Hl]; apply link_In in Hl;
      destruct Hl as [p [Ep [Tp [Hp [S1 [S2 S3]]]]]];
      destruct (DrawnId p Hp) as [tgt [Ht Et]];
      exists src, tgt; rewrite Es, S1, S2, S3; cbn [Nat.eqb]; auto 10.
  - intros src p Hs Par Tp Hp.
    assert (In p (map id sorted)) as Hp'.
    { unfold ids in Hp. apply in_map_iff in Hp. destruct Hp as [c [E Hc]].
      apply in_map_iff. exists c. split; [exact E | now apply sortNewestFirst_In]. }
    apply In_nth_error in Hs. destruct Hs as [k Ek].
    rewrite draw_nodes in Ek. cbn [Nat.add] in Ek.
    destruct (nth_error sorted k) as [c|] eqn:Ec; [|discriminate].
    cbn in Ek. injection Ek as <-. cbn [GitCanvas.node_commit GitCanvas.node] in *.
    destruct Par as [Par | Par].
    + destruct (link_made isDarkMode sorted h k c p 0 Tp Hp') as [l [El [S1 S2]]].
      exists l. split; [|now split]. apply Dl. exists k, c.
      split; [exact Ec|]. left. cbn [Nat.add]. rewrite Par, El. now left.
    + destruct (link_made isDarkMode sorted h k c p 1 Tp Hp') as [l [El [S1 S2]]].
      exists l. split; [|now split]. apply Dl. exists k, c.
      split; [exact Ec|]. right. cbn [Nat.add]. rewrite Par, El. now left.
  - rewrite <- (length_map GitCanvas.node_commit), Dc. exact Len.
Qed.
